(** * Aura loader: mapping-to-Cypher compiler and load orchestrator

    A shallow embedding of [bin/auraLoader.py].  The loader turns a JSON
    mapping into Cypher text, sends it to a Neo4j database and checks the
    sources before and the graph after the load.

    The development has three layers:
    - the {e text} layer: the Python functions that build Cypher text,
      transcribed on [string] with the same literals and the same order
      of concatenation;
    - the {e statement} layer: a typed syntax for the fragment of Cypher
      that the text layer emits, a printer from that syntax to text
      (proved to give back exactly the text of the Python builders) and
      an interpreter of that syntax on a property graph;
    - the {e orchestration} layer: [main], as a function from the
      command line, the documents and the answers of the collaborators
      to a trace of events and an exit status. *)

From Stdlib Require Import String Ascii List ZArith NArith Bool Lia.
From Stdlib Require Import DecimalString.
From Stdlib Require SpecFloat.
Import ListNotations.

Local Open Scope list_scope.
Local Open Scope string_scope.

(* ================================================================= *)
(** ** Python values used by the text layer *)

(** Exceptions the Python code can raise: on a mapping that lacks a key,
    an empty list, a source that is not declared, a request or a
    database call that fails. *)
Inductive exn : Type :=
| KeyError (key : string)
| IndexError
| ValueError
| TypeError
| RuntimeError (msg : string)
| HTTPError
| DatabaseError.

Inductive result (A : Type) : Type :=
| Ok (a : A)
| Raise (e : exn).

Arguments Ok {A} a.
Arguments Raise {A} e.

Definition bind {A B : Type} (m : result A) (k : A -> result B) : result B :=
  match m with
  | Ok a => k a
  | Raise e => Raise e
  end.

Notation "x <- m ;; k" := (bind m (fun x => k))
  (at level 61, m at next level, right associativity).

(** [d[key]] on a JSON object field that may be absent. *)
Definition require {A : Type} (key : string) (o : option A) : result A :=
  match o with
  | Some a => Ok a
  | None => Raise (KeyError key)
  end.

(** [d.get(key, default)]. *)
Definition get_or {A : Type} (o : option A) (default : A) : A :=
  match o with
  | Some a => a
  | None => default
  end.

(** A Python [dict] with string keys, in insertion order. *)
Definition dict (A : Type) : Type := list (string * A).

Fixpoint lookup {A : Type} (k : string) (d : dict A) : option A :=
  match d with
  | [] => None
  | (k', v) :: rest => if String.eqb k k' then Some v else lookup k rest
  end.

(** [k in d]. *)
Definition has_key {A : Type} (k : string) (d : dict A) : bool :=
  match lookup k d with
  | Some _ => true
  | None => false
  end.

(** [x in xs] for a list of strings. *)
Fixpoint mem (x : string) (xs : list string) : bool :=
  match xs with
  | [] => false
  | y :: rest => String.eqb x y || mem x rest
  end.

(** [sep.join(xs)]. *)
Definition join (sep : string) (xs : list string) : string :=
  String.concat sep xs.

(** [sep.join(x :: xs)] is [x] followed by every other item with the
    separator before it. *)
Fixpoint tail_join (sep : string) (xs : list string) : string :=
  match xs with
  | [] => ""
  | x :: rest => sep ++ x ++ tail_join sep rest
  end.

Definition nl : string := String (ascii_of_nat 10) EmptyString.

(** [str(n)] for a Python integer. *)
Definition str_of_int (n : Z) : string :=
  NilZero.string_of_int (Z.to_int n).

(** [s.replace("\n", "\n  ")]: every line feed gets two blanks after it. *)
Fixpoint indent_lines (s : string) : string :=
  match s with
  | EmptyString => EmptyString
  | String c rest =>
      if Ascii.eqb c (ascii_of_nat 10)
      then String c (String " " (String " " (indent_lines rest)))
      else String c (indent_lines rest)
  end.

(** [c in s] for a character. *)
Fixpoint contains_char (c : ascii) (s : string) : bool :=
  match s with
  | EmptyString => false
  | String d rest => Ascii.eqb c d || contains_char c rest
  end.

(** [s.split(sep)] for a one-character separator. *)
Fixpoint split_on (sep : ascii) (s : string) : list string :=
  match s with
  | EmptyString => [EmptyString]
  | String c rest =>
      if Ascii.eqb c sep then EmptyString :: split_on sep rest
      else match split_on sep rest with
           | [] => [String c EmptyString]
           | w :: ws => String c w :: ws
           end
  end.

(** [s.upper()] on the ASCII letters. *)
Definition upper_ascii (c : ascii) : ascii :=
  let n := nat_of_ascii c in
  if (97 <=? n)%nat && (n <=? 122)%nat then ascii_of_nat (n - 32) else c.

Fixpoint upper (s : string) : string :=
  match s with
  | EmptyString => EmptyString
  | String c rest => String (upper_ascii c) (upper rest)
  end.

(* ================================================================= *)
(** ** The mapping document *)

(** One source column mapped to one property.  [spec["column"]] is
    required; the other three are read with [spec.get]. *)
Record FieldSpec : Type := {
  fs_column : string;
  fs_type : option string;
  fs_transform : option (list string);
  fs_nullable : option bool
}.

Record NodeSpec : Type := {
  ns_source : string;
  ns_label : string;
  ns_key : list string;
  ns_mappings : dict FieldSpec
}.

(** An endpoint of a relationship: the label and the [match_on] list of
    [sourceColumn] or [sourceColumn:targetProperty] strings. *)
Record EndpointSpec : Type := {
  ep_label : string;
  ep_match_on : list string
}.

Record RelSpec : Type := {
  rs_source : string;
  rs_type : string;
  rs_direction : option string;
  rs_from : EndpointSpec;
  rs_to : EndpointSpec;
  rs_properties : option (dict FieldSpec)
}.

(** One entry of [runtime.indexes]. *)
Record IndexDecl : Type := {
  idx_kind : option string;
  idx_label : option string;
  idx_type : option string;
  idx_properties : option (list string);
  idx_unique : option bool
}.

(* ================================================================= *)
(** ** Text layer: [build_constraint_cypher] *)

(** [props[0]]. *)
Definition first_item (props : list string) : result string :=
  match props with
  | p :: _ => Ok p
  | [] => Raise IndexError
  end.

(** The body of the loop of [build_constraint_cypher]: the statements
    one declaration contributes. *)
Definition constraint_stmts (idx : IndexDecl) : result (list string) :=
  match idx_kind idx with
  | None => Ok []
  | Some kind =>
      if String.eqb kind "constraint" then
        label <- require "label" (idx_label idx) ;;
        props <- require "properties" (idx_properties idx) ;;
        p0 <- first_item props ;;
        if get_or (idx_unique idx) false
        then Ok ["CREATE CONSTRAINT IF NOT EXISTS FOR (n:`" ++ label
                 ++ "`) REQUIRE n.`" ++ p0 ++ "` IS UNIQUE;"]
        else Ok ["CREATE INDEX IF NOT EXISTS FOR (n:`" ++ label
                 ++ "`) ON (n.`" ++ p0 ++ "`);"]
      else if String.eqb kind "rel_index" then
        rtype <- require "type" (idx_type idx) ;;
        props <- require "properties" (idx_properties idx) ;;
        p0 <- first_item props ;;
        Ok ["CREATE INDEX IF NOT EXISTS FOR ()-[r:`" ++ rtype
            ++ "`]-() ON (r.`" ++ p0 ++ "`);"]
      else Ok []
  end.

Fixpoint build_constraint_cypher (runtime_indexes : list IndexDecl)
  : result (list string) :=
  match runtime_indexes with
  | [] => Ok []
  | idx :: rest =>
      stmts <- constraint_stmts idx ;;
      more <- build_constraint_cypher rest ;;
      Ok (stmts ++ more)%list
  end.

(** The declaration with every property after the first one dropped. *)
Definition keep_first_property (idx : IndexDecl) : IndexDecl :=
  {| idx_kind := idx_kind idx;
     idx_label := idx_label idx;
     idx_type := idx_type idx;
     idx_properties := option_map (firstn 1) (idx_properties idx);
     idx_unique := idx_unique idx |}.

(* ================================================================= *)
(** ** Text layer: the expression compiler

    A Python literal ['\\uFEFF'] is the Cypher text ['\uFEFF'] (the
    byte-order mark, written with Cypher's escape) and ['\\\\N'] is the
    Cypher text ['\\N'], the two-character string backslash, N. *)

Definition type_cast (expr : string) (spec : FieldSpec) : string :=
  let t := get_or (fs_type spec) "string" in
  let transforms := get_or (fs_transform spec) [] in
  let e := "replace(" ++ expr ++ ", '\uFEFF', '')" in
  let e := "trim(" ++ e ++ ")" in
  let e := "CASE WHEN " ++ e ++ " = '\\N' THEN '' ELSE " ++ e ++ " END" in
  let e := if mem "lower" transforms then "toLower(" ++ e ++ ")" else e in
  if String.eqb t "int" then "toInteger(" ++ e ++ ")"
  else if String.eqb t "float" then "toFloat(" ++ e ++ ")"
  else e.

Definition nullable_cast (expr : string) (spec : FieldSpec) : string :=
  let base := type_cast expr spec in
  let null_check :=
    expr ++ " IS NULL OR " ++ expr ++ " = '' OR " ++ expr ++ " = '\\N'" in
  if get_or (fs_nullable spec) false
  then "CASE WHEN " ++ null_check ++ " THEN NULL ELSE " ++ base ++ " END"
  else base.

(* ================================================================= *)
(** ** Text layer: statement bodies *)

(** The skip-guard on one column, as both builders write it. *)
Definition key_pred (col : string) : string :=
  "(CASE WHEN replace(trim(row.`" ++ col ++ "`), '\uFEFF','') = '\\N' "
  ++ "THEN '' ELSE replace(trim(row.`" ++ col ++ "`), '\uFEFF','') END) <> ''".

(** [[f(x) for x in xs]] where [f] may raise. *)
Fixpoint traverse {A B : Type} (f : A -> result B) (xs : list A)
  : result (list B) :=
  match xs with
  | [] => Ok []
  | x :: rest =>
      y <- f x ;;
      ys <- traverse f rest ;;
      Ok (y :: ys)
  end.

(** [mappings[k]]. *)
Definition mapping_of (mappings : dict FieldSpec) (k : string)
  : result FieldSpec :=
  require k (lookup k mappings).

Definition node_setter (key_fields : list string) (item : string * FieldSpec)
  : string :=
  let (prop, spec) := item in
  if mem prop key_fields
  then "n.`" ++ prop ++ "` = " ++ type_cast ("row." ++ fs_column spec) spec
  else "n.`" ++ prop ++ "` = " ++ nullable_cast ("row." ++ fs_column spec) spec.

Definition node_stamps : list string :=
  [ "n.source_system = $source_system";
    "n.ingest_batch  = $ingest_batch";
    "n.ingested_at   = datetime()" ].

Definition build_node_load_body (node_spec : NodeSpec) : result string :=
  let label := ns_label node_spec in
  let mappings := ns_mappings node_spec in
  let key_fields := ns_key node_spec in
  key_cols <- traverse (fun k => spec <- mapping_of mappings k ;;
                                 Ok (fs_column spec)) key_fields ;;
  merge_items <- traverse
    (fun k => spec <- mapping_of mappings k ;;
              Ok (k ++ ": " ++ type_cast ("row." ++ fs_column spec) spec))
    key_fields ;;
  let merge_on := join ", " merge_items in
  let key_preds := join " AND " (map key_pred key_cols) in
  let setters := (map (node_setter key_fields) mappings ++ node_stamps)%list in
  Ok ("WITH row WHERE " ++ key_preds ++ nl
      ++ "MERGE (n:`" ++ label ++ "` { " ++ merge_on ++ " })" ++ nl
      ++ "SET " ++ join ", " setters).

(** [src_col, target_prop] of one [match_on] entry; an entry with two
    colons cannot be unpacked into the pair. *)
Definition match_on_pair (k : string) : result (string * string) :=
  if contains_char ":" k then
    match split_on ":" k with
    | [src_col; target_prop] => Ok (src_col, target_prop)
    | _ => Raise ValueError
    end
  else Ok (k, k).

Definition match_part (k : string) : result string :=
  p <- match_on_pair k ;;
  let (src_col, target_prop) := p in
  Ok ("`" ++ target_prop ++ "`: toInteger(replace(trim(row.`" ++ src_col
      ++ "`), '\uFEFF',''))").

Definition match_expr (role : string) (spec : EndpointSpec) : result string :=
  parts <- traverse match_part (ep_match_on spec) ;;
  Ok ("(x_" ++ role ++ ":`" ++ ep_label spec ++ "` { " ++ join ", " parts
      ++ " })").

(** [k.split(":")[0] if ":" in k else k]. *)
Definition required_col (k : string) : string :=
  if contains_char ":" k then hd EmptyString (split_on ":" k) else k.

Definition linkid_guard_text : string :=
  " AND (CASE WHEN replace(trim(row.`linkid`), '\uFEFF','') = '\\N' "
  ++ "THEN '' ELSE replace(trim(row.`linkid`), '\uFEFF','') END) <> ''".

Definition merge_rel_props_text : string :=
  " { linkid: toInteger(replace(trim(row.`linkid`), '\uFEFF','')) }".

Definition rel_setter (item : string * FieldSpec) : string :=
  let (prop, spec) := item in
  "r.`" ++ prop ++ "` = " ++ nullable_cast ("row." ++ fs_column spec) spec.

Definition rel_stamps : list string :=
  [ "r.source_system = $source_system";
    "r.ingest_batch  = $ingest_batch";
    "r.ingested_at   = datetime()" ].

Definition build_rel_load_body (rel_spec : RelSpec) : result string :=
  let rtype := rs_type rel_spec in
  let direction := upper (get_or (rs_direction rel_spec) "OUT") in
  let from_spec := rs_from rel_spec in
  let to_spec := rs_to rel_spec in
  let props := get_or (rs_properties rel_spec) [] in
  let required_cols :=
    map required_col (ep_match_on from_spec ++ ep_match_on to_spec)%list in
  let linked := has_key "linkid" props in
  let linkid_guard := if linked then linkid_guard_text else "" in
  let merge_rel_props := if linked then merge_rel_props_text else "" in
  let key_preds := join " AND " (map key_pred required_cols) ++ linkid_guard in
  let pattern :=
    if String.eqb direction "OUT"
    then "(x_from)-[r:`" ++ rtype ++ "`" ++ merge_rel_props ++ "]->(x_to)"
    else "(x_to)-[r:`" ++ rtype ++ "`" ++ merge_rel_props ++ "]->(x_from)" in
  let setters := (map rel_setter props ++ rel_stamps)%list in
  m_from <- match_expr "from" from_spec ;;
  m_to <- match_expr "to" to_spec ;;
  Ok ("WITH row WHERE " ++ key_preds ++ nl
      ++ "MATCH " ++ m_from ++ ", " ++ m_to ++ nl
      ++ "MERGE " ++ pattern ++ nl
      ++ "SET " ++ join ", " setters).

(* ================================================================= *)
(** ** Text layer: batching and promotion *)

Definition load_csv_batched (url_param body : string) (rows : Z) : string :=
  "LOAD CSV WITH HEADERS FROM $" ++ url_param ++ " AS row" ++ nl
  ++ "CALL (row) {" ++ nl
  ++ "  " ++ indent_lines body ++ nl
  ++ "}"
  ++ " IN TRANSACTIONS OF " ++ str_of_int rows ++ " ROWS".

(** One entry of [derived_relationships.promote_named_edges.map]. *)
Record PromoteRule : Type := {
  pr_linkid : Z;
  pr_type : string
}.

(** The statement [promote_named_edges] runs for one rule; the
    discriminator travels as the parameter [$lid]. *)
Definition promote_cypher (rtype : string) : string :=
  "MATCH (a:synset)-[r:SYNSET {linkid:$lid}]->(b:synset)" ++ nl
  ++ "MERGE (a)-[x:`" ++ rtype ++ "`]->(b)" ++ nl
  ++ "ON CREATE SET "
  ++ "  x.source_system = coalesce(r.source_system, 'wordnet'), "
  ++ "  x.ingest_batch  = coalesce(r.ingest_batch,  'derived'), "
  ++ "  x.ingested_at   = datetime()".

(* ================================================================= *)
(** ** Statement layer: data of the database

    Cell values of a CSV file and property values of the graph are
    sequences of Unicode code points. *)

Definition char : Type := N.
Definition ustring : Type := list char.

(** U+FEFF, the byte-order mark. *)
Definition BOM : char := 65279%N.

(** The two-character string backslash, N. *)
Definition SENTINEL : ustring := [92%N; 78%N].

(** The code points of an ASCII text. *)
Fixpoint utext (s : string) : ustring :=
  match s with
  | EmptyString => []
  | String c rest => N_of_ascii c :: utext rest
  end.

Fixpoint ustring_eqb (a b : ustring) : bool :=
  match a, b with
  | [], [] => true
  | x :: a', y :: b' => N.eqb x y && ustring_eqb a' b'
  | _, _ => false
  end.

(** A finite binary float [m * 2^e] equals the integer [z]. *)
Definition float_eq_int (f : SpecFloat.spec_float) (z : Z) : bool :=
  match f with
  | SpecFloat.S754_zero _ => Z.eqb z 0
  | SpecFloat.S754_finite s m e =>
      let v := if s then Z.opp (Z.pos m) else Z.pos m in
      if (0 <=? e)%Z then Z.eqb z (v * 2 ^ e)
      else Z.eqb (z * 2 ^ (- e)) v
  | _ => false
  end.

(** Property values.  [VNull] is Cypher's [null]; a property holding
    [null] is an absent property. *)
Inductive value : Type :=
| VNull
| VStr (s : ustring)
| VInt (z : Z)
| VFloat (f : SpecFloat.spec_float)
| VTime (t : Z).

(** Cypher's [=] on two values that are not [null]. *)
Definition value_eqb (a b : value) : bool :=
  match a, b with
  | VStr x, VStr y => ustring_eqb x y
  | VInt x, VInt y => Z.eqb x y
  | VFloat x, VFloat y => SpecFloat.SFeqb x y
  | VInt x, VFloat y => float_eq_int y x
  | VFloat x, VInt y => float_eq_int x y
  | VTime x, VTime y => Z.eqb x y
  | _, _ => false
  end.

Definition is_null (v : value) : bool :=
  match v with
  | VNull => true
  | _ => false
  end.

(** What the database engine decides and the loader does not: which
    code points [trim()] removes, how [toLower()] folds case, and which
    strings [toInteger()] and [toFloat()] can read ([None] is [null]). *)
Record Engine : Type := {
  is_space : char -> bool;
  to_lower : ustring -> ustring;
  parse_int : ustring -> option Z;
  parse_float : ustring -> option SpecFloat.spec_float
}.

(** One line of [LOAD CSV WITH HEADERS]: header name to cell.  A column
    that is absent from the list reads as [null]. *)
Definition row : Type := list (string * ustring).

Definition row_get (r : row) (col : string) : option ustring :=
  lookup col r.

(** The parameters and the clock of one statement. *)
Record env : Type := {
  env_row : row;
  env_source_system : value;
  env_ingest_batch : value;
  env_now : Z
}.

(* ================================================================= *)
(** ** Statement layer: expressions *)

(** String-valued expressions and predicates over them.  [quoted]
    tells [row.`col`] from [row.col]; [spaced] tells
    [replace(e, '\uFEFF', '')] from [replace(e, '\uFEFF','')]. *)
Inductive sexpr : Type :=
| SRow (quoted : bool) (col : string)
| SEmpty
| SSentinel
| SStripBom (spaced : bool) (e : sexpr)
| STrim (e : sexpr)
| SLower (e : sexpr)
| SCase (c : bexpr) (t f : sexpr)
| SParen (e : sexpr)
with bexpr : Type :=
| BEq (a b : sexpr)
| BNeq (a b : sexpr)
| BIsNull (a : sexpr)
| BOr (a b : bexpr)
| BAnd (a b : bexpr).

Inductive param : Type :=
| PSourceSystem
| PIngestBatch.

(** Expressions that give a property value. *)
Inductive vexpr : Type :=
| VOfString (e : sexpr)
| VToInteger (e : sexpr)
| VToFloat (e : sexpr)
| VNullWhen (c : bexpr) (e : vexpr)
| VParam (p : param)
| VDatetime.

Fixpoint render_s (e : sexpr) : string :=
  match e with
  | SRow true col => "row.`" ++ col ++ "`"
  | SRow false col => "row." ++ col
  | SEmpty => "''"
  | SSentinel => "'\\N'"
  | SStripBom true e => "replace(" ++ render_s e ++ ", '\uFEFF', '')"
  | SStripBom false e => "replace(" ++ render_s e ++ ", '\uFEFF','')"
  | STrim e => "trim(" ++ render_s e ++ ")"
  | SLower e => "toLower(" ++ render_s e ++ ")"
  | SCase c t f =>
      "CASE WHEN " ++ render_b c ++ " THEN " ++ render_s t
      ++ " ELSE " ++ render_s f ++ " END"
  | SParen e => "(" ++ render_s e ++ ")"
  end
with render_b (b : bexpr) : string :=
  match b with
  | BEq x y => render_s x ++ " = " ++ render_s y
  | BNeq x y => render_s x ++ " <> " ++ render_s y
  | BIsNull x => render_s x ++ " IS NULL"
  | BOr x y => render_b x ++ " OR " ++ render_b y
  | BAnd x y => render_b x ++ " AND " ++ render_b y
  end.

Definition render_param (p : param) : string :=
  match p with
  | PSourceSystem => "$source_system"
  | PIngestBatch => "$ingest_batch"
  end.

Fixpoint render_v (e : vexpr) : string :=
  match e with
  | VOfString s => render_s s
  | VToInteger s => "toInteger(" ++ render_s s ++ ")"
  | VToFloat s => "toFloat(" ++ render_s s ++ ")"
  | VNullWhen c e =>
      "CASE WHEN " ++ render_b c ++ " THEN NULL ELSE " ++ render_v e ++ " END"
  | VParam p => render_param p
  | VDatetime => "datetime()"
  end.

(** Three-valued logic: [None] is [null]. *)
Definition or3 (a b : option bool) : option bool :=
  match a, b with
  | Some true, _ | _, Some true => Some true
  | Some false, Some false => Some false
  | _, _ => None
  end.

Definition and3 (a b : option bool) : option bool :=
  match a, b with
  | Some false, _ | _, Some false => Some false
  | Some true, Some true => Some true
  | _, _ => None
  end.

Definition strip_bom (s : ustring) : ustring :=
  filter (fun c => negb (N.eqb c BOM)) s.

Section Evaluation.

Variable E : Engine.

Fixpoint ltrim (s : ustring) : ustring :=
  match s with
  | [] => []
  | c :: rest => if is_space E c then ltrim rest else s
  end.

Definition rtrim (s : ustring) : ustring := rev (ltrim (rev s)).

Definition trim (s : ustring) : ustring := rtrim (ltrim s).

(** The value of a string expression on a row; [None] is [null].  Every
    function gives [null] on [null]; [CASE] takes its [ELSE] branch
    unless the condition is [true]. *)
Fixpoint eval_s (r : row) (e : sexpr) : option ustring :=
  match e with
  | SRow _ col => row_get r col
  | SEmpty => Some []
  | SSentinel => Some SENTINEL
  | SStripBom _ e => option_map strip_bom (eval_s r e)
  | STrim e => option_map trim (eval_s r e)
  | SLower e => option_map (to_lower E) (eval_s r e)
  | SCase c t f =>
      match eval_b r c with
      | Some true => eval_s r t
      | _ => eval_s r f
      end
  | SParen e => eval_s r e
  end
with eval_b (r : row) (b : bexpr) : option bool :=
  match b with
  | BEq x y =>
      match eval_s r x, eval_s r y with
      | Some u, Some v => Some (ustring_eqb u v)
      | _, _ => None
      end
  | BNeq x y =>
      match eval_s r x, eval_s r y with
      | Some u, Some v => Some (negb (ustring_eqb u v))
      | _, _ => None
      end
  | BIsNull x =>
      match eval_s r x with
      | Some _ => Some false
      | None => Some true
      end
  | BOr x y => or3 (eval_b r x) (eval_b r y)
  | BAnd x y => and3 (eval_b r x) (eval_b r y)
  end.

Definition of_option {A : Type} (f : A -> value) (o : option A) : value :=
  match o with
  | Some a => f a
  | None => VNull
  end.

Fixpoint eval_v (rho : env) (e : vexpr) : value :=
  match e with
  | VOfString s => of_option VStr (eval_s (env_row rho) s)
  | VToInteger s =>
      match eval_s (env_row rho) s with
      | Some u => of_option VInt (parse_int E u)
      | None => VNull
      end
  | VToFloat s =>
      match eval_s (env_row rho) s with
      | Some u => of_option VFloat (parse_float E u)
      | None => VNull
      end
  | VNullWhen c e =>
      match eval_b (env_row rho) c with
      | Some true => VNull
      | _ => eval_v rho e
      end
  | VParam PSourceSystem => env_source_system rho
  | VParam PIngestBatch => env_ingest_batch rho
  | VDatetime => VTime (env_now rho)
  end.

End Evaluation.

(* ================================================================= *)
(** ** Statement layer: what the builders emit, as syntax *)

(** The expression of [type_cast] on the sub-expression [e]. *)
Definition type_cast_x (e : sexpr) (spec : FieldSpec) : vexpr :=
  let t := get_or (fs_type spec) "string" in
  let transforms := get_or (fs_transform spec) [] in
  let e1 := STrim (SStripBom true e) in
  let e2 := SCase (BEq e1 SSentinel) SEmpty e1 in
  let e3 := if mem "lower" transforms then SLower e2 else e2 in
  if String.eqb t "int" then VToInteger e3
  else if String.eqb t "float" then VToFloat e3
  else VOfString e3.

(** The expression of [nullable_cast] on the sub-expression [e]. *)
Definition nullable_cast_x (e : sexpr) (spec : FieldSpec) : vexpr :=
  let base := type_cast_x e spec in
  let null_check := BOr (BOr (BIsNull e) (BEq e SEmpty)) (BEq e SSentinel) in
  if get_or (fs_nullable spec) false then VNullWhen null_check base else base.

(** The normal form the skip-guard and the endpoint patterns compute:
    [replace(trim(row.`col`), BOM,'')]. *)
Definition guard_form (col : string) : sexpr :=
  SStripBom false (STrim (SRow true col)).

(** The skip-guard on one column. *)
Definition key_pred_x (col : string) : bexpr :=
  BNeq (SParen (SCase (BEq (guard_form col) SSentinel) SEmpty (guard_form col)))
       SEmpty.

(** [p1 AND p2 AND ...], read from the left as Cypher does. *)
Definition conj (p : bexpr) (ps : list bexpr) : bexpr := fold_left BAnd ps p.

(** One item of a [SET] clause on the variable of the statement;
    [si_gap] is the run of blanks the text has before [=]. *)
Record set_item : Type := {
  si_prop : string;
  si_quoted : bool;
  si_gap : string;
  si_value : vexpr
}.

Definition render_set (var : string) (it : set_item) : string :=
  var ++ "."
  ++ (if si_quoted it then "`" ++ si_prop it ++ "`" else si_prop it)
  ++ si_gap it ++ "= " ++ render_v (si_value it).

Definition stamps_x : list set_item :=
  [ {| si_prop := "source_system"; si_quoted := false; si_gap := " ";
       si_value := VParam PSourceSystem |};
    {| si_prop := "ingest_batch"; si_quoted := false; si_gap := "  ";
       si_value := VParam PIngestBatch |};
    {| si_prop := "ingested_at"; si_quoted := false; si_gap := "   ";
       si_value := VDatetime |} ].

(** [WITH row WHERE guard  MERGE (n:`label` { key })  SET items]. *)
Record node_load : Type := {
  nl_guard : bexpr;
  nl_label : string;
  nl_key : list (string * vexpr);
  nl_set : list set_item
}.

Definition render_key_item (kv : string * vexpr) : string :=
  fst kv ++ ": " ++ render_v (snd kv).

Definition render_node_load (st : node_load) : string :=
  "WITH row WHERE " ++ render_b (nl_guard st) ++ nl
  ++ "MERGE (n:`" ++ nl_label st ++ "` { "
  ++ join ", " (map render_key_item (nl_key st)) ++ " })" ++ nl
  ++ "SET " ++ join ", " (map (render_set "n") (nl_set st)).

Definition node_setter_x (key_fields : list string)
  (item : string * FieldSpec) : set_item :=
  let (prop, spec) := item in
  {| si_prop := prop; si_quoted := true; si_gap := " ";
     si_value :=
       if mem prop key_fields
       then type_cast_x (SRow false (fs_column spec)) spec
       else nullable_cast_x (SRow false (fs_column spec)) spec |}.

(** [traverse] for a function that may have no result. *)
Fixpoint collect {A B : Type} (f : A -> option B) (xs : list A)
  : option (list B) :=
  match xs with
  | [] => Some []
  | x :: rest =>
      match f x, collect f rest with
      | Some y, Some ys => Some (y :: ys)
      | _, _ => None
      end
  end.

(** The statement [build_node_load_body] writes.  There is none when
    the builder raises, and none when the key list is empty (the text
    then has an empty [WHERE]). *)
Definition node_load_of (node_spec : NodeSpec) : option node_load :=
  let mappings := ns_mappings node_spec in
  let key_fields := ns_key node_spec in
  match collect (fun k => lookup k mappings) key_fields with
  | Some (spec0 :: specs) =>
      Some {| nl_guard :=
                conj (key_pred_x (fs_column spec0))
                     (map (fun s => key_pred_x (fs_column s)) specs);
              nl_label := ns_label node_spec;
              nl_key :=
                map (fun ks : string * FieldSpec =>
                       (fst ks,
                        type_cast_x (SRow false (fs_column (snd ks))) (snd ks)))
                    (combine key_fields (spec0 :: specs));
              nl_set :=
                (map (node_setter_x key_fields) mappings ++ stamps_x)%list |}
  | _ => None
  end.

(** An endpoint pattern [(x_role:`label` { `prop`: e, ... })]. *)
Record node_pat : Type := {
  np_label : string;
  np_props : list (string * vexpr)
}.

Definition render_pat_item (kv : string * vexpr) : string :=
  "`" ++ fst kv ++ "`: " ++ render_v (snd kv).

Definition render_node_pat (role : string) (p : node_pat) : string :=
  "(x_" ++ role ++ ":`" ++ np_label p ++ "` { "
  ++ join ", " (map render_pat_item (np_props p)) ++ " })".

(** [WITH row WHERE guard  MATCH from, to  MERGE pattern  SET items];
    [rl_out] is the direction [OUT]; [rl_key] is the property map of
    the relationship in the [MERGE] pattern. *)
Record rel_load : Type := {
  rl_guard : bexpr;
  rl_from : node_pat;
  rl_to : node_pat;
  rl_out : bool;
  rl_type : string;
  rl_key : list (string * vexpr);
  rl_set : list set_item
}.

Definition render_rel_key (key : list (string * vexpr)) : string :=
  match key with
  | [] => ""
  | _ => " { " ++ join ", " (map render_key_item key) ++ " }"
  end.

Definition render_rel_load (st : rel_load) : string :=
  "WITH row WHERE " ++ render_b (rl_guard st) ++ nl
  ++ "MATCH " ++ render_node_pat "from" (rl_from st) ++ ", "
  ++ render_node_pat "to" (rl_to st) ++ nl
  ++ "MERGE "
  ++ (if rl_out st
      then "(x_from)-[r:`" ++ rl_type st ++ "`" ++ render_rel_key (rl_key st)
           ++ "]->(x_to)"
      else "(x_to)-[r:`" ++ rl_type st ++ "`" ++ render_rel_key (rl_key st)
           ++ "]->(x_from)") ++ nl
  ++ "SET " ++ join ", " (map (render_set "r") (rl_set st)).

Definition of_result {A : Type} (m : result A) : option A :=
  match m with
  | Ok a => Some a
  | Raise _ => None
  end.

Definition match_part_x (k : string) : option (string * vexpr) :=
  match of_result (match_on_pair k) with
  | Some (src_col, target_prop) =>
      Some (target_prop, VToInteger (guard_form src_col))
  | None => None
  end.

Definition node_pat_of (spec : EndpointSpec) : option node_pat :=
  match collect match_part_x (ep_match_on spec) with
  | Some parts => Some {| np_label := ep_label spec; np_props := parts |}
  | None => None
  end.

Definition rel_setter_x (item : string * FieldSpec) : set_item :=
  let (prop, spec) := item in
  {| si_prop := prop; si_quoted := true; si_gap := " ";
     si_value := nullable_cast_x (SRow false (fs_column spec)) spec |}.

(** The discriminator of the [MERGE] pattern. *)
Definition linkid_key : list (string * vexpr) :=
  [("linkid", VToInteger (guard_form "linkid"))].

(** The statement [build_rel_load_body] writes.  There is none when
    the builder raises, and none when no endpoint column is required
    (the text then has no well-formed [WHERE]). *)
Definition rel_load_of (rel_spec : RelSpec) : option rel_load :=
  let from_spec := rs_from rel_spec in
  let to_spec := rs_to rel_spec in
  let props := get_or (rs_properties rel_spec) [] in
  let linked := has_key "linkid" props in
  match map required_col (ep_match_on from_spec ++ ep_match_on to_spec)%list,
        node_pat_of from_spec, node_pat_of to_spec with
  | col0 :: cols, Some p_from, Some p_to =>
      Some {| rl_guard :=
                conj (key_pred_x col0)
                     (map key_pred_x cols
                      ++ (if linked then [key_pred_x "linkid"] else []))%list;
              rl_from := p_from;
              rl_to := p_to;
              rl_out :=
                String.eqb (upper (get_or (rs_direction rel_spec) "OUT")) "OUT";
              rl_type := rs_type rel_spec;
              rl_key := if linked then linkid_key else [];
              rl_set := (map rel_setter_x props ++ stamps_x)%list |}
  | _, _, _ => None
  end.

(* ================================================================= *)
(** ** Statement layer: the property graph *)

Definition props : Type := list (string * value).

(** [x.k]; an absent property reads as [null]. *)
Fixpoint prop_get (ps : props) (k : string) : value :=
  match ps with
  | [] => VNull
  | (k', v) :: rest => if String.eqb k k' then v else prop_get rest k
  end.

Fixpoint prop_put (ps : props) (k : string) (v : value) : props :=
  match ps with
  | [] => [(k, v)]
  | (k', v') :: rest =>
      if String.eqb k k' then (k, v) :: rest else (k', v') :: prop_put rest k v
  end.

Definition prop_del (ps : props) (k : string) : props :=
  filter (fun kv => negb (String.eqb k (fst kv))) ps.

(** [SET x.k = v]; setting [null] removes the property. *)
Definition prop_set (ps : props) (kv : string * value) : props :=
  if is_null (snd kv) then prop_del ps (fst kv)
  else prop_put ps (fst kv) (snd kv).

Definition set_all (ps : props) (assigns : list (string * value)) : props :=
  fold_left prop_set assigns ps.

(** A property map of a pattern holds on an entity when every listed
    property equals the listed value; a listed [null] equals nothing. *)
Definition props_match (pat have : props) : bool :=
  forallb (fun kv => value_eqb (snd kv) (prop_get have (fst kv))) pat.

Record node : Type := {
  n_id : nat;
  n_labels : list string;
  n_props : props
}.

Record edge : Type := {
  e_id : nat;
  e_type : string;
  e_src : nat;
  e_dst : nat;
  e_props : props
}.

(** [g_next] is the identifier the next created entity gets;
    [g_unique] lists the uniqueness constraints in force, each as a
    label and a property: [FOR (n:label) REQUIRE n.property IS UNIQUE]. *)
Record graph : Type := {
  g_nodes : list node;
  g_edges : list edge;
  g_next : nat;
  g_unique : list (string * string)
}.

Definition empty_graph : graph :=
  {| g_nodes := []; g_edges := []; g_next := 0; g_unique := [] |}.

Definition add_node (g : graph) (label : string) (ps : props) : graph :=
  {| g_nodes := (g_nodes g
                 ++ [{| n_id := g_next g; n_labels := [label];
                        n_props := ps |}])%list;
     g_edges := g_edges g;
     g_next := S (g_next g);
     g_unique := g_unique g |}.

Definition add_edge (g : graph) (rtype : string) (src dst : nat) (ps : props)
  : graph :=
  {| g_nodes := g_nodes g;
     g_edges := (g_edges g
                 ++ [{| e_id := g_next g; e_type := rtype; e_src := src;
                        e_dst := dst; e_props := ps |}])%list;
     g_next := S (g_next g);
     g_unique := g_unique g |}.

Definition id_in (i : nat) (ids : list nat) : bool := existsb (Nat.eqb i) ids.

Definition set_on_nodes (g : graph) (ids : list nat)
  (assigns : list (string * value)) : graph :=
  {| g_nodes :=
       map (fun n => if id_in (n_id n) ids
                     then {| n_id := n_id n; n_labels := n_labels n;
                             n_props := set_all (n_props n) assigns |}
                     else n) (g_nodes g);
     g_edges := g_edges g;
     g_next := g_next g;
     g_unique := g_unique g |}.

Definition set_on_edges (g : graph) (ids : list nat)
  (assigns : list (string * value)) : graph :=
  {| g_nodes := g_nodes g;
     g_edges :=
       map (fun e => if id_in (e_id e) ids
                     then {| e_id := e_id e; e_type := e_type e;
                             e_src := e_src e; e_dst := e_dst e;
                             e_props := set_all (e_props e) assigns |}
                     else e) (g_edges g);
     g_next := g_next g;
     g_unique := g_unique g |}.

(** [(n:`label` { pat })] holds on the node. *)
Definition node_matches (label : string) (pat : props) (n : node) : bool :=
  mem label (n_labels n) && props_match pat (n_props n).

(** [(src)-[:`rtype` { pat }]->(dst)] holds on the edge. *)
Definition edge_matches (rtype : string) (src dst : nat) (pat : props)
  (e : edge) : bool :=
  String.eqb (e_type e) rtype && Nat.eqb (e_src e) src
  && Nat.eqb (e_dst e) dst && props_match pat (e_props e).

(** How a statement ends on the database: it is done, or it fails and
    its transaction is rolled back.  [MERGE] refuses a pattern with a
    [null] property value, and a write that leaves two nodes of a
    label with the same value of a property that a uniqueness
    constraint covers is refused. *)
Inductive db_error : Type :=
| MergeNullProperty
| ConstraintViolation
| InvalidBatchSize.

Inductive outcome (A : Type) : Type :=
| Done (a : A)
| Failed (why : db_error).

Arguments Done {A} a.
Arguments Failed {A} why.

Definition has_null (ps : props) : bool :=
  existsb (fun kv => is_null (snd kv)) ps.

(** Two values that a uniqueness constraint takes for the same. *)
Definition same_value (a b : value) : bool := value_eqb a b || value_eqb b a.

Fixpoint all_distinct (vs : list value) : bool :=
  match vs with
  | [] => true
  | v :: rest => negb (existsb (same_value v) rest) && all_distinct rest
  end.

(** The values of a property on the nodes of a label that have it. *)
Definition values_of (g : graph) (label prop : string) : list value :=
  filter (fun v => negb (is_null v))
         (map (fun n => prop_get (n_props n) prop)
              (filter (fun n => mem label (n_labels n)) (g_nodes g))).

(** A uniqueness constraint holds: no two nodes of the label have the
    same value of the property. *)
Definition unique_holds (g : graph) (c : string * string) : bool :=
  all_distinct (values_of g (fst c) (snd c)).

Definition constraints_hold (g : graph) : bool :=
  forallb (unique_holds g) (g_unique g).

(** The end of a write to nodes: the constraints in force are checked
    on what it leaves. *)
Definition checked (g : graph) : outcome graph :=
  if constraints_hold g then Done g else Failed ConstraintViolation.

(** [MERGE (src)-[r:`rtype` { key }]->(dst)] for one pair of bound
    endpoints: the matching edges are bound to [r]; when there is none,
    one is created with the properties of the pattern. *)
Definition merge_edge (rtype : string) (key : props)
  (acc : graph * list nat) (pair : nat * nat) : graph * list nat :=
  let (g, bound) := acc in
  let (src, dst) := pair in
  match filter (edge_matches rtype src dst key) (g_edges g) with
  | [] => (add_edge g rtype src dst key, (bound ++ [g_next g])%list)
  | found => (g, (bound ++ map e_id found)%list)
  end.

Section Execution.

Variable E : Engine.

Definition eval_props (rho : env) (items : list (string * vexpr)) : props :=
  map (fun kv => (fst kv, eval_v E rho (snd kv))) items.

Definition eval_set (rho : env) (items : list set_item)
  : list (string * value) :=
  map (fun it => (si_prop it, eval_v E rho (si_value it))) items.

(** One row through the body of a node load. *)
Definition exec_node_load (st : node_load) (rho : env) (g : graph)
  : outcome graph :=
  match eval_b E (env_row rho) (nl_guard st) with
  | Some true =>
      let key := eval_props rho (nl_key st) in
      if has_null key then Failed MergeNullProperty
      else
        let assigns := eval_set rho (nl_set st) in
        match filter (node_matches (nl_label st) key) (g_nodes g) with
        | [] => checked (set_on_nodes (add_node g (nl_label st) key)
                                      [g_next g] assigns)
        | found => checked (set_on_nodes g (map n_id found) assigns)
        end
  | _ => Done g
  end.

(** The nodes an endpoint pattern binds. *)
Definition match_nodes (p : node_pat) (rho : env) (g : graph) : list nat :=
  map n_id (filter (node_matches (np_label p) (eval_props rho (np_props p)))
                   (g_nodes g)).

(** The (source, target) pairs the [MERGE] pattern runs on. *)
Definition endpoint_pairs (st : rel_load) (rho : env) (g : graph)
  : list (nat * nat) :=
  let pairs := list_prod (match_nodes (rl_from st) rho g)
                         (match_nodes (rl_to st) rho g) in
  if rl_out st then pairs else map (fun p => (snd p, fst p)) pairs.

(** One row through the body of a relationship load. *)
Definition exec_rel_load (st : rel_load) (rho : env) (g : graph)
  : outcome graph :=
  match eval_b E (env_row rho) (rl_guard st) with
  | Some true =>
      match endpoint_pairs st rho g with
      | [] => Done g
      | pairs =>
          let key := eval_props rho (rl_key st) in
          if has_null key then Failed MergeNullProperty
          else
            let (g1, bound) :=
              fold_left (merge_edge (rl_type st) key) pairs (g, []) in
            Done (set_on_edges g1 bound (eval_set rho (rl_set st)))
      end
  | _ => Done g
  end.

End Execution.

(* ================================================================= *)
(** ** Statement layer: reading a graph *)

(** Identifiers are unique and below the next fresh one. *)
Definition wf_graph (g : graph) : Prop :=
  NoDup (map e_id (g_edges g))
  /\ Forall (fun e => e_id e < g_next g) (g_edges g).

(** The number of edges of a type from [src] to [dst] that carry the
    discriminator [d]. *)
Definition count_linked (rtype : string) (src dst : nat) (d : Z) (g : graph)
  : nat :=
  length (filter (edge_matches rtype src dst [("linkid", VInt d)]) (g_edges g)).

(** The value the last assignment to [k] gives, if [k] is assigned. *)
Definition assigned (assigns : list (string * value)) (k : string)
  : option value :=
  fold_left (fun acc kv => if String.eqb k (fst kv) then Some (snd kv) else acc)
            assigns None.

(** The row passes the skip-guard, each endpoint pattern finds exactly
    one node, and the discriminator of the [MERGE] pattern is the
    integer [d]. *)
Definition resolves (E : Engine) (st : rel_load) (g : graph) (src dst : nat)
  (d : Z) (rho : env) : Prop :=
  eval_b E (env_row rho) (rl_guard st) = Some true
  /\ endpoint_pairs E st rho g = [(src, dst)]
  /\ eval_props E rho (rl_key st) = [("linkid", VInt d)].

(** The [SET] clause leaves [linkid] at the integer [d]. *)
Definition writes_back (E : Engine) (st : rel_load) (d : Z) (rho : env) : Prop :=
  assigned (eval_set E rho (rl_set st)) "linkid" = Some (VInt d).

(* ================================================================= *)
(** ** Statement layer: constraints and indexes *)

(** The statements [build_constraint_cypher] writes. *)
Inductive schema_stmt : Type :=
| UniqueNode (label prop : string)
| NodeIndex (label prop : string)
| RelIndex (rtype prop : string).

Definition render_schema (s : schema_stmt) : string :=
  match s with
  | UniqueNode label prop =>
      "CREATE CONSTRAINT IF NOT EXISTS FOR (n:`" ++ label
      ++ "`) REQUIRE n.`" ++ prop ++ "` IS UNIQUE;"
  | NodeIndex label prop =>
      "CREATE INDEX IF NOT EXISTS FOR (n:`" ++ label
      ++ "`) ON (n.`" ++ prop ++ "`);"
  | RelIndex rtype prop =>
      "CREATE INDEX IF NOT EXISTS FOR ()-[r:`" ++ rtype
      ++ "`]-() ON (r.`" ++ prop ++ "`);"
  end.

(** The statements of one declaration, and of all of them. *)
Definition schema_of (idx : IndexDecl) : result (list schema_stmt) :=
  match idx_kind idx with
  | None => Ok []
  | Some kind =>
      if String.eqb kind "constraint" then
        label <- require "label" (idx_label idx) ;;
        props <- require "properties" (idx_properties idx) ;;
        p0 <- first_item props ;;
        if get_or (idx_unique idx) false
        then Ok [UniqueNode label p0]
        else Ok [NodeIndex label p0]
      else if String.eqb kind "rel_index" then
        rtype <- require "type" (idx_type idx) ;;
        props <- require "properties" (idx_properties idx) ;;
        p0 <- first_item props ;;
        Ok [RelIndex rtype p0]
      else Ok []
  end.

Fixpoint schema_of_all (runtime_indexes : list IndexDecl)
  : result (list schema_stmt) :=
  match runtime_indexes with
  | [] => Ok []
  | idx :: rest =>
      stmts <- schema_of idx ;;
      more <- schema_of_all rest ;;
      Ok (stmts ++ more)%list
  end.

Definition has_unique (g : graph) (label prop : string) : bool :=
  existsb (fun c => String.eqb (fst c) label && String.eqb (snd c) prop)
          (g_unique g).

(** A schema statement on the database.  A uniqueness constraint that
    is there already is left alone ([IF NOT EXISTS]); a new one is
    refused when the nodes do not meet it, and is in force from then
    on.  An index changes no answer. *)
Definition exec_schema (s : schema_stmt) (g : graph) : outcome graph :=
  match s with
  | UniqueNode label prop =>
      if has_unique g label prop then Done g
      else if unique_holds g (label, prop)
      then Done {| g_nodes := g_nodes g;
                   g_edges := g_edges g;
                   g_next := g_next g;
                   g_unique := (g_unique g ++ [(label, prop)])%list |}
      else Failed ConstraintViolation
  | NodeIndex _ _ => Done g
  | RelIndex _ _ => Done g
  end.

(* ================================================================= *)
(** ** Statement layer: promotion of named edges *)

Definition has_label (g : graph) (i : nat) (label : string) : bool :=
  existsb (fun n => Nat.eqb (n_id n) i && mem label (n_labels n)) (g_nodes g).

Definition coalesce (v default : value) : value :=
  if is_null v then default else v.

(** The value of an [ON CREATE SET] item: [coalesce(r.prop, 'text')],
    with the blanks after its comma, or [datetime()]. *)
Inductive pexpr : Type :=
| PCoalesce (prop gap text : string)
| PDatetime.

(** One item: the property of [x], the blanks before [=] and the
    value. *)
Record on_create : Type := {
  oc_prop : string;
  oc_pad : string;
  oc_value : pexpr
}.

(** [MATCH (a:from)-[r:generic {key:$lid}]->(b:to)
     MERGE (a)-[x:`type`]->(b) ON CREATE SET items]. *)
Record promote_stmt : Type := {
  ps_from : string;
  ps_generic : string;
  ps_key : string;
  ps_to : string;
  ps_type : string;
  ps_on_create : list on_create
}.

Definition render_pexpr (e : pexpr) : string :=
  match e with
  | PCoalesce prop gap text =>
      "coalesce(r." ++ prop ++ "," ++ gap ++ "'" ++ text ++ "')"
  | PDatetime => "datetime()"
  end.

Definition render_on_create (it : on_create) : string :=
  "  x." ++ oc_prop it ++ oc_pad it ++ "= " ++ render_pexpr (oc_value it).

Definition render_promote (st : promote_stmt) : string :=
  "MATCH (a:" ++ ps_from st ++ ")-[r:" ++ ps_generic st
  ++ " {" ++ ps_key st ++ ":$lid}]->(b:" ++ ps_to st ++ ")" ++ nl
  ++ "MERGE (a)-[x:`" ++ ps_type st ++ "`]->(b)" ++ nl
  ++ "ON CREATE SET " ++ join ", " (map render_on_create (ps_on_create st)).

(** The statement of [promote_named_edges] for the type [rtype]. *)
Definition promote_stmt_of (rtype : string) : promote_stmt :=
  {| ps_from := "synset";
     ps_generic := "SYNSET";
     ps_key := "linkid";
     ps_to := "synset";
     ps_type := rtype;
     ps_on_create :=
       [ {| oc_prop := "source_system"; oc_pad := " ";
            oc_value := PCoalesce "source_system" " " "wordnet" |};
         {| oc_prop := "ingest_batch"; oc_pad := "  ";
            oc_value := PCoalesce "ingest_batch" "  " "derived" |};
         {| oc_prop := "ingested_at"; oc_pad := "   ";
            oc_value := PDatetime |} ] |}.

(** The value of an item on the matched edge [r], at the time [now]. *)
Definition eval_pexpr (now : Z) (r : edge) (e : pexpr) : value :=
  match e with
  | PCoalesce prop _ text => coalesce (prop_get (e_props r) prop) (VStr (utext text))
  | PDatetime => VTime now
  end.

(** The [MATCH] pattern holds on [r], with [lid] for [$lid]. *)
Definition matched_by (st : promote_stmt) (lid : value) (g : graph) (r : edge)
  : bool :=
  String.eqb (e_type r) (ps_generic st)
  && value_eqb lid (prop_get (e_props r) (ps_key st))
  && has_label g (e_src r) (ps_from st)
  && has_label g (e_dst r) (ps_to st).

Definition created_props (st : promote_stmt) (now : Z) (r : edge) : props :=
  set_all [] (map (fun it => (oc_prop it, eval_pexpr now r (oc_value it)))
                  (ps_on_create st)).

(** [MERGE (a)-[x:`type`]->(b) ON CREATE SET ...] for one bound [r]. *)
Definition merge_promoted (st : promote_stmt) (now : Z) (g : graph) (r : edge)
  : graph :=
  if existsb (edge_matches (ps_type st) (e_src r) (e_dst r) []) (g_edges g)
  then g
  else add_edge g (ps_type st) (e_src r) (e_dst r) (created_props st now r).

(** The statement on the graph: the edges are matched on the graph as
    it is when the statement starts. *)
Definition exec_promote_stmt (st : promote_stmt) (lid : value) (now : Z)
  (g : graph) : graph :=
  fold_left (merge_promoted st now) (filter (matched_by st lid g) (g_edges g)) g.

(** The statement of one rule, with the discriminator of the rule for
    [$lid]. *)
Definition exec_promote (now : Z) (g : graph) (rule : PromoteRule) : graph :=
  exec_promote_stmt (promote_stmt_of (pr_type rule)) (VInt (pr_linkid rule))
                    now g.

(** The same, read on the statement of the loader:
    [(a:synset)-[r:SYNSET {linkid:$lid}]->(b:synset)] holds on [r]. *)
Definition generic_edge (g : graph) (lid : Z) (r : edge) : bool :=
  String.eqb (e_type r) "SYNSET"
  && value_eqb (VInt lid) (prop_get (e_props r) "linkid")
  && has_label g (e_src r) "synset"
  && has_label g (e_dst r) "synset".

(** The [ON CREATE SET] items, on the generic edge [r]. *)
Definition promoted_props (now : Z) (r : edge) : props :=
  set_all []
    [ ("source_system",
       coalesce (prop_get (e_props r) "source_system") (VStr (utext "wordnet")));
      ("ingest_batch",
       coalesce (prop_get (e_props r) "ingest_batch") (VStr (utext "derived")));
      ("ingested_at", VTime now) ].

Definition promote_edge (rtype : string) (now : Z) (g : graph) (r : edge)
  : graph :=
  if existsb (edge_matches rtype (e_src r) (e_dst r) []) (g_edges g) then g
  else add_edge g rtype (e_src r) (e_dst r) (promoted_props now r).

(** The loop of [promote_named_edges] over the rules; [clock i] is what
    [datetime()] gives in the statement of rule number [i]. *)
Fixpoint promote_from (clock : nat -> Z) (i : nat) (rules : list PromoteRule)
  (g : graph) : graph :=
  match rules with
  | [] => g
  | rule :: rest =>
      promote_from clock (S i) rest (exec_promote (clock i) g rule)
  end.

(** Statements on the graph one after the other, each with the value
    of its parameter [$lid]; [clock i] is what [datetime()] gives in
    statement number [i]. *)
Fixpoint run_promote_stmts (clock : nat -> Z) (i : nat)
  (sent : list (promote_stmt * Z)) (g : graph) : graph :=
  match sent with
  | [] => g
  | (st, lid) :: rest =>
      run_promote_stmts clock (S i) rest
        (exec_promote_stmt st (VInt lid) (clock i) g)
  end.

(** The number of edges of a type from [src] to [dst]. *)
Definition count_edges (rtype : string) (src dst : nat) (g : graph) : nat :=
  length (filter (edge_matches rtype src dst []) (g_edges g)).

(** Whether an edge of the type links the endpoints. *)
Definition linked (rtype : string) (src dst : nat) (g : graph) : bool :=
  existsb (edge_matches rtype src dst []) (g_edges g).

(** [g'] has the nodes of [g] and its edges, in order and unchanged,
    followed by edges that carry no [linkid]. *)
Definition extends (g g' : graph) : Prop :=
  g_nodes g' = g_nodes g
  /\ exists added,
       g_edges g' = (g_edges g ++ added)%list
       /\ Forall (fun e => prop_get (e_props e) "linkid" = VNull) added.

(* ================================================================= *)
(** ** Statement layer: rows in transactions

    [CALL (row) { body } IN TRANSACTIONS OF k ROWS] runs the body on
    the rows in order and commits after every [k] rows and at the end
    of the input.  When a row fails the open transaction is rolled back
    and the statement fails; what was committed stays. *)

Section Transactions.

Variables (R G : Type).
Variable step : R -> G -> outcome G.

(** [filled] rows are in the open transaction, [current] is the state
    it has reached and [committed] the state of the last commit. *)
Fixpoint in_transactions (k : nat) (rows : list R) (committed current : G)
  (filled : nat) : G * option db_error :=
  match rows with
  | [] => (current, None)
  | r :: rest =>
      match step r current with
      | Failed why => (committed, Some why)
      | Done g =>
          if Nat.eqb (S filled) k
          then in_transactions k rest g g 0
          else in_transactions k rest committed g (S filled)
      end
  end.

(** The final state and the error, if any, of the batched statement. *)
Definition run_batched (k : Z) (rows : list R) (g : G) : G * option db_error :=
  if (k <=? 0)%Z then (g, Some InvalidBatchSize)
  else in_transactions (Z.to_nat k) rows g g 0.

(** All the rows in order, with no transaction boundary. *)
Fixpoint run_rows (rows : list R) (g : G) : outcome G :=
  match rows with
  | [] => Done g
  | r :: rest =>
      match step r g with
      | Done g' => run_rows rest g'
      | Failed why => Failed why
      end
  end.

End Transactions.

Arguments in_transactions {R G} step k rows committed current filled.
Arguments run_batched {R G} step k rows g.
Arguments run_rows {R G} step rows g.

(** A batched load as [main] composes it: the text is
    [load_csv_batched url_param (body text) rows]. *)
Inductive load_body : Type :=
| NodeBody (st : node_load)
| RelBody (st : rel_load).

Definition render_body (b : load_body) : string :=
  match b with
  | NodeBody st => render_node_load st
  | RelBody st => render_rel_load st
  end.

Definition exec_body (E : Engine) (b : load_body) (rho : env) (g : graph)
  : outcome graph :=
  match b with
  | NodeBody st => exec_node_load E st rho g
  | RelBody st => exec_rel_load E st rho g
  end.

(** The rows of the file, each with the parameters and the clock of
    the moment it is processed. *)
Definition exec_load (E : Engine) (b : load_body) (batch_rows : Z)
  (rows : list env) (g : graph) : graph * option db_error :=
  run_batched (exec_body E b) batch_rows rows g.

(* ================================================================= *)
(** ** Orchestration layer: documents, collaborators and events *)

(** Values of JSON documents and of the rows the driver returns. *)
Inductive pyval : Type :=
| PNone
| PBool (b : bool)
| PInt (z : Z)
| PFloat (f : SpecFloat.spec_float)
| PStr (s : string)
| POther.

(** A declared source, with [checksum_sha256] and [rows] as the
    mapping or the manifest gives them. *)
Record SourceDecl : Type := {
  src_name : string;
  src_path : string;
  src_checksum : option string;
  src_rows : option Z
}.

Record ManifestFile : Type := {
  mf_name : string;
  mf_sha256 : option string;
  mf_rows : option Z
}.

(** [derived_relationships.promote_named_edges]: absent or empty, or an
    object whose [map] may be missing. *)
Inductive promote_cfg : Type :=
| NoPromotion
| Promotion (rules : option (list PromoteRule)).

Record Mapping : Type := {
  m_version : option string;
  m_sources : list SourceDecl;
  m_nodes : dict NodeSpec;
  m_relationships : dict RelSpec;
  m_promote : promote_cfg;
  m_indexes : list IndexDecl;
  m_source_system : option string;
  m_assertions : list (option string);
  m_load_order : list string
}.

Record Args : Type := {
  a_password : option string;
  a_mapping : string;
  a_base_url : string;
  a_batch_id : option string;
  a_verify_checksums : bool;
  a_verify_rowcounts : bool;
  a_strict_missing_linkid : bool;
  a_preview_null_linkid : bool;
  a_auto_yes_clean_null_linkid : bool;
  a_preview_limit : Z;
  a_batch_rows : Z
}.

(** What the program prints, by the line of [main] that prints it. *)
Inductive message : Type :=
| MsgNoPassword
| MsgMapping (path : string)
| MsgBasePath (base : string)
| MsgPreflight
| MsgSource (name url : string)
| MsgChecksumMismatch (got expected : string)
| MsgChecksumOK
| MsgRowcountMismatch (got expected : Z)
| MsgRowcountOK
| MsgCannotInspect
| MsgMissingLinkid (missing : Z)
| MsgLoadingNodes (key url : string)
| MsgLoadingRels (key url : string)
| MsgPromoting
| MsgSkippingUnknown (item : string)
| MsgNoNullLinkid
| MsgFoundNullLinkid (total limit : Z)
| MsgPreviewRow (sample : dict pyval)
| MsgDeleted (deleted : Z)
| MsgLeaving
| MsgValidationOK (cypher : string)
| MsgValidationFailed (cypher : string) (rows : list (dict pyval))
| MsgValidationResult (rows : list (dict pyval))
| MsgComplete (batch : string).

(** The observable steps of a run, in order. *)
Inductive event : Type :=
| DbRun (cypher : string) (params : dict pyval)
| Stdout (m : message)
| Stderr (m : message)
| Prompt.

(** The collaborators.  The database answers a statement with rows or
    raises; its answer may depend on everything that happened before.
    A request for a source gives its digest, its lines or its text, or
    raises.  [w_csv] is the [csv] reader: the records it yields for a
    text, and [w_csv_raises] tells whether it raises [csv.Error] while
    they are read.  [w_urljoin] is [urllib.parse.urljoin], [w_input] is
    what the operator types and [w_time] is [int(time.time())]. *)
Record World : Type := {
  w_db : list event -> string -> dict pyval -> option (list (dict pyval));
  w_sha256 : string -> option string;
  w_iter_lines : string -> option (list ustring);
  w_text : string -> option ustring;
  w_csv : ustring -> list (list ustring);
  w_csv_raises : ustring -> bool;
  w_urljoin : string -> string -> string;
  w_input : list event -> ustring;
  w_time : Z
}.

(** How a run ends before its last line: [sys.exit(code)] or an
    exception nobody catches. *)
Inductive halt : Type :=
| Exit (code : Z)
| Uncaught (e : exn).

(** A step of the program: from the trace so far to the trace after it
    and either a value or the end of the run. *)
Definition prog (A : Type) : Type := list event -> list event * (A + halt).

Definition ret {A : Type} (a : A) : prog A := fun tr => (tr, inl a).

Definition seq {A B : Type} (m : prog A) (k : A -> prog B) : prog B :=
  fun tr =>
    match m tr with
    | (tr', inl a) => k a tr'
    | (tr', inr h) => (tr', inr h)
    end.

Notation "x <~ m ;; k" := (seq m (fun x => k))
  (at level 61, m at next level, right associativity).
Notation "m ;;; k" := (seq m (fun _ => k))
  (at level 61, right associativity).

Definition emit (ev : event) : prog unit := fun tr => ((tr ++ [ev])%list, inl tt).

Definition print (m : message) : prog unit := emit (Stdout m).

Definition eprint (m : message) : prog unit := emit (Stderr m).

Definition sys_exit {A : Type} (code : Z) : prog A := fun tr => (tr, inr (Exit code)).

Definition throw {A : Type} (e : exn) : prog A := fun tr => (tr, inr (Uncaught e)).

(** A computation of the text layer inside the program. *)
Definition lift {A : Type} (m : result A) : prog A :=
  match m with
  | Ok a => ret a
  | Raise e => throw e
  end.

(** [for x in xs: body(x)]. *)
Fixpoint for_each {A : Type} (xs : list A) (body : A -> prog unit) : prog unit :=
  match xs with
  | [] => ret tt
  | x :: rest => body x ;;; for_each rest body
  end.

(* ================================================================= *)
(** ** Orchestration layer: helpers of [main] *)

Definition is_url (p : string) : bool :=
  String.prefix "http://" p || String.prefix "https://" p.

(** [os.path.basename(path)]. *)
Definition basename (path : string) : string :=
  last (split_on "/" path) EmptyString.

(** [s.rstrip('/')]. *)
Fixpoint rstrip_slash (s : string) : string :=
  match s with
  | EmptyString => EmptyString
  | String c rest =>
      let r := rstrip_slash rest in
      if Ascii.eqb c "/" && String.eqb r EmptyString then EmptyString
      else String c r
  end.

(** [item.split(".", 1)[1]] for an item that has a dot. *)
Fixpoint after_dot (item : string) : string :=
  match item with
  | EmptyString => EmptyString
  | String c rest => if Ascii.eqb c "." then rest else after_dot rest
  end.

(** Python's [str.isspace] on one code point. *)
Definition py_isspace (c : char) : bool :=
  existsb (N.eqb c)
    [9; 10; 11; 12; 13; 28; 29; 30; 31; 32; 133; 160; 5760; 8192; 8193; 8194;
     8195; 8196; 8197; 8198; 8199; 8200; 8201; 8202; 8232; 8233; 8239; 8287;
     12288]%N.

Fixpoint py_lstrip (drop : char -> bool) (s : ustring) : ustring :=
  match s with
  | [] => []
  | c :: rest => if drop c then py_lstrip drop rest else s
  end.

(** [s.strip()]. *)
Definition py_strip (s : ustring) : ustring :=
  rev (py_lstrip py_isspace (rev (py_lstrip py_isspace s))).

(** [s.lstrip(bom)]. *)
Definition lstrip_bom (s : ustring) : ustring := py_lstrip (N.eqb BOM) s.

(** The line boundaries of [str.splitlines]. *)
Definition is_linebreak (c : char) : bool :=
  existsb (N.eqb c) [10; 11; 12; 13; 28; 29; 30; 133; 8232; 8233]%N.

(** [data.splitlines()]; [cur] is the line being read, reversed. *)
Fixpoint splitlines_from (cur : ustring) (data : ustring) : list ustring :=
  match data with
  | [] => match cur with
          | [] => []
          | _ => [rev cur]
          end
  | c :: rest =>
      if is_linebreak c then
        rev cur ::
        match rest with
        | d :: rest' =>
            if N.eqb c 13 && N.eqb d 10 then splitlines_from [] rest'
            else splitlines_from [] rest
        | [] => splitlines_from [] rest
        end
      else splitlines_from (c :: cur) rest
  end.

Definition splitlines (data : ustring) : list ustring := splitlines_from [] data.

(** ["\n".join(lines)]. *)
Fixpoint join_lines (lines : list ustring) : ustring :=
  match lines with
  | [] => []
  | [l] => l
  | l :: rest => (l ++ 10%N :: join_lines rest)%list
  end.

(** One row of [csv.DictReader]: the header names zipped with the cells;
    a name past the last cell holds [None].  Cells past the last name go
    under the key [None], which no string looks up. *)
Fixpoint zip_row (fieldnames cells : list ustring)
  : list (ustring * option ustring) :=
  match fieldnames, cells with
  | [], _ => []
  | name :: names, [] => (name, None) :: zip_row names []
  | name :: names, cell :: rest => (name, Some cell) :: zip_row names rest
  end.

Definition nonempty {A : Type} (xs : list A) : bool :=
  match xs with
  | [] => false
  | _ => true
  end.

(** The rows [csv.DictReader] yields: the first record is the header and
    an empty record is passed over. *)
Definition dict_reader (records : list (list ustring))
  : list (list (ustring * option ustring)) :=
  match records with
  | [] => []
  | fieldnames :: rest => map (zip_row fieldnames) (filter nonempty rest)
  end.

(** [row.get(col) or ""]: of two equal names the later one counts. *)
Definition cell_or_empty (r : list (ustring * option ustring)) (col : ustring)
  : ustring :=
  get_or
    (fold_left (fun acc kv => if ustring_eqb (fst kv) col then snd kv else acc)
               r None)
    [].

(** The test of the loop of [count_missing_col_in_csv] on one row. *)
Definition cell_missing (col : ustring) (r : list (ustring * option ustring))
  : bool :=
  let v := lstrip_bom (py_strip (cell_or_empty r col)) in
  ustring_eqb v [] || ustring_eqb v SENTINEL.

(** The lines the reader is given: the first one without leading marks. *)
Definition csv_input (lines : list ustring) : ustring :=
  match lines with
  | [] => []
  | first :: rest => join_lines (lstrip_bom first :: rest)
  end.

(** [count_missing_col_in_csv] on the text of the source, with the
    [csv] reader it is given. *)
Definition count_missing_in (reader : ustring -> list (list ustring))
  (data : ustring) (col : ustring) : Z :=
  match splitlines data with
  | [] => 0
  | lines =>
      Z.of_nat (length (filter (cell_missing col)
                               (dict_reader (reader (csv_input lines)))))
  end.

(** Whether the [csv] reader raises on what the scan gives it; a text
    with no line is not given to it. *)
Definition scan_raises (raises : ustring -> bool) (data : ustring) : bool :=
  match splitlines data with
  | [] => false
  | lines => raises (csv_input lines)
  end.

(** The records the scan reads: none when the text has no line. *)
Definition scan_records (reader : ustring -> list (list ustring))
  (data : ustring) : list (list ustring) :=
  match splitlines data with
  | [] => []
  | lines => reader (csv_input lines)
  end.

(** The header of the source and its data rows, as the scan sees them. *)
Definition header_of (reader : ustring -> list (list ustring))
  (data : ustring) : list ustring :=
  hd [] (scan_records reader data).

Definition data_rows (reader : ustring -> list (list ustring))
  (data : ustring) : list (list (ustring * option ustring)) :=
  dict_reader (scan_records reader data).

(* ================================================================= *)
(** ** Orchestration layer: [main] *)

Definition count_query : string :=
  "MATCH ()-[r:SYNSET]->() WHERE r.linkid IS NULL RETURN count(r) AS n".

Definition pad12 : string := "            ".

Definition sample_query : string :=
  nl ++ pad12 ++ "MATCH (a:synset)-[r:SYNSET]->(b:synset)" ++ nl
  ++ pad12 ++ "WHERE r.linkid IS NULL" ++ nl
  ++ pad12 ++ "RETURN elementId(r) AS rel_eid," ++ nl
  ++ pad12 ++ "       a.synsetid AS from_id, a.pos AS from_pos, left(a.definition, 120) AS from_def," ++ nl
  ++ pad12 ++ "       b.synsetid AS to_id,   b.pos AS to_pos,   left(b.definition, 120) AS to_def" ++ nl
  ++ pad12 ++ "LIMIT $limit" ++ nl
  ++ pad12.

Definition delete_query : string :=
  nl ++ pad12 ++ "MATCH ()-[r:SYNSET]->()" ++ nl
  ++ pad12 ++ "WHERE r.linkid IS NULL" ++ nl
  ++ pad12 ++ "WITH r LIMIT $chunk" ++ nl
  ++ pad12 ++ "DELETE r" ++ nl
  ++ pad12 ++ "RETURN count(*) AS c" ++ nl
  ++ pad12.

(** [rows[0][field] if rows else 0], for a field that holds a count. *)
Definition first_count (field : string) (rows : list (dict pyval)) : result Z :=
  match rows with
  | [] => Ok 0%Z
  | r :: _ =>
      match lookup field r with
      | None => Raise (KeyError field)
      | Some (PInt z) => Ok z
      | Some (PBool b) => Ok (if b then 1 else 0)%Z
      | Some _ => Raise TypeError
      end
  end.

(** [ok is True or ok == 1]. *)
Definition ok_passes (ok : pyval) : bool :=
  match ok with
  | PBool b => b
  | PInt z => Z.eqb z 1
  | PFloat f => float_eq_int f 1
  | _ => false
  end.

(** [not x] for an optional string: [None] and [""] are false. *)
Definition truthy (o : option string) : bool :=
  match o with
  | Some s => negb (String.eqb s EmptyString)
  | None => false
  end.

(** The last file of the manifest with the name, as the index built by
    the dict comprehension holds it. *)
Definition mani_lookup (files : list ManifestFile) (base : string)
  : option ManifestFile :=
  fold_left (fun acc f => if String.eqb (mf_name f) base then Some f else acc)
            files None.

Definition annotate (files : list ManifestFile) (s : SourceDecl) : SourceDecl :=
  match mani_lookup files (basename (src_path s)) with
  | Some f => {| src_name := src_name s; src_path := src_path s;
                 src_checksum := mf_sha256 f; src_rows := mf_rows f |}
  | None => s
  end.

(** [ans.strip().lower() == "y"]. *)
Definition says_yes (ans : ustring) : bool :=
  let a := py_strip ans in
  ustring_eqb a (utext "y") || ustring_eqb a (utext "Y").

Section Main.

Variable W : World.

(** [Neo.run]: the statement is sent, and the driver returns the rows
    or raises. *)
Definition neo_run (cypher : string) (params : dict pyval)
  : prog (list (dict pyval)) :=
  fun tr =>
    match w_db W tr cypher params with
    | Some rows => ((tr ++ [DbRun cypher params])%list, inl rows)
    | None => ((tr ++ [DbRun cypher params])%list, inr (Uncaught DatabaseError))
    end.

Definition neo_run_void (cypher : string) (params : dict pyval) : prog unit :=
  neo_run cypher params ;;; ret tt.

Definition to_url (base_url path : string) : string :=
  if is_url path then path
  else w_urljoin W (rstrip_slash base_url ++ "/") (basename path).

Definition sha256_of_url (url : string) : prog string :=
  match w_sha256 W url with
  | Some h => ret h
  | None => throw HTTPError
  end.

Definition count_rows_of_url (url : string) : prog Z :=
  match w_iter_lines W url with
  | Some lines => ret (Z.max 0 (Z.of_nat (length lines) - 1))
  | None => throw HTTPError
  end.

(** [None] when the function raises: the request does, or the [csv]
    reader does while the loop reads its rows. *)
Definition count_missing_col_in_csv (url : string) (col : ustring) : option Z :=
  match w_text W url with
  | Some data =>
      if scan_raises (w_csv_raises W) data then None
      else Some (count_missing_in (w_csv W) data col)
  | None => None
  end.

Definition promote_named_edges (mapping : Mapping) : prog unit :=
  match m_promote mapping with
  | NoPromotion => ret tt
  | Promotion rules =>
      rules <~ lift (require "map" rules) ;;
      for_each rules (fun m =>
        neo_run_void (promote_cypher (pr_type m)) [("lid", PInt (pr_linkid m))])
  end.

Definition list_bad_synset_rels (limit : Z) : prog (Z * list (dict pyval)) :=
  total_rows <~ neo_run count_query [] ;;
  total <~ lift (first_count "n" total_rows) ;;
  if (0 <? total)%Z then
    sample <~ neo_run sample_query [("limit", PInt limit)] ;;
    ret (total, sample)
  else ret (total, []).

(** The loop of [clean_bad_synset_rels]; [loops] iterations are left. *)
Fixpoint clean_loop (loops : nat) (chunk total : Z) : prog Z :=
  match loops with
  | O => ret total
  | S n =>
      rows <~ neo_run delete_query [("chunk", PInt chunk)] ;;
      c <~ lift (first_count "c" rows) ;;
      if Z.eqb c 0 then ret (total + c)%Z
      else clean_loop n chunk (total + c)%Z
  end.

Definition clean_bad_synset_rels (chunk : Z) : prog Z :=
  clean_loop 1000 chunk 0%Z.

(** The fields the preview line reads, in the order it reads them. *)
Definition preview_fields : list string :=
  ["rel_eid"; "from_pos"; "from_id"; "from_def"; "to_pos"; "to_id"; "to_def"].

Definition preview_row (sample : dict pyval) : prog unit :=
  for_each preview_fields
    (fun f => lift (require f (lookup f sample)) ;;; ret tt) ;;;
  print (MsgPreviewRow sample).

Definition preview_and_maybe_clean (auto_yes : bool) (preview_limit : Z)
  : prog unit :=
  info <~ list_bad_synset_rels preview_limit ;;
  let (total, sample) := info in
  if Z.eqb total 0 then print MsgNoNullLinkid
  else
    print (MsgFoundNullLinkid total preview_limit) ;;;
    for_each sample preview_row ;;;
    if auto_yes then
      deleted <~ clean_bad_synset_rels 20000 ;;
      print (MsgDeleted deleted)
    else
      emit Prompt ;;;
      (fun tr =>
         (if says_yes (w_input W tr) then
            deleted <~ clean_bad_synset_rels 20000 ;;
            print (MsgDeleted deleted)
          else print MsgLeaving) tr).

(** The three checks of the preflight loop on one source. *)
Definition check_checksum (args : Args) (src : SourceDecl) (url : string)
  : prog unit :=
  if a_verify_checksums args && truthy (src_checksum src) then
    h <~ sha256_of_url url ;;
    let expected := get_or (src_checksum src) EmptyString in
    if negb (String.eqb h expected) then
      eprint (MsgChecksumMismatch h expected) ;;; sys_exit 3
    else print MsgChecksumOK
  else ret tt.

Definition check_rowcount (args : Args) (src : SourceDecl) (url : string)
  : prog unit :=
  match a_verify_rowcounts args, src_rows src with
  | true, Some rows =>
      n <~ count_rows_of_url url ;;
      if negb (Z.eqb n rows) then
        eprint (MsgRowcountMismatch n rows) ;;; sys_exit 4
      else print MsgRowcountOK
  | _, _ => ret tt
  end.

Definition check_linkid (args : Args) (name url : string) : prog unit :=
  if String.eqb name "semlinkref" then
    match count_missing_col_in_csv url (utext "linkid") with
    | None => print MsgCannotInspect
    | Some missing =>
        if (0 <? missing)%Z then
          if a_strict_missing_linkid args then
            eprint (MsgMissingLinkid missing) ;;; sys_exit 6
          else print (MsgMissingLinkid missing)
        else ret tt
    end
  else ret tt.

(** The body of the preflight loop, for one source. *)
Definition preflight_source (args : Args) (src : SourceDecl) : prog unit :=
  let url := to_url (a_base_url args) (src_path src) in
  let name := src_name src in
  print (MsgSource name url) ;;;
  check_checksum args src url ;;;
  check_rowcount args src url ;;;
  check_linkid args name url.

Definition preflight (args : Args) (sources : list SourceDecl) : prog unit :=
  if a_verify_checksums args || a_verify_rowcounts args
     || a_strict_missing_linkid args
  then print MsgPreflight ;;; for_each sources (preflight_source args)
  else ret tt.

Definition url_for_source_name (args : Args) (sources : list SourceDecl)
  (name : string) : result string :=
  match find (fun s => String.eqb (src_name s) name) sources with
  | Some src => Ok (to_url (a_base_url args) (src_path src))
  | None => Raise (RuntimeError name)
  end.

(** The body of the loop over [load_order], for one item. *)
Definition load_item (args : Args) (mapping : Mapping)
  (sources : list SourceDecl) (params_common : dict pyval) (item : string)
  : prog unit :=
  if String.prefix "nodes." item then
    let key := after_dot item in
    spec <~ lift (require key (lookup key (m_nodes mapping))) ;;
    url <~ lift (url_for_source_name args sources (ns_source spec)) ;;
    body <~ lift (build_node_load_body spec) ;;
    let cypher := load_csv_batched "url" body (a_batch_rows args) in
    print (MsgLoadingNodes key url) ;;;
    neo_run_void cypher (params_common ++ [("url", PStr url)])%list
  else if String.prefix "relationships." item then
    let key := after_dot item in
    spec <~ lift (require key (lookup key (m_relationships mapping))) ;;
    url <~ lift (url_for_source_name args sources (rs_source spec)) ;;
    body <~ lift (build_rel_load_body spec) ;;
    let cypher := load_csv_batched "url" body (a_batch_rows args) in
    print (MsgLoadingRels key url) ;;;
    neo_run_void cypher (params_common ++ [("url", PStr url)])%list ;;;
    if String.eqb key "semantic_SYNSET" then
      if a_auto_yes_clean_null_linkid args then
        preview_and_maybe_clean true (a_preview_limit args)
      else if a_preview_null_linkid args then
        preview_and_maybe_clean false (a_preview_limit args)
      else ret tt
    else ret tt
  else if String.prefix "derived_relationships." item then
    print MsgPromoting ;;; promote_named_edges mapping
  else print (MsgSkippingUnknown item).

(** The body of the loop over the graph assertions, for one of them. *)
Definition validate (assertion : option string) : prog unit :=
  cypher <~ lift (require "cypher" assertion) ;;
  rows <~ neo_run cypher [] ;;
  match rows with
  | r0 :: _ =>
      match lookup "ok" r0 with
      | Some ok =>
          if ok_passes ok then print (MsgValidationOK cypher)
          else eprint (MsgValidationFailed cypher rows) ;;; sys_exit 5
      | None => print (MsgValidationResult rows)
      end
  | [] => print (MsgValidationResult rows)
  end.

Definition validations (mapping : Mapping) : prog unit :=
  for_each (m_assertions mapping) validate.

(** The parts of [main], in the order it runs them. *)

(** The password, the mapping that is read and the base name of every
    source. *)
Definition startup (args : Args) (mapping : Mapping) : prog unit :=
  (if truthy (a_password args) then ret tt
   else eprint MsgNoPassword ;;; sys_exit 2) ;;;
  print (MsgMapping (a_mapping args)) ;;;
  for_each (m_sources mapping)
    (fun s => print (MsgBasePath (basename (src_path s)))).

(** [args.batch_id], or the version and the time. *)
Definition batch_id_of (args : Args) (mapping : Mapping) : string :=
  if truthy (a_batch_id args) then get_or (a_batch_id args) EmptyString
  else get_or (m_version mapping) "v" ++ "-" ++ str_of_int (w_time W).

(** The constraint and index statements. *)
Definition create_constraints (mapping : Mapping) : prog unit :=
  stmts <~ lift (build_constraint_cypher (m_indexes mapping)) ;;
  for_each stmts (fun stmt => neo_run_void stmt []).

(** The loop over [load_order]. *)
Definition load_all (args : Args) (mapping : Mapping)
  (sources : list SourceDecl) : prog unit :=
  let params_common :=
    [ ("source_system", PStr (get_or (m_source_system mapping) "wordnet"));
      ("ingest_batch", PStr (batch_id_of args mapping)) ] in
  for_each (m_load_order mapping)
    (load_item args mapping sources params_common).

Definition main (args : Args) (mapping : Mapping) (manifest : list ManifestFile)
  : prog unit :=
  startup args mapping ;;;
  let sources := map (annotate manifest) (m_sources mapping) in
  create_constraints mapping ;;;
  preflight args sources ;;;
  load_all args mapping sources ;;;
  validations mapping ;;;
  print (MsgComplete (batch_id_of args mapping)).

(** What [main] does before the graph assertions. *)
Definition before_validations (args : Args) (mapping : Mapping)
  (manifest : list ManifestFile) : prog unit :=
  startup args mapping ;;;
  let sources := map (annotate manifest) (m_sources mapping) in
  create_constraints mapping ;;;
  preflight args sources ;;;
  load_all args mapping sources.

End Main.

(** The statements sent to the database, in order. *)
Definition db_calls (tr : list event) : list string :=
  flat_map (fun ev => match ev with
                      | DbRun cypher _ => [cypher]
                      | _ => []
                      end) tr.

(** A step that sends nothing to the database. *)
Definition silent {A : Type} (p : prog A) : Prop :=
  forall tr, db_calls (fst (p tr)) = db_calls tr.

(* ================================================================= *)
(** ** Worked data

    An engine for worked examples on ASCII data: [trim()] removes the
    code points up to U+0020, [toLower()] folds the letters A to Z and
    [toInteger()] reads an optional sign followed by decimal digits.
    [toFloat()] reads exactly the strings [toInteger()] reads.  On the
    cells used below (plain integers, words, blanks and byte-order
    marks) this is what the database computes. *)

Definition ascii_space (c : char) : bool := (c <=? 32)%N.

Definition ascii_lower (c : char) : char :=
  if ((65 <=? c) && (c <=? 90))%N then (c + 32)%N else c.

Definition digit_of (c : char) : option Z :=
  if ((48 <=? c) && (c <=? 57))%N then Some (Z.of_N (c - 48)) else None.

Fixpoint read_digits (acc : Z) (s : ustring) : option Z :=
  match s with
  | [] => Some acc
  | c :: rest =>
      match digit_of c with
      | Some d => read_digits (10 * acc + d) rest
      | None => None
      end
  end.

Definition read_int (s : ustring) : option Z :=
  match s with
  | [] => None
  | c :: rest =>
      if N.eqb c 45 then
        match rest with
        | [] => None
        | _ => option_map Z.opp (read_digits 0 rest)
        end
      else if N.eqb c 43 then
        match rest with
        | [] => None
        | _ => read_digits 0 rest
        end
      else read_digits 0 s
  end.

Definition float_of_Z (z : Z) : SpecFloat.spec_float :=
  SpecFloat.binary_normalize 53 1024 z 0 false.

Definition ref_engine : Engine :=
  {| is_space := ascii_space;
     to_lower := map ascii_lower;
     parse_int := read_int;
     parse_float := fun s => option_map float_of_Z (read_int s) |}.

(** An engine is sound when [trim()] keeps the byte-order mark, the
    backslash and the letter N, and the empty string is neither
    case-folded into something nor read as a number. *)
Definition engine_sound (E : Engine) : Prop :=
  is_space E BOM = false
  /\ is_space E 92%N = false
  /\ is_space E 78%N = false
  /\ to_lower E [] = []
  /\ parse_int E [] = None
  /\ parse_float E [] = None.

(** A cell made of blanks and byte-order marks, with one mark at least. *)
Definition blank_with_bom (E : Engine) (raw : ustring) : bool :=
  forallb (fun c => is_space E c || N.eqb c BOM) raw && existsb (N.eqb BOM) raw.

(** [t == "int" or t == "float"] for the type of a field. *)
Definition numeric_type (spec : FieldSpec) : bool :=
  let t := get_or (fs_type spec) "string" in
  String.eqb t "int" || String.eqb t "float".

(** The field specs and the specs of the mapping that
    [buildMetadata.py] writes. *)
Definition field (column type : string) : FieldSpec :=
  {| fs_column := column; fs_type := Some type; fs_transform := None;
     fs_nullable := None |}.

Definition synset_spec : NodeSpec :=
  {| ns_source := "synset"; ns_label := "synset"; ns_key := ["synsetid"];
     ns_mappings :=
       [ ("synsetid", field "synsetid" "int");
         ("pos", {| fs_column := "pos"; fs_type := Some "string";
                    fs_transform := Some ["trim"; "lower"];
                    fs_nullable := None |}) ] |}.

Definition semantic_SYNSET : RelSpec :=
  {| rs_source := "semlinkref"; rs_type := "SYNSET";
     rs_direction := Some "OUT";
     rs_from := {| ep_label := "synset";
                   ep_match_on := ["synsetid1:synsetid"] |};
     rs_to := {| ep_label := "synset";
                 ep_match_on := ["synsetid2:synsetid"] |};
     rs_properties := Some [("linkid", field "linkid" "int")] |}.

(** The same relationship with a [linkid] that declares no type: the
    compiler then takes it as a string. *)
Definition untyped_linkid : FieldSpec :=
  {| fs_column := "linkid"; fs_type := None; fs_transform := None;
     fs_nullable := None |}.

Definition semantic_untyped : RelSpec :=
  {| rs_source := "semlinkref"; rs_type := "SYNSET";
     rs_direction := Some "OUT";
     rs_from := rs_from semantic_SYNSET;
     rs_to := rs_to semantic_SYNSET;
     rs_properties := Some [("linkid", untyped_linkid)] |}.

(** A node keyed on a string column. *)
Definition word_by_lemma : NodeSpec :=
  {| ns_source := "word"; ns_label := "word"; ns_key := ["lemma"];
     ns_mappings :=
       [ ("lemma", {| fs_column := "lemma"; fs_type := None;
                      fs_transform := None; fs_nullable := None |}) ] |}.

Definition env_of (r : row) : env :=
  {| env_row := r;
     env_source_system := VStr (utext "wordnet");
     env_ingest_batch := VStr (utext "b1");
     env_now := 0 |}.

(** Two synsets, 1 and 2, and no edge, under the uniqueness constraint
    of [synsetid]. *)
Definition two_synsets : graph :=
  {| g_nodes :=
       [ {| n_id := 0; n_labels := ["synset"];
            n_props := [("synsetid", VInt 1)] |};
         {| n_id := 1; n_labels := ["synset"];
            n_props := [("synsetid", VInt 2)] |} ];
     g_edges := [];
     g_next := 2;
     g_unique := [("synset", "synsetid")] |}.

Definition link_row (from to linkid : string) : row :=
  [ ("synsetid1", utext from); ("synsetid2", utext to);
    ("linkid", utext linkid) ].

(** [s.split(sep)] on code points. *)
Fixpoint usplit (sep : char) (s : ustring) : list ustring :=
  match s with
  | [] => [[]]
  | c :: rest =>
      if N.eqb c sep then [] :: usplit sep rest
      else match usplit sep rest with
           | [] => [[c]]
           | w :: ws => (c :: w) :: ws
           end
  end.

(** A [csv] reader for files without quotes: a record for each line,
    a cell for each comma-separated part, no cell for an empty line. *)
Definition plain_csv (text : ustring) : list (list ustring) :=
  map (fun line => match line with
                   | [] => []
                   | _ => usplit 44%N line
                   end)
      (usplit 10%N text).

(** A source of links whose header names the discriminator [link]. *)
Definition links_csv : ustring :=
  (utext "synsetid1,synsetid2,link" ++ 10%N :: utext "1,2,7"
   ++ 10%N :: utext "1,2,8")%list.

Definition semlinkref_source : SourceDecl :=
  {| src_name := "semlinkref"; src_path := "semlinkref.csv";
     src_checksum := None; src_rows := None |}.

(** A world where the database returns no row, every source is empty
    and has the digest [def456]. *)
Definition quiet_world : World :=
  {| w_db := fun _ _ _ => Some [];
     w_sha256 := fun _ => Some "def456";
     w_iter_lines := fun _ => Some [];
     w_text := fun _ => Some [];
     w_csv := fun _ => [];
     w_csv_raises := fun _ => false;
     w_urljoin := fun base name => base ++ name;
     w_input := fun _ => [];
     w_time := 0 |}.

(** The same world, where every source is [links_csv]. *)
Definition links_world : World :=
  {| w_db := fun _ _ _ => Some [];
     w_sha256 := fun _ => Some "def456";
     w_iter_lines := fun _ => Some [];
     w_text := fun _ => Some links_csv;
     w_csv := plain_csv;
     w_csv_raises := fun _ => false;
     w_urljoin := fun base name => base ++ name;
     w_input := fun _ => [];
     w_time := 0 |}.

(** The same world again, with a [csv] reader that raises on every
    text after the records it has yielded. *)
Definition unreadable_world : World :=
  {| w_db := fun _ _ _ => Some [];
     w_sha256 := fun _ => Some "def456";
     w_iter_lines := fun _ => Some [];
     w_text := fun _ => Some links_csv;
     w_csv := plain_csv;
     w_csv_raises := fun _ => true;
     w_urljoin := fun base name => base ++ name;
     w_input := fun _ => [];
     w_time := 0 |}.

Definition strict_args : Args :=
  {| a_password := Some "secret";
     a_mapping := "wordnet-3.0.json";
     a_base_url := "https://host/wn";
     a_batch_id := Some "b1";
     a_verify_checksums := false;
     a_verify_rowcounts := false;
     a_strict_missing_linkid := true;
     a_preview_null_linkid := false;
     a_auto_yes_clean_null_linkid := false;
     a_preview_limit := 50;
     a_batch_rows := 10000 |}.

Definition plain_args : Args :=
  {| a_password := Some "secret";
     a_mapping := "wordnet-3.0.json";
     a_base_url := "https://host/wn";
     a_batch_id := Some "b1";
     a_verify_checksums := false;
     a_verify_rowcounts := false;
     a_strict_missing_linkid := false;
     a_preview_null_linkid := false;
     a_auto_yes_clean_null_linkid := false;
     a_preview_limit := 50;
     a_batch_rows := 10000 |}.

Definition checking_args : Args :=
  {| a_password := Some "secret";
     a_mapping := "wordnet-3.0.json";
     a_base_url := "https://host/wn";
     a_batch_id := Some "b1";
     a_verify_checksums := true;
     a_verify_rowcounts := false;
     a_strict_missing_linkid := false;
     a_preview_null_linkid := false;
     a_auto_yes_clean_null_linkid := false;
     a_preview_limit := 50;
     a_batch_rows := 10000 |}.

Definition synset_source : SourceDecl :=
  {| src_name := "synset"; src_path := "synset.csv";
     src_checksum := None; src_rows := None |}.

Definition synset_constraint : IndexDecl :=
  {| idx_kind := Some "constraint"; idx_label := Some "synset";
     idx_type := None; idx_properties := Some ["synsetid"];
     idx_unique := Some true |}.

(** A mapping that loads the synsets, with a [load_order] given apart. *)
Definition mapping_with (load_order : list string) : Mapping :=
  {| m_version := Some "3.0";
     m_sources := [synset_source];
     m_nodes := [("synset", synset_spec)];
     m_relationships := [("semantic_SYNSET", semantic_SYNSET)];
     m_promote :=
       Promotion (Some [{| pr_linkid := 1; pr_type := "HYPERNYM" |}]);
     m_indexes := [synset_constraint];
     m_source_system := Some "wordnet";
     m_assertions := [];
     m_load_order := load_order |}.

(** A mapping whose one source is the file of links. *)
Definition links_mapping : Mapping :=
  {| m_version := Some "3.0";
     m_sources := [semlinkref_source];
     m_nodes := [("synset", synset_spec)];
     m_relationships := [("semantic_SYNSET", semantic_SYNSET)];
     m_promote := NoPromotion;
     m_indexes := [synset_constraint];
     m_source_system := Some "wordnet";
     m_assertions := [];
     m_load_order := ["relationships.semantic_SYNSET"] |}.

(** A graph assertion, the mapping that has it, and a world whose
    database answers it with one row where [ok] is [False]. *)
Definition synsets_exist : string :=
  "MATCH (s:synset) RETURN count(s) > 0 AS ok".

Definition asserting_mapping : Mapping :=
  {| m_version := Some "3.0";
     m_sources := [synset_source];
     m_nodes := [("synset", synset_spec)];
     m_relationships := [("semantic_SYNSET", semantic_SYNSET)];
     m_promote := NoPromotion;
     m_indexes := [synset_constraint];
     m_source_system := Some "wordnet";
     m_assertions := [Some synsets_exist];
     m_load_order := ["nodes.synset"] |}.

Definition failing_world : World :=
  {| w_db := fun _ cypher _ =>
               if String.eqb cypher synsets_exist
               then Some [[("ok", PBool false)]]
               else Some [];
     w_sha256 := fun _ => Some "def456";
     w_iter_lines := fun _ => Some [];
     w_text := fun _ => Some [];
     w_csv := fun _ => [];
     w_csv_raises := fun _ => false;
     w_urljoin := fun base name => base ++ name;
     w_input := fun _ => [];
     w_time := 0 |}.

(** The manifest of the scenario: the declared digest is [abc123]. *)
Definition manifest_abc : list ManifestFile :=
  [{| mf_name := "synset.csv"; mf_sha256 := Some "abc123";
      mf_rows := Some 2%Z |}].

(** Two synsets linked by a generic edge with discriminator 1. *)
Definition linked_synsets : graph :=
  {| g_nodes := g_nodes two_synsets;
     g_edges :=
       [ {| e_id := 2; e_type := "SYNSET"; e_src := 0; e_dst := 1;
            e_props := [("linkid", VInt 1)] |} ];
     g_next := 3;
     g_unique := g_unique two_synsets |}.

(* ================================================================= *)
(** ** Statements of the specification that the code does not meet

    Each one is refuted below on explicit data, next to the statement
    that does hold. *)

(** Sentinel normalization as the specification words it: a cell that
    is the sentinel, empty or a lone byte-order mark compiles to [null]
    for a nullable field and to the empty string for any other. *)
Definition sentinel_normalization_as_specified (E : Engine) : Prop :=
  forall (spec : FieldSpec) (col : string) (rho : env) (raw : ustring),
    row_get (env_row rho) col = Some raw ->
    raw = SENTINEL \/ raw = [] \/ blank_with_bom E raw = true ->
    eval_v E rho (nullable_cast_x (SRow false col) spec)
    = if get_or (fs_nullable spec) false then VNull else VStr [].

(** Discriminator merge uniqueness as the specification words it, for
    any relationship with a [linkid] property: a row that is loaded
    twice leaves one edge. *)
Definition merge_uniqueness_as_specified (E : Engine) : Prop :=
  forall (spec : RelSpec) (st : rel_load) (rho : env) (g g' : graph)
         (src dst : nat) (d : Z),
    rel_load_of spec = Some st ->
    has_key "linkid" (get_or (rs_properties spec) []) = true ->
    wf_graph g ->
    g_edges g = [] ->
    resolves E st g src dst d rho ->
    run_rows (exec_rel_load E st) [rho; rho] g = Done g' ->
    length (g_edges g') = 1.

(* ================================================================= *)
(** ** Reading the skip-guard *)

(** The guard drops the cell: trimmed and then freed of byte-order
    marks it is empty or the sentinel. *)
Definition guard_blank (E : Engine) (cell : ustring) : bool :=
  let v := strip_bom (trim E cell) in
  ustring_eqb v [] || ustring_eqb v SENTINEL.

(** The row has a cell in the column and the guard keeps it. *)
Definition guard_keeps (E : Engine) (r : row) (col : string) : bool :=
  match row_get r col with
  | Some cell => negb (guard_blank E cell)
  | None => false
  end.

(** Batching transparency as the specification words it: for any body,
    any rows and any chunk size from one on, the final graph is the one
    a single chunk of all the rows leaves. *)
Definition batching_transparent_as_specified (E : Engine) : Prop :=
  forall (b : load_body) (rows : list env) (g : graph) (k : Z),
    (1 <= k)%Z ->
    fst (exec_load E b k rows g)
    = fst (exec_load E b (Z.max 1 (Z.of_nat (length rows))) rows g).

(** Whether an entry of [load_order] names something the mapping has. *)
Definition entry_resolves (mapping : Mapping) (item : string) : bool :=
  if String.prefix "nodes." item
  then has_key (after_dot item) (m_nodes mapping)
  else if String.prefix "relationships." item
  then has_key (after_dot item) (m_relationships mapping)
  else if String.prefix "derived_relationships." item
  then String.eqb (after_dot item) "promote_named_edges"
       && match m_promote mapping with
          | Promotion _ => true
          | NoPromotion => false
          end
  else false.

(** The rule on load order as the specification words it: an entry
    that resolves to nothing stops the run before any statement is sent
    to the database. *)
Definition unresolved_entry_fatal_as_specified (W : World) : Prop :=
  forall (args : Args) (mapping : Mapping) (manifest : list ManifestFile)
         (item : string),
    truthy (a_password args) = true ->
    In item (m_load_order mapping) ->
    entry_resolves mapping item = false ->
    exists tr h,
      main W args mapping manifest [] = (tr, inr h) /\ db_calls tr = [].

(* ================================================================= *)
(** ** Reading the builders and the runs

    Measures and predicates used to state what the builders accept,
    what a run sends and how it ends. *)

(** [s.count(c)]. *)
Fixpoint count_char (c : ascii) (s : string) : nat :=
  match s with
  | EmptyString => 0
  | String d rest => (if Ascii.eqb d c then 1 else 0) + count_char c rest
  end.

(** The kinds [build_constraint_cypher] has a branch for. *)
Definition declares (idx : IndexDecl) : bool :=
  match idx_kind idx with
  | Some kind => String.eqb kind "constraint" || String.eqb kind "rel_index"
  | None => false
  end.

(** The string [type_cast] makes of a cell before any [toLower()] or
    conversion: marks removed, trimmed, and the sentinel turned into
    the empty string. *)
Definition normal_form (E : Engine) (raw : ustring) : ustring :=
  let u := trim E (strip_bom raw) in
  if ustring_eqb u SENTINEL then [] else u.

(** A string with no byte-order mark, with nothing for [trim()] to
    remove, and that is not the sentinel. *)
Definition clean_string (E : Engine) (u : ustring) : Prop :=
  strip_bom u = u /\ trim E u = u /\ u <> SENTINEL.

(** A value a field of the declared type may hold: [null], or a value
    of the type; a string that was not case-folded is clean. *)
Definition value_of_field (E : Engine) (spec : FieldSpec) (v : value) : Prop :=
  let t := get_or (fs_type spec) "string" in
  v = VNull
  \/ (if String.eqb t "int" then exists z, v = VInt z
      else if String.eqb t "float" then exists f, v = VFloat f
      else exists u,
             v = VStr u
             /\ (mem "lower" (get_or (fs_transform spec) []) = false ->
                 clean_string E u)).

(** What a load cannot change of a node or an edge. *)
Definition node_frame (n : node) : nat * list string := (n_id n, n_labels n).

Definition edge_frame (e : edge) : nat * string * nat * nat :=
  (e_id e, e_type e, e_src e, e_dst e).

(** Node identifiers are unique and below the next fresh one. *)
Definition wf_nodes (g : graph) : Prop :=
  NoDup (map n_id (g_nodes g))
  /\ Forall (fun n => n_id n < g_next g) (g_nodes g).

(** The number of nodes with the label and the key. *)
Definition count_nodes (label : string) (key : props) (g : graph) : nat :=
  length (filter (node_matches label key) (g_nodes g)).

(** The names of the three provenance properties every load sets. *)
Definition stamp_names : list string :=
  ["source_system"; "ingest_batch"; "ingested_at"].

(** The columns the skip-guard of a relationship load reads. *)
Definition rel_guard_columns (spec : RelSpec) : list string :=
  (map required_col (ep_match_on (rs_from spec) ++ ep_match_on (rs_to spec))
   ++ (if has_key "linkid" (get_or (rs_properties spec) [])
       then ["linkid"] else []))%list.

(** The columns the skip-guard of a node load reads: the column of
    each key field. *)
Definition node_guard_cols (spec : NodeSpec) : option (list string) :=
  collect (fun k => option_map fs_column (lookup k (ns_mappings spec)))
          (ns_key spec).

(** A step whose [sys.exit] codes all pass [ok]. *)
Definition exits_by (ok : Z -> bool) {A : Type} (p : prog A) : Prop :=
  forall tr code, snd (p tr) = inr (Exit code) -> ok code = true.

(** A step that adds events to the trace, all of which pass [P]. *)
Definition emits_only (P : event -> bool) {A : Type} (p : prog A) : Prop :=
  forall tr, exists new, fst (p tr) = (tr ++ new)%list /\ forallb P new = true.

(** What can make [main] leave with each of its exit codes. *)
Definition exit_cause (args : Args) (mapping : Mapping) (code : Z) : bool :=
  (Z.eqb code 2 && negb (truthy (a_password args)))
  || (Z.eqb code 3 && a_verify_checksums args)
  || (Z.eqb code 4 && a_verify_rowcounts args)
  || (Z.eqb code 5 && nonempty (m_assertions mapping))
  || (Z.eqb code 6 && a_strict_missing_linkid args).

(** The check of the digest of a source fails: verification is on, a
    digest is declared and the file has another one. *)
Definition digest_differs (W : World) (args : Args) (src : SourceDecl) : bool :=
  a_verify_checksums args && truthy (src_checksum src)
  && match w_sha256 W (to_url W (a_base_url args) (src_path src)) with
     | Some got => negb (String.eqb got (get_or (src_checksum src) EmptyString))
     | None => false
     end.

(** A statement with the parameter [$chunk]: the [DELETE] of the
    cleanup loop. *)
Definition is_cleanup (ev : event) : bool :=
  match ev with
  | DbRun _ ((k, _) :: _) => String.eqb k "chunk"
  | _ => false
  end.

(** The operator is asked. *)
Definition is_prompt (ev : event) : bool :=
  match ev with
  | Prompt => true
  | _ => false
  end.

(** The event of one round of the cleanup loop. *)
Definition delete_event (chunk : Z) : event :=
  DbRun delete_query [("chunk", PInt chunk)].

(** The lines of a text that follows some characters of a first line. *)
Definition prepend_line (p : ustring) (lines : list ustring) : list ustring :=
  match lines with
  | [] => match p with
          | [] => []
          | _ => [p]
          end
  | l :: ls => (p ++ l)%list :: ls
  end.

(* ================================================================= *)
(** * Properties *)

(** ** The text of the builders is the text of the statements *)

Lemma append_assoc (a b c : string) : (a ++ b) ++ c = a ++ b ++ c.
Proof. induction a as [|x a IH]; cbn; [reflexivity | now rewrite IH]. Qed.

Lemma append_nil_r (a : string) : a ++ "" = a.
Proof. induction a as [|x a IH]; cbn; [reflexivity | now rewrite IH]. Qed.

Ltac str_norm :=
  repeat first [ rewrite !append_assoc | progress cbn [String.append] ].

Lemma type_cast_render (e : sexpr) (spec : FieldSpec) :
  render_v (type_cast_x e spec) = type_cast (render_s e) spec.
Proof.
  unfold type_cast_x, type_cast.
  destruct (mem "lower" (get_or (fs_transform spec) [])),
    (String.eqb (get_or (fs_type spec) "string") "int"),
    (String.eqb (get_or (fs_type spec) "string") "float");
    cbn [render_v render_s render_b]; str_norm; reflexivity.
Qed.

Lemma nullable_cast_render (e : sexpr) (spec : FieldSpec) :
  render_v (nullable_cast_x e spec) = nullable_cast (render_s e) spec.
Proof.
  unfold nullable_cast_x, nullable_cast.
  destruct (get_or (fs_nullable spec) false);
    cbn [render_v render_b render_s]; rewrite ?type_cast_render;
    str_norm; reflexivity.
Qed.

Lemma key_pred_render (col : string) : render_b (key_pred_x col) = key_pred col.
Proof.
  unfold key_pred_x, key_pred, guard_form.
  cbn [render_b render_s]; str_norm; reflexivity.
Qed.

Lemma join_cons (sep x : string) (xs : list string) :
  join sep (x :: xs) = x ++ tail_join sep xs.
Proof.
  unfold join. revert x. induction xs as [|y ys IH]; intros x; cbn.
  - now rewrite append_nil_r.
  - cbn in IH. now rewrite IH.
Qed.

Lemma tail_join_app (sep : string) (xs ys : list string) :
  tail_join sep (xs ++ ys)%list = tail_join sep xs ++ tail_join sep ys.
Proof.
  induction xs as [|x xs IH]; cbn; [reflexivity|].
  rewrite IH. now rewrite !append_assoc.
Qed.

Lemma conj_render (ps : list bexpr) :
  forall p,
    render_b (conj p ps) = render_b p ++ tail_join " AND " (map render_b ps).
Proof.
  unfold conj. induction ps as [|q ps IH]; intros p; cbn [fold_left map tail_join].
  - now rewrite append_nil_r.
  - rewrite IH. cbn [render_b]. now rewrite !append_assoc.
Qed.

Lemma map_key_pred_render (cols : list string) :
  map render_b (map key_pred_x cols) = map key_pred cols.
Proof.
  rewrite map_map. apply map_ext. intros; apply key_pred_render.
Qed.

Lemma collect_traverse {A B C : Type} (f : A -> option B) (h : A -> result C)
  (out : B -> C) (xs : list A) :
  (forall x y, f x = Some y -> h x = Ok (out y)) ->
  forall ys, collect f xs = Some ys -> traverse h xs = Ok (map out ys).
Proof.
  intros Hf. induction xs as [|x xs IH]; cbn; intros ys H.
  - now inversion H.
  - destruct (f x) as [y|] eqn:Hx; [|discriminate].
    destruct (collect f xs) as [ys'|]; [|discriminate].
    inversion H; subst. rewrite (Hf _ _ Hx). cbn. rewrite (IH _ eq_refl). reflexivity.
Qed.

Lemma match_part_render (k : string) (kv : string * vexpr) :
  match_part_x k = Some kv -> match_part k = Ok (render_pat_item kv).
Proof.
  unfold match_part_x, match_part.
  destruct (match_on_pair k) as [[src_col target_prop]|]; cbn; [|discriminate].
  intros H; inversion H; subst. unfold render_pat_item, guard_form.
  cbn [fst snd render_v render_s]. f_equal. str_norm. reflexivity.
Qed.

Lemma match_expr_render (role : string) (spec : EndpointSpec) (p : node_pat) :
  node_pat_of spec = Some p -> match_expr role spec = Ok (render_node_pat role p).
Proof.
  unfold node_pat_of, match_expr.
  destruct (collect match_part_x (ep_match_on spec)) as [parts|] eqn:Hc; [|discriminate].
  intros H; inversion H; subst.
  rewrite (collect_traverse _ _ _ _ match_part_render _ Hc). reflexivity.
Qed.

Lemma rel_setters_render (props : dict FieldSpec) :
  map (render_set "r") (map rel_setter_x props ++ stamps_x)%list
  = (map rel_setter props ++ rel_stamps)%list.
Proof.
  rewrite map_app, map_map. f_equal.
  apply map_ext. intros [prop spec]. unfold rel_setter_x, rel_setter, render_set.
  cbn [si_quoted si_prop si_gap si_value]. rewrite nullable_cast_render.
  cbn [render_s]. str_norm. reflexivity.
Qed.

Lemma linkid_guard_render :
  tail_join " AND " [render_b (key_pred_x "linkid")] = linkid_guard_text.
Proof. reflexivity. Qed.

Lemma linkid_key_render : render_rel_key linkid_key = merge_rel_props_text.
Proof. reflexivity. Qed.

(** The text of [build_rel_load_body] is the statement [rel_load_of]. *)
Lemma rel_load_render (spec : RelSpec) (st : rel_load) :
  rel_load_of spec = Some st ->
  build_rel_load_body spec = Ok (render_rel_load st).
Proof.
  unfold rel_load_of, build_rel_load_body.
  destruct (map required_col (ep_match_on (rs_from spec) ++ ep_match_on (rs_to spec))%list)
    as [|col0 cols] eqn:Hcols; [discriminate|].
  destruct (node_pat_of (rs_from spec)) as [p_from|] eqn:Hf; [|discriminate].
  destruct (node_pat_of (rs_to spec)) as [p_to|] eqn:Ht; [|discriminate].
  intros H; inversion H; subst; clear H.
  rewrite (match_expr_render "from" _ _ Hf), (match_expr_render "to" _ _ Ht).
  cbn [bind]. unfold render_rel_load.
  cbn [rl_guard rl_from rl_to rl_out rl_type rl_key rl_set].
  rewrite rel_setters_render, conj_render. cbn [map]. rewrite join_cons, key_pred_render.
  rewrite map_app, tail_join_app, map_key_pred_render.
  f_equal.
  destruct (has_key "linkid" (get_or (rs_properties spec) []));
    cbn [map]; rewrite ?linkid_guard_render, ?linkid_key_render;
    cbn [tail_join render_rel_key]; rewrite ?append_nil_r, !append_assoc;
    reflexivity.
Qed.

Lemma collect_traverse_keyed {A B C : Type} (f : A -> option B)
  (h : A -> result C) (out : A * B -> C) (xs : list A) :
  (forall x y, f x = Some y -> h x = Ok (out (x, y))) ->
  forall ys, collect f xs = Some ys ->
             traverse h xs = Ok (map out (combine xs ys)).
Proof.
  intros Hf. induction xs as [|x xs IH]; cbn; intros ys H.
  - now inversion H.
  - destruct (f x) as [y|] eqn:Hx; [|discriminate].
    destruct (collect f xs) as [ys'|]; [|discriminate].
    inversion H; subst. rewrite (Hf _ _ Hx). cbn.
    rewrite (IH _ eq_refl). reflexivity.
Qed.

Lemma node_setters_render (key_fields : list string) (mappings : dict FieldSpec) :
  map (render_set "n") (map (node_setter_x key_fields) mappings ++ stamps_x)%list
  = (map (node_setter key_fields) mappings ++ node_stamps)%list.
Proof.
  rewrite map_app, map_map. f_equal.
  apply map_ext. intros [prop spec].
  unfold node_setter_x, node_setter, render_set.
  cbn [si_quoted si_prop si_gap si_value].
  destruct (mem prop key_fields);
    rewrite ?nullable_cast_render, ?type_cast_render;
    cbn [render_s]; str_norm; reflexivity.
Qed.

(** The text of [build_node_load_body] is the statement [node_load_of]. *)
Lemma node_load_render (spec : NodeSpec) (st : node_load) :
  node_load_of spec = Some st ->
  build_node_load_body spec = Ok (render_node_load st).
Proof.
  unfold node_load_of, build_node_load_body.
  destruct (collect (fun k => lookup k (ns_mappings spec)) (ns_key spec))
    as [[|spec0 specs]|] eqn:Hc; try discriminate.
  intros H; inversion H; subst; clear H.
  assert (Hcols :
    traverse (fun k => spec <- mapping_of (ns_mappings spec) k ;;
                       Ok (fs_column spec)) (ns_key spec)
    = Ok (map fs_column (spec0 :: specs))).
  { apply (collect_traverse (fun k => lookup k (ns_mappings spec))); [|exact Hc].
    intros k y Hk. unfold mapping_of. now rewrite Hk. }
  assert (Hitems :
    traverse (fun k => spec <- mapping_of (ns_mappings spec) k ;;
                       Ok (k ++ ": " ++ type_cast ("row." ++ fs_column spec) spec))
             (ns_key spec)
    = Ok (map (fun ks : string * FieldSpec =>
                 fst ks ++ ": "
                 ++ type_cast ("row." ++ fs_column (snd ks)) (snd ks))
              (combine (ns_key spec) (spec0 :: specs)))).
  { apply (collect_traverse_keyed (fun k => lookup k (ns_mappings spec)));
      [|exact Hc].
    intros k y Hk. unfold mapping_of. now rewrite Hk. }
  rewrite Hcols. cbn [bind]. rewrite Hitems.
  cbn [bind]. unfold render_node_load.
  cbn [nl_guard nl_label nl_key nl_set].
  rewrite node_setters_render, conj_render, key_pred_render.
  cbn [map]. rewrite join_cons. rewrite !map_map.
  assert (Hguard :
    map (fun x => render_b (key_pred_x (fs_column x))) specs
    = map (fun x => key_pred (fs_column x)) specs)
    by (apply map_ext; intros s; apply key_pred_render).
  assert (Hkey :
    map (fun x : string * FieldSpec =>
           render_key_item
             (fst x, type_cast_x (SRow false (fs_column (snd x))) (snd x)))
        (combine (ns_key spec) (spec0 :: specs))
    = map (fun ks : string * FieldSpec =>
             fst ks ++ ": "
             ++ type_cast ("row." ++ fs_column (snd ks)) (snd ks))
          (combine (ns_key spec) (spec0 :: specs))).
  { apply map_ext. intros [k s]. unfold render_key_item.
    cbn [fst snd]. now rewrite type_cast_render. }
  rewrite Hguard, Hkey, !append_assoc. reflexivity.
Qed.

(** ** Constraint and index statements *)

Lemma constraint_stmts_first_only (idx : IndexDecl) :
  constraint_stmts (keep_first_property idx) = constraint_stmts idx.
Proof.
  unfold constraint_stmts, keep_first_property; cbn.
  destruct (idx_kind idx) as [kind|]; [|reflexivity].
  destruct (String.eqb kind "constraint"), (String.eqb kind "rel_index");
    try reflexivity;
    destruct (idx_label idx), (idx_type idx), (idx_properties idx) as [[|p ps]|];
    reflexivity.
Qed.

Lemma build_constraint_cypher_app (pre post : list IndexDecl) :
  build_constraint_cypher (pre ++ post)
  = (before <- build_constraint_cypher pre ;;
     after <- build_constraint_cypher post ;;
     Ok (before ++ after)%list).
Proof.
  induction pre as [|idx pre IH]; cbn [app build_constraint_cypher bind].
  - now destruct (build_constraint_cypher post).
  - destruct (constraint_stmts idx) as [stmts|e]; cbn [bind]; [|reflexivity].
    rewrite IH. destruct (build_constraint_cypher pre) as [before|e];
      cbn [bind]; [|reflexivity].
    destruct (build_constraint_cypher post) as [after|e]; cbn [bind];
      [|reflexivity].
    now rewrite app_assoc.
Qed.

(** The statements of a list of declarations around one of them. *)
Lemma build_constraint_cypher_at (pre post : list IndexDecl) (idx : IndexDecl)
  (before after stmts : list string) :
  build_constraint_cypher pre = Ok before ->
  build_constraint_cypher post = Ok after ->
  constraint_stmts idx = Ok stmts ->
  build_constraint_cypher (pre ++ idx :: post)
  = Ok (before ++ stmts ++ after)%list.
Proof.
  intros Hpre Hpost Hidx. rewrite build_constraint_cypher_app, Hpre.
  cbn [bind build_constraint_cypher]. now rewrite Hidx, Hpost.
Qed.

(** The text of the statements is the text of the schema statements. *)
Lemma constraint_stmts_render (idx : IndexDecl) :
  constraint_stmts idx
  = (stmts <- schema_of idx ;; Ok (map render_schema stmts)).
Proof.
  unfold constraint_stmts, schema_of.
  destruct (idx_kind idx) as [kind|]; [|reflexivity].
  destruct (String.eqb kind "constraint").
  - destruct (idx_label idx) as [label|]; [|reflexivity].
    destruct (idx_properties idx) as [[|p0 more]|]; try reflexivity.
    cbn [require first_item bind]. now destruct (get_or (idx_unique idx) false).
  - destruct (String.eqb kind "rel_index"); [|reflexivity].
    destruct (idx_type idx) as [rtype|]; [|reflexivity].
    now destruct (idx_properties idx) as [[|p0 more]|].
Qed.

Lemma build_constraint_cypher_render (runtime_indexes : list IndexDecl) :
  build_constraint_cypher runtime_indexes
  = (stmts <- schema_of_all runtime_indexes ;; Ok (map render_schema stmts)).
Proof.
  induction runtime_indexes as [|idx rest IH];
    cbn [build_constraint_cypher schema_of_all bind]; [reflexivity|].
  rewrite constraint_stmts_render, IH.
  destruct (schema_of idx) as [stmts|e]; cbn [bind]; [|reflexivity].
  destruct (schema_of_all rest) as [more|e]; cbn [bind]; [|reflexivity].
  now rewrite map_app.
Qed.

(** A schema statement writes no node and no edge. *)
Lemma exec_schema_frame (s : schema_stmt) (g g' : graph) :
  exec_schema s g = Done g' ->
  g_nodes g' = g_nodes g /\ g_edges g' = g_edges g.
Proof.
  destruct s as [label prop|label prop|rtype prop]; cbn [exec_schema];
    try (intros H; inversion H; now subst).
  destruct (has_unique g label prop); [intros H; inversion H; now subst|].
  destruct (unique_holds g (label, prop)); [|discriminate].
  intros H; inversion H; now subst.
Qed.

(** C9.  A declaration whose [properties] are [p0] and more contributes
    one statement, in its place among the statements of the other
    declarations, and the statement names [p0] and none of the others:
    for a [constraint] with [unique], the uniqueness constraint of
    [p0] on the label; for a [constraint] without it, the index of
    [p0] on the label; for a [rel_index], the index of [p0] on the
    relationship type.  So dropping every entry after the first one of
    every declaration gives the same statements, and the same exception
    when there is one. *)
Theorem constraint_uses_first_property_only
  (pre post : list IndexDecl) (idx : IndexDecl) (name p0 : string)
  (more : list string) (before after : list string) :
  idx_properties idx = Some (p0 :: more) ->
  build_constraint_cypher pre = Ok before ->
  build_constraint_cypher post = Ok after ->
  let built := build_constraint_cypher (pre ++ idx :: post) in
  (idx_kind idx = Some "constraint" ->
   idx_label idx = Some name ->
   get_or (idx_unique idx) false = true ->
   built
   = Ok (before
         ++ [("CREATE CONSTRAINT IF NOT EXISTS FOR (n:`" ++ name
              ++ "`) REQUIRE n.`" ++ p0 ++ "` IS UNIQUE;")%string]
         ++ after)%list)
  /\ (idx_kind idx = Some "constraint" ->
      idx_label idx = Some name ->
      get_or (idx_unique idx) false = false ->
      built
      = Ok (before
            ++ [("CREATE INDEX IF NOT EXISTS FOR (n:`" ++ name
                 ++ "`) ON (n.`" ++ p0 ++ "`);")%string]
            ++ after)%list)
  /\ (idx_kind idx = Some "rel_index" ->
      idx_type idx = Some name ->
      built
      = Ok (before
            ++ [("CREATE INDEX IF NOT EXISTS FOR ()-[r:`" ++ name
                 ++ "`]-() ON (r.`" ++ p0 ++ "`);")%string]
            ++ after)%list)
  /\ (forall runtime_indexes,
        build_constraint_cypher (map keep_first_property runtime_indexes)
        = build_constraint_cypher runtime_indexes).
Proof.
  intros Hprops Hpre Hpost. cbn zeta. repeat split.
  - intros Hkind Hname Huniq.
    apply build_constraint_cypher_at; try assumption.
    unfold constraint_stmts. rewrite Hkind, Hname, Hprops. cbn. now rewrite Huniq.
  - intros Hkind Hname Huniq.
    apply build_constraint_cypher_at; try assumption.
    unfold constraint_stmts. rewrite Hkind, Hname, Hprops. cbn. now rewrite Huniq.
  - intros Hkind Hname.
    apply build_constraint_cypher_at; try assumption.
    unfold constraint_stmts. now rewrite Hkind, Hname, Hprops.
  - induction runtime_indexes as [|i rest IH];
      cbn [map build_constraint_cypher]; [reflexivity|].
    now rewrite constraint_stmts_first_only, IH.
Qed.

(** A uniqueness constraint declared on [synsetid] and [pos] is
    created on [synsetid] alone, between the index statements of the
    declarations around it. *)
Lemma constraint_uses_first_property_only_witness :
  build_constraint_cypher
    [ {| idx_kind := Some "rel_index"; idx_label := None;
         idx_type := Some "SYNSET"; idx_properties := Some ["linkid"];
         idx_unique := None |};
      {| idx_kind := Some "constraint"; idx_label := Some "synset";
         idx_type := None; idx_properties := Some ["synsetid"; "pos"];
         idx_unique := Some true |};
      {| idx_kind := Some "constraint"; idx_label := Some "word";
         idx_type := None; idx_properties := Some ["lemma"; "wordid"];
         idx_unique := None |} ]
  = Ok [ "CREATE INDEX IF NOT EXISTS FOR ()-[r:`SYNSET`]-() ON (r.`linkid`);";
         "CREATE CONSTRAINT IF NOT EXISTS FOR (n:`synset`) REQUIRE n.`synsetid` IS UNIQUE;";
         "CREATE INDEX IF NOT EXISTS FOR (n:`word`) ON (n.`lemma`);" ].
Proof.
  exact (proj1 (constraint_uses_first_property_only
                  [ {| idx_kind := Some "rel_index"; idx_label := None;
                       idx_type := Some "SYNSET";
                       idx_properties := Some ["linkid"];
                       idx_unique := None |} ]
                  [ {| idx_kind := Some "constraint"; idx_label := Some "word";
                       idx_type := None;
                       idx_properties := Some ["lemma"; "wordid"];
                       idx_unique := None |} ]
                  {| idx_kind := Some "constraint"; idx_label := Some "synset";
                     idx_type := None;
                     idx_properties := Some ["synsetid"; "pos"];
                     idx_unique := Some true |}
                  "synset" "synsetid" ["pos"]
                  ["CREATE INDEX IF NOT EXISTS FOR ()-[r:`SYNSET`]-() ON (r.`linkid`);"]
                  ["CREATE INDEX IF NOT EXISTS FOR (n:`word`) ON (n.`lemma`);"]
                  eq_refl eq_refl eq_refl)
               eq_refl eq_refl eq_refl).
Defined.

(** ** Expression compiler *)

Section ExpressionFacts.

Variable E : Engine.
Hypothesis sound : engine_sound E.

Lemma ltrim_spaces (s : ustring) :
  forallb (is_space E) s = true -> ltrim E s = [].
Proof.
  induction s as [|c s IH]; cbn; [reflexivity|].
  intros H; apply andb_prop in H as [Hc Hs]. now rewrite Hc, IH.
Qed.

Lemma trim_spaces (s : ustring) :
  forallb (is_space E) s = true -> trim E s = [].
Proof.
  intros H. unfold trim, rtrim. rewrite (ltrim_spaces s H). reflexivity.
Qed.

End ExpressionFacts.

Section ExpressionFacts2.

Variable E : Engine.
Hypothesis sound : engine_sound E.

Lemma strip_bom_blank (raw : ustring) :
  forallb (fun c => is_space E c || N.eqb c BOM) raw = true ->
  forallb (is_space E) (strip_bom raw) = true.
Proof.
  unfold strip_bom.
  induction raw as [|c raw IH]; cbn [forallb filter]; [reflexivity|].
  intros H; apply andb_prop in H as [Hc Hs].
  destruct (N.eqb c BOM) eqn:Hb; cbn [negb forallb].
  - now apply IH.
  - rewrite orb_false_r in Hc. now rewrite Hc, IH.
Qed.

Lemma trim_sentinel : trim E (strip_bom SENTINEL) = SENTINEL.
Proof.
  destruct sound as (_ & Hb & Hn & _).
  cbv [SENTINEL strip_bom filter BOM N.eqb negb Pos.eqb trim rtrim].
  cbn. rewrite Hb. cbn. rewrite Hn. reflexivity.
Qed.

(** The first two steps of [type_cast] turn each of the three kinds of
    cell into the empty string. *)
Lemma normal_form_empty (r : row) (col : string) (raw : ustring) :
  row_get r col = Some raw ->
  raw = SENTINEL \/ raw = [] \/ blank_with_bom E raw = true ->
  let e1 := STrim (SStripBom true (SRow false col)) in
  eval_s E r (SCase (BEq e1 SSentinel) SEmpty e1) = Some [].
Proof.
  intros Hraw Hkind; cbn [eval_s eval_b]. rewrite Hraw; cbn [option_map].
  destruct Hkind as [-> | [-> | Hblank]].
  - rewrite trim_sentinel. reflexivity.
  - reflexivity.
  - apply andb_prop in Hblank as [Hall _].
    rewrite (trim_spaces E _ (strip_bom_blank raw Hall)). reflexivity.
Qed.

End ExpressionFacts2.

(** C3.  For a cell that is the sentinel or empty, the expression of
    [nullable_cast] is [null] when the field is nullable.  For a field
    that is not nullable, and a cell that is the sentinel, empty or
    made of blanks and byte-order marks, it is [null] when the type is
    [int] or [float] and the empty string otherwise.  The expression is
    the one whose text [nullable_cast] returns. *)
Theorem sentinel_normalization
  (E : Engine) (spec : FieldSpec) (col : string) (rho : env) (raw : ustring) :
  engine_sound E ->
  row_get (env_row rho) col = Some raw ->
  raw = SENTINEL \/ raw = []
  \/ (get_or (fs_nullable spec) false = false /\ blank_with_bom E raw = true) ->
  render_v (nullable_cast_x (SRow false col) spec)
  = nullable_cast ("row." ++ col) spec
  /\ eval_v E rho (nullable_cast_x (SRow false col) spec)
     = if get_or (fs_nullable spec) false then VNull
       else if numeric_type spec then VNull
       else VStr [].
Proof.
  intros sound Hraw Hkind. split; [apply nullable_cast_render|].
  unfold nullable_cast_x.
  destruct (get_or (fs_nullable spec) false) eqn:Hnull.
  - cbn [eval_v eval_b eval_s]. rewrite Hraw.
    destruct Hkind as [-> | [-> | [Hcontra _]]]; [reflexivity | reflexivity | discriminate].
  - assert (Hk : raw = SENTINEL \/ raw = [] \/ blank_with_bom E raw = true)
      by (destruct Hkind as [H | [H | [_ H]]]; auto).
    pose proof (normal_form_empty E sound _ _ _ Hraw Hk) as Hnf.
    destruct sound as (_ & _ & _ & Hlow & Hint & Hflt).
    cbn zeta in Hnf. unfold type_cast_x, numeric_type.
    set (e2 := SCase _ SEmpty _) in *.
    assert (He3 : eval_s E (env_row rho)
                    (if mem "lower" (get_or (fs_transform spec) [])
                     then SLower e2 else e2) = Some []).
    { destruct (mem "lower" (get_or (fs_transform spec) [])); [|exact Hnf].
      change (option_map (to_lower E) (eval_s E (env_row rho) e2) = Some []).
      rewrite Hnf. cbn. now rewrite Hlow. }
    destruct (String.eqb (get_or (fs_type spec) "string") "int"),
      (String.eqb (get_or (fs_type spec) "string") "float");
      cbn [eval_v orb]; rewrite He3; cbn [of_option];
      rewrite ?Hint, ?Hflt; reflexivity.
Qed.

Lemma ref_engine_sound : engine_sound ref_engine.
Proof. repeat split. Qed.

Lemma sentinel_normalization_witness :
  eval_v ref_engine (env_of [("pos", [32; 65279; 32]%N)])
         (nullable_cast_x (SRow false "pos") (field "pos" "string"))
  = VStr [].
Proof.
  refine (proj2 (sentinel_normalization ref_engine (field "pos" "string") "pos"
            (env_of [("pos", [32; 65279; 32]%N)]) [32; 65279; 32]%N
            ref_engine_sound eq_refl _)).
  right; right; split; reflexivity.
Defined.

Lemma sentinel_normalization_fails :
  ~ sentinel_normalization_as_specified ref_engine.
Proof.
  intros claim.
  specialize (claim (field "synsetid" "int") "synsetid"
                    (env_of [("synsetid", [])]) [] eq_refl
                    (or_intror (or_introl eq_refl))).
  discriminate claim.
Qed.

(** A write that the constraints let pass leaves what was written. *)
Lemma checked_done (g g' : graph) : checked g = Done g' -> g' = g.
Proof.
  unfold checked. destruct (constraints_hold g); [|discriminate].
  intros H. now inversion H.
Qed.

(** ** The skip-guard *)

Section GuardFacts.

Variable E : Engine.

Lemma key_pred_eval (r : row) (col : string) :
  eval_b E r (key_pred_x col)
  = match row_get r col with
    | Some cell => Some (negb (guard_blank E cell))
    | None => None
    end.
Proof.
  unfold key_pred_x, guard_form, guard_blank. cbn [eval_b eval_s].
  destruct (row_get r col) as [cell|]; cbn [option_map]; [|reflexivity].
  destruct (ustring_eqb (strip_bom (trim E cell)) SENTINEL) eqn:Hs.
  - cbn. now rewrite orb_true_r.
  - cbn. now rewrite orb_false_r.
Qed.

Lemma key_pred_true (r : row) (col : string) :
  eval_b E r (key_pred_x col) = Some true <-> guard_keeps E r col = true.
Proof.
  rewrite key_pred_eval. unfold guard_keeps.
  destruct (row_get r col) as [cell|]; [|split; discriminate].
  destruct (guard_blank E cell); cbn; split; congruence.
Qed.

Lemma and3_true (a b : option bool) :
  and3 a b = Some true <-> a = Some true /\ b = Some true.
Proof. destruct a as [[]|], b as [[]|]; cbn; intuition congruence. Qed.

Lemma conj_true (r : row) (ps : list bexpr) :
  forall p,
    eval_b E r (conj p ps) = Some true
    <-> eval_b E r p = Some true
        /\ Forall (fun q => eval_b E r q = Some true) ps.
Proof.
  unfold conj. induction ps as [|q ps IH]; intros p; cbn [fold_left].
  - split; [intros H; split; [exact H | constructor] | now intros [H _]].
  - rewrite IH. cbn [eval_b]. rewrite and3_true. split.
    + intros [[Hp Hq] Hps]. split; [exact Hp | now constructor].
    + intros [Hp Hall]. inversion Hall; subst. now repeat split.
Qed.

(** The guard of a list of columns is true exactly when it keeps the
    cell of every column. *)
Lemma guard_true (r : row) (col : string) (cols : list string) :
  eval_b E r (conj (key_pred_x col) (map key_pred_x cols)) = Some true
  <-> forallb (guard_keeps E r) (col :: cols) = true.
Proof.
  rewrite conj_true, key_pred_true. cbn [forallb].
  rewrite andb_true_iff, forallb_forall, Forall_forall. split.
  - intros [Hc Hall]. split; [exact Hc|]. intros c Hin.
    apply key_pred_true, Hall, in_map, Hin.
  - intros [Hc Hall]. split; [exact Hc|]. intros q Hin.
    apply in_map_iff in Hin as (c & <- & Hin). apply key_pred_true, Hall, Hin.
Qed.

End GuardFacts.

Lemma collect_map {A B C : Type} (f : A -> option B) (h : B -> C)
  (xs : list A) :
  collect (fun x => option_map h (f x)) xs = option_map (map h) (collect f xs).
Proof.
  induction xs as [|x xs IH]; cbn; [reflexivity|].
  rewrite IH. destruct (f x), (collect f xs); reflexivity.
Qed.

(** The columns the guard of a node load reads. *)
Lemma node_guard_columns (spec : NodeSpec) (st : node_load) :
  node_load_of spec = Some st ->
  exists col cols,
    collect (fun k => option_map fs_column (lookup k (ns_mappings spec)))
            (ns_key spec) = Some (col :: cols)
    /\ nl_guard st = conj (key_pred_x col) (map key_pred_x cols).
Proof.
  unfold node_load_of.
  destruct (collect (fun k => lookup k (ns_mappings spec)) (ns_key spec))
    as [[|spec0 specs]|] eqn:Hc; try discriminate.
  intros H; inversion H; subst; clear H. cbn [nl_guard].
  exists (fs_column spec0), (map fs_column specs). split.
  - rewrite collect_map, Hc. reflexivity.
  - now rewrite map_map.
Qed.

(** A row of a node load that the guard does not keep leaves the graph
    as it is; the guard keeps a row exactly when it keeps the cell of
    every key column. *)
Lemma node_load_guard (E : Engine) (spec : NodeSpec) (st : node_load)
  (rho : env) (g : graph) :
  node_load_of spec = Some st ->
  exists col cols,
    collect (fun k => option_map fs_column (lookup k (ns_mappings spec)))
            (ns_key spec) = Some (col :: cols)
    /\ (eval_b E (env_row rho) (nl_guard st) = Some true
        <-> forallb (guard_keeps E (env_row rho)) (col :: cols) = true)
    /\ (forallb (guard_keeps E (env_row rho)) (col :: cols) = false ->
        exec_node_load E st rho g = Done g).
Proof.
  intros Hst. destruct (node_guard_columns spec st Hst) as (col & cols & Hc & Hg).
  exists col, cols. split; [exact Hc|]. rewrite Hg. split; [apply guard_true|].
  intros Hskip. unfold exec_node_load. rewrite Hg.
  destruct (eval_b E (env_row rho) (conj (key_pred_x col) (map key_pred_x cols)))
    as [[|]|] eqn:He; try reflexivity.
  apply guard_true in He. congruence.
Qed.

(** The same for a relationship load: the guard reads the endpoint
    columns and, when the relationship has a [linkid], that column. *)
Lemma rel_load_guard (E : Engine) (spec : RelSpec) (st : rel_load)
  (rho : env) (g : graph) :
  rel_load_of spec = Some st ->
  let cols :=
    (map required_col (ep_match_on (rs_from spec) ++ ep_match_on (rs_to spec))
     ++ (if has_key "linkid" (get_or (rs_properties spec) [])
         then ["linkid"] else []))%list in
  (eval_b E (env_row rho) (rl_guard st) = Some true
   <-> forallb (guard_keeps E (env_row rho)) cols = true)
  /\ (forallb (guard_keeps E (env_row rho)) cols = false ->
      exec_rel_load E st rho g = Done g).
Proof.
  intros Hst cols. unfold rel_load_of in Hst.
  destruct (map required_col
              (ep_match_on (rs_from spec) ++ ep_match_on (rs_to spec))%list)
    as [|col0 rest] eqn:Hcols; [discriminate|].
  destruct (node_pat_of (rs_from spec)); [|discriminate].
  destruct (node_pat_of (rs_to spec)); [|discriminate].
  inversion Hst; subst; clear Hst.
  assert (Hg : forall r,
             eval_b E r (conj (key_pred_x col0)
                           (map key_pred_x rest
                            ++ (if has_key "linkid" (get_or (rs_properties spec) [])
                                then [key_pred_x "linkid"] else []))%list)
             = Some true
             <-> forallb (guard_keeps E r) cols = true).
  { intros r. subst cols.
    replace (map key_pred_x rest
             ++ (if has_key "linkid" (get_or (rs_properties spec) [])
                 then [key_pred_x "linkid"] else []))%list
      with (map key_pred_x
              (rest ++ (if has_key "linkid" (get_or (rs_properties spec) [])
                        then ["linkid"] else []))%list)
      by (rewrite map_app; destruct (has_key _ _); reflexivity).
    rewrite guard_true. reflexivity. }
  split; [apply Hg|].
  intros Hskip. unfold exec_rel_load. cbn [rl_guard].
  destruct (eval_b E (env_row rho) _) as [[|]|] eqn:He; try reflexivity.
  apply Hg in He. congruence.
Qed.

(** C2.  The cell made of a byte-order mark, a blank and a byte-order
    mark: the key expression of [type_cast], which removes the marks and
    then trims, makes it the empty string, but the skip-guard, which
    trims and then removes the marks, keeps the row, and the load
    creates a node whose key is the empty string. *)
Theorem skip_guard_keeps_blank_between_marks :
  exists st g',
    node_load_of word_by_lemma = Some st
    /\ eval_props ref_engine (env_of [("lemma", [BOM; 32%N; BOM])]) (nl_key st)
       = [("lemma", VStr [])]
    /\ guard_keeps ref_engine [("lemma", [BOM; 32%N; BOM])] "lemma" = true
    /\ exec_node_load ref_engine st (env_of [("lemma", [BOM; 32%N; BOM])])
                      empty_graph = Done g'
    /\ map n_labels (g_nodes g') = [["word"]]
    /\ map (fun n => prop_get (n_props n) "lemma") (g_nodes g') = [VStr []].
Proof.
  eexists. eexists. repeat split.
Qed.

(** ** Properties of an entity *)

Lemma prop_get_put (ps : props) (k k' : string) (v : value) :
  prop_get (prop_put ps k v) k' = if String.eqb k' k then v else prop_get ps k'.
Proof.
  induction ps as [|[k0 v0] ps IH]; cbn.
  - destruct (String.eqb k' k); reflexivity.
  - destruct (String.eqb k k0) eqn:Hk; cbn.
    + apply String.eqb_eq in Hk; subst k0.
      destruct (String.eqb k' k); reflexivity.
    + destruct (String.eqb k' k0) eqn:Hk0.
      * apply String.eqb_eq in Hk0; subst k0.
        rewrite String.eqb_sym, Hk. reflexivity.
      * exact IH.
Qed.

Lemma prop_get_del (ps : props) (k k' : string) :
  prop_get (prop_del ps k) k' = if String.eqb k' k then VNull else prop_get ps k'.
Proof.
  unfold prop_del. induction ps as [|[k0 v0] ps IH]; cbn.
  - destruct (String.eqb k' k); reflexivity.
  - destruct (String.eqb k k0) eqn:Hk; cbn.
    + apply String.eqb_eq in Hk; subst k0. rewrite IH.
      destruct (String.eqb k' k); reflexivity.
    + rewrite IH. destruct (String.eqb k' k0) eqn:Hk0; [|reflexivity].
      apply String.eqb_eq in Hk0; subst k0.
      rewrite String.eqb_sym, Hk. reflexivity.
Qed.

Lemma prop_get_set (ps : props) (kv : string * value) (k' : string) :
  prop_get (prop_set ps kv) k'
  = if String.eqb k' (fst kv) then snd kv else prop_get ps k'.
Proof.
  unfold prop_set. destruct kv as [k v]; cbn [fst snd].
  destruct v; cbn [is_null]; rewrite ?prop_get_put, ?prop_get_del; reflexivity.
Qed.

Lemma assigned_from (assigns : list (string * value)) (k : string) :
  forall (acc : option value) (old : value),
    get_or (fold_left (fun acc kv => if String.eqb k (fst kv)
                                     then Some (snd kv) else acc) assigns acc) old
    = get_or (assigned assigns k) (get_or acc old).
Proof.
  unfold assigned. induction assigns as [|kv assigns IH]; intros acc old; cbn [fold_left].
  - reflexivity.
  - rewrite IH. rewrite (IH (if String.eqb k (fst kv) then Some (snd kv) else None)).
    destruct (String.eqb k (fst kv)); reflexivity.
Qed.

(** After a [SET] clause a property holds what the clause assigned to
    it last, and what it held before when the clause does not name it. *)
Lemma prop_get_set_all (assigns : list (string * value)) (k : string) :
  forall ps : props,
    prop_get (set_all ps assigns) k
    = get_or (assigned assigns k) (prop_get ps k).
Proof.
  unfold set_all. induction assigns as [|kv assigns IH]; intros ps; cbn [fold_left].
  - reflexivity.
  - rewrite IH, prop_get_set. unfold assigned at 2. cbn [fold_left].
    rewrite assigned_from. destruct (String.eqb k (fst kv)); reflexivity.
Qed.

(** ** Equality of a property with an integer *)

Lemma float_eq_int_inj (f : SpecFloat.spec_float) (d d' : Z) :
  float_eq_int f d = true -> float_eq_int f d' = true -> d = d'.
Proof.
  unfold float_eq_int. destruct f as [s| s | |s m e]; try discriminate.
  - intros H H'. apply Z.eqb_eq in H, H'. congruence.
  - destruct (0 <=? e)%Z eqn:He; intros H H'; apply Z.eqb_eq in H, H'.
    + congruence.
    + apply Z.leb_gt in He.
      assert (Hp : (2 ^ (- e) <> 0)%Z) by (apply Z.pow_nonzero; lia).
      apply (Z.mul_reg_r _ _ _ Hp). congruence.
Qed.

Lemma value_eqb_int_inj (v : value) (d d' : Z) :
  value_eqb (VInt d) v = true -> value_eqb (VInt d') v = true -> d = d'.
Proof.
  destruct v; cbn; try discriminate.
  - intros H H'. apply Z.eqb_eq in H, H'. congruence.
  - apply float_eq_int_inj.
Qed.

(** ** Identifiers *)

Lemma id_in_iff (i : nat) (ids : list nat) : id_in i ids = true <-> In i ids.
Proof.
  unfold id_in. rewrite existsb_exists. split.
  - intros (j & Hin & Hj). apply Nat.eqb_eq in Hj. now subst.
  - intros Hin. exists i. split; [exact Hin | apply Nat.eqb_refl].
Qed.

Lemma NoDup_map_eq {A B : Type} (f : A -> B) (l : list A) (x y : A) :
  NoDup (map f l) -> In x l -> In y l -> f x = f y -> x = y.
Proof.
  induction l as [|a l IH]; cbn; [contradiction|].
  intros Hnd Hx Hy Hf. inversion Hnd as [|? ? Hnotin Hnd']; subst.
  destruct Hx as [-> | Hx], Hy as [-> | Hy]; auto.
  - exfalso. apply Hnotin. rewrite Hf. now apply in_map.
  - exfalso. apply Hnotin. rewrite <- Hf. now apply in_map.
Qed.

(** On a graph with unique identifiers, the identifiers of the edges a
    pattern selects select those edges again. *)
Lemma bound_ids (P : edge -> bool) (l : list edge) (e : edge) :
  NoDup (map e_id l) -> In e l ->
  id_in (e_id e) (map e_id (filter P l)) = P e.
Proof.
  intros Hnd Hin. destruct (P e) eqn:HP.
  - apply id_in_iff, in_map, filter_In. now split.
  - destruct (id_in (e_id e) (map e_id (filter P l))) eqn:Hid; [|reflexivity].
    apply id_in_iff, in_map_iff in Hid as (f & Hf & Hfin).
    apply filter_In in Hfin as [Hfl HPf].
    rewrite (NoDup_map_eq e_id l f e Hnd Hfl Hin Hf) in HPf. congruence.
Qed.

Lemma filter_map_length {A B : Type} (P : B -> bool) (f : A -> B) (l : list A) :
  length (filter P (map f l)) = length (filter (fun x => P (f x)) l).
Proof.
  induction l as [|a l IH]; cbn; [reflexivity|].
  destruct (P (f a)); cbn; now rewrite IH.
Qed.

Lemma filter_length_ext {A : Type} (P Q : A -> bool) (l : list A) :
  (forall x, In x l -> P x = Q x) ->
  length (filter P l) = length (filter Q l).
Proof.
  intros H. now rewrite (filter_ext_in P Q l H).
Qed.

(** ** One row of a relationship load *)

Section RelStep.

Variable E : Engine.
Variable st : rel_load.

Lemma edge_matches_link (src dst : nat) (d : Z) (e : edge) :
  edge_matches (rl_type st) src dst [("linkid", VInt d)] e
  = String.eqb (e_type e) (rl_type st) && Nat.eqb (e_src e) src
    && Nat.eqb (e_dst e) dst
    && value_eqb (VInt d) (prop_get (e_props e) "linkid").
Proof.
  unfold edge_matches, props_match. cbn. now rewrite andb_true_r.
Qed.

Lemma endpoint_pairs_nodes (rho : env) (g g' : graph) :
  g_nodes g' = g_nodes g -> endpoint_pairs E st rho g' = endpoint_pairs E st rho g.
Proof.
  intros H. unfold endpoint_pairs, match_nodes. now rewrite H.
Qed.

Lemma rel_step (g : graph) (src dst : nat) (d : Z) (rho : env) :
  wf_graph g ->
  resolves E st g src dst d rho ->
  writes_back E st d rho ->
  exists g',
    exec_rel_load E st rho g = Done g'
    /\ g_nodes g' = g_nodes g
    /\ wf_graph g'
    /\ (forall d',
          count_linked (rl_type st) src dst d' g'
          = if Z.eqb d' d
            then Nat.max 1 (count_linked (rl_type st) src dst d g)
            else count_linked (rl_type st) src dst d' g)
    /\ length (g_edges g')
       = length (g_edges g)
         + (if Nat.eqb (count_linked (rl_type st) src dst d g) 0 then 1 else 0).
Proof.
  intros [Hnd Hlt] (Hguard & Hpairs & Hkey) Hset.
  unfold exec_rel_load. rewrite Hguard, Hpairs, Hkey.
  cbn [has_null existsb snd is_null orb fold_left merge_edge].
  unfold count_linked.
  set (assigns := eval_set E rho (rl_set st)).
  assert (Hlink : forall ps, prop_get (set_all ps assigns) "linkid" = VInt d).
  { intros ps. rewrite prop_get_set_all. unfold writes_back in Hset.
    fold assigns in Hset. now rewrite Hset. }
  destruct (filter (edge_matches (rl_type st) src dst [("linkid", VInt d)]) (g_edges g))
    as [|f fs] eqn:Hfound.
  - (* no edge carries the discriminator: one is created *)
    eexists. split; [reflexivity|].
    cbn [app length Nat.eqb Nat.max].
    assert (Hold : map (fun e : edge =>
                          if id_in (e_id e) [g_next g]
                          then {| e_id := e_id e; e_type := e_type e;
                                  e_src := e_src e; e_dst := e_dst e;
                                  e_props := set_all (e_props e) assigns |}
                          else e) (g_edges g) = g_edges g).
    { rewrite <- (map_id (g_edges g)) at 2. apply map_ext_in. intros e Hin.
      rewrite Forall_forall in Hlt. specialize (Hlt e Hin).
      destruct (id_in (e_id e) [g_next g]) eqn:Hid; [|reflexivity].
      apply id_in_iff in Hid. destruct Hid as [Hid | []]. lia. }
    assert (Hself : id_in (g_next g) [g_next g] = true)
      by (apply id_in_iff; now left).
    unfold wf_graph.
    cbn [set_on_edges add_edge g_nodes g_edges g_next].
    rewrite !(map_app _ (g_edges g)), Hold. cbn [map e_id]. rewrite Hself.
    split; [reflexivity|]. split; [split|split].
    + rewrite map_app. cbn [map e_id].
      rewrite Forall_forall in Hlt.
      apply NoDup_app; [exact Hnd | repeat constructor; intros [] | ].
      intros i Hi [Hi' | []]. subst i.
      apply in_map_iff in Hi as (e & He & Hin). specialize (Hlt e Hin). lia.
    + apply Forall_app. split.
      * eapply Forall_impl; [|exact Hlt]. cbn. intros; lia.
      * constructor; [cbn; lia | constructor].
    + intros d'. rewrite filter_app, length_app. cbn [filter].
      rewrite edge_matches_link. cbn [e_type e_src e_dst e_props].
      rewrite String.eqb_refl, !Nat.eqb_refl, Hlink. cbn [andb value_eqb].
      destruct (Z.eqb d' d) eqn:Hd; cbn [length].
      * apply Z.eqb_eq in Hd; subst d'. rewrite Hfound.
        reflexivity.
      * lia.
    + rewrite length_app. reflexivity.
  - (* some edges carry it: they are bound and set *)
    eexists. split; [reflexivity|].
    cbn [app].
    set (upd := fun e : edge =>
                  if id_in (e_id e) (map e_id (f :: fs))
                  then {| e_id := e_id e; e_type := e_type e;
                          e_src := e_src e; e_dst := e_dst e;
                          e_props := set_all (e_props e) assigns |}
                  else e).
    assert (Hid : forall e, e_id (upd e) = e_id e)
      by (intros e; unfold upd; destruct (id_in _ _); reflexivity).
    assert (Hids : map e_id (map upd (g_edges g)) = map e_id (g_edges g))
      by (rewrite map_map; apply map_ext; exact Hid).
    unfold wf_graph. cbn [set_on_edges g_nodes g_edges g_next]. fold upd.
    split; [reflexivity|]. split; [split|split].
    + now rewrite Hids.
    + apply Forall_map. eapply Forall_impl; [|exact Hlt].
      intros e He. cbn. now rewrite Hid.
    + intros d'. rewrite filter_map_length.
      assert (Hupd : forall e, In e (g_edges g) ->
                edge_matches (rl_type st) src dst [("linkid", VInt d')] (upd e)
                = if Z.eqb d' d
                  then edge_matches (rl_type st) src dst [("linkid", VInt d)] e
                  else edge_matches (rl_type st) src dst [("linkid", VInt d')] e).
      { intros e Hin. unfold upd. rewrite <- Hfound.
        rewrite (bound_ids _ _ _ Hnd Hin).
        destruct (edge_matches (rl_type st) src dst [("linkid", VInt d)] e) eqn:Hm.
        - rewrite edge_matches_link in Hm |- *.
          cbn [e_type e_src e_dst e_props]. rewrite Hlink.
          apply andb_prop in Hm as [Hm Hv]. rewrite Hm. cbn [andb value_eqb].
          destruct (Z.eqb d' d) eqn:Hd; [reflexivity|].
          rewrite edge_matches_link, Hm. cbn [andb].
          destruct (value_eqb (VInt d') (prop_get (e_props e) "linkid")) eqn:Hv';
            [|reflexivity].
          rewrite (value_eqb_int_inj _ _ _ Hv' Hv), Z.eqb_refl in Hd.
          discriminate.
        - destruct (Z.eqb d' d) eqn:Hd; [|reflexivity].
          apply Z.eqb_eq in Hd; subst d'. exact Hm. }
      rewrite (filter_length_ext _ _ _ Hupd).
      destruct (Z.eqb d' d) eqn:Hd; [|reflexivity].
      change (length (filter (edge_matches (rl_type st) src dst
                                [("linkid", VInt d)]) (g_edges g))
              = Nat.max 1 (length (f :: fs))).
      rewrite Hfound. cbn [length]. lia.
    + rewrite length_map. cbn [length Nat.eqb]. lia.
Qed.

End RelStep.

(** ** Rows of a relationship load, one after the other *)

Section RelRows.

Variable E : Engine.
Variable st : rel_load.
Variables (src dst : nat).

(** The rows all resolve to the endpoints [src] and [dst] of [g0]; each
    comes with its discriminator. *)
Lemma rel_rows (g0 : graph) (rows : list (env * Z)) :
  Forall (fun r => resolves E st g0 src dst (snd r) (fst r)
                   /\ writes_back E st (snd r) (fst r)) rows ->
  forall g,
    g_nodes g = g_nodes g0 ->
    wf_graph g ->
    exists g',
      run_rows (exec_rel_load E st) (map fst rows) g = Done g'
      /\ forall d,
           count_linked (rl_type st) src dst d g'
           = if existsb (Z.eqb d) (map snd rows)
             then Nat.max 1 (count_linked (rl_type st) src dst d g)
             else count_linked (rl_type st) src dst d g.
Proof.
  induction 1 as [|[rho d0] rows [Hres Hset] _ IH]; intros g Hnodes Hwf.
  - exists g. split; [reflexivity|]. intros d. reflexivity.
  - cbn [fst snd] in Hres, Hset.
    assert (Hres' : resolves E st g src dst d0 rho).
    { destruct Hres as (Hg & Hp & Hk). repeat split; try assumption.
      now rewrite (endpoint_pairs_nodes E st rho g0 g Hnodes). }
    destruct (rel_step E st g src dst d0 rho Hwf Hres' Hset)
      as (g1 & Hrun & Hn1 & Hwf1 & Hcount1 & _).
    destruct (IH g1 (eq_trans Hn1 Hnodes) Hwf1) as (g' & Hrest & Hcount).
    exists g'. split.
    + cbn [map fst run_rows]. now rewrite Hrun.
    + intros d. rewrite Hcount, Hcount1. cbn [map snd existsb].
      destruct (Z.eqb d d0) eqn:Hd; cbn [orb].
      * apply Z.eqb_eq in Hd; subst d0.
        destruct (existsb (Z.eqb d) (map snd rows)); lia.
      * reflexivity.
Qed.

End RelRows.

(** C1.  For a relationship whose properties include [linkid], on a
    graph with unique identifiers, and for rows that pass the
    skip-guard, find exactly one node for each endpoint, carry an
    integer discriminator and have the [SET] clause write that integer
    back: the discriminator is a property of the [MERGE] pattern of the
    text that [build_rel_load_body] returns; two rows with different
    discriminators leave an edge for each; and rows with one and the
    same discriminator, however many, leave exactly one edge when there
    was none, and as many as there were otherwise. *)
Theorem discriminator_merge_uniqueness
  (E : Engine) (spec : RelSpec) (st : rel_load) (g : graph) (src dst : nat) :
  rel_load_of spec = Some st ->
  has_key "linkid" (get_or (rs_properties spec) []) = true ->
  wf_graph g ->
  (build_rel_load_body spec = Ok (render_rel_load st)
   /\ rl_key st = linkid_key)
  /\ (forall (rho1 rho2 : env) (d1 d2 : Z),
        resolves E st g src dst d1 rho1 -> writes_back E st d1 rho1 ->
        resolves E st g src dst d2 rho2 -> writes_back E st d2 rho2 ->
        d1 <> d2 ->
        exists g',
          run_rows (exec_rel_load E st) [rho1; rho2] g = Done g'
          /\ count_linked (rs_type spec) src dst d1 g'
             = Nat.max 1 (count_linked (rs_type spec) src dst d1 g)
          /\ count_linked (rs_type spec) src dst d2 g'
             = Nat.max 1 (count_linked (rs_type spec) src dst d2 g))
  /\ (forall (rhos : list env) (d : Z),
        rhos <> [] ->
        Forall (fun rho => resolves E st g src dst d rho
                           /\ writes_back E st d rho) rhos ->
        exists g',
          run_rows (exec_rel_load E st) rhos g = Done g'
          /\ count_linked (rs_type spec) src dst d g'
             = Nat.max 1 (count_linked (rs_type spec) src dst d g)).
Proof.
  intros Hst Hlinked Hwf.
  assert (Htype : rl_type st = rs_type spec /\ rl_key st = linkid_key).
  { unfold rel_load_of in Hst. rewrite Hlinked in Hst.
    destruct (map required_col _); [discriminate|].
    destruct (node_pat_of (rs_from spec)); [|discriminate].
    destruct (node_pat_of (rs_to spec)); [|discriminate].
    inversion Hst; subst. split; reflexivity. }
  destruct Htype as [Htype Hkey]. rewrite <- Htype.
  split; [split; [now apply rel_load_render | exact Hkey]|]. split.
  - intros rho1 rho2 d1 d2 Hr1 Hs1 Hr2 Hs2 Hneq.
    destruct (rel_rows E st src dst g [(rho1, d1); (rho2, d2)]) with (g := g)
      as (g' & Hrun & Hcount);
      [ constructor; [split; assumption | constructor; [split; assumption | constructor]]
      | reflexivity | exact Hwf |].
    exists g'. split; [exact Hrun|]. rewrite !Hcount. cbn [map snd existsb].
    rewrite !Z.eqb_refl, orb_true_r. cbn [orb]. split; reflexivity.
  - intros rhos d Hne Hall.
    destruct (rel_rows E st src dst g (map (fun rho => (rho, d)) rhos))
      with (g := g) as (g' & Hrun & Hcount).
    + apply Forall_map. exact Hall.
    + reflexivity.
    + exact Hwf.
    + rewrite map_map, map_id in Hrun. exists g'. split; [exact Hrun|].
      rewrite Hcount. destruct rhos as [|rho rhos]; [contradiction|].
      cbn [map snd existsb]. now rewrite Z.eqb_refl.
Qed.

Lemma two_synsets_wf : wf_graph two_synsets.
Proof. split; constructor. Qed.

Lemma discriminator_merge_uniqueness_witness :
  exists st g',
    rel_load_of semantic_SYNSET = Some st
    /\ run_rows (exec_rel_load ref_engine st)
                [env_of (link_row "1" "2" "7"); env_of (link_row "1" "2" "8")]
                two_synsets = Done g'
    /\ count_linked "SYNSET" 0 1 7 g' = 1
    /\ count_linked "SYNSET" 0 1 8 g' = 1.
Proof.
  let v := eval vm_compute in (rel_load_of semantic_SYNSET) in
  match v with Some ?s => pose (st := s) end.
  destruct (discriminator_merge_uniqueness ref_engine semantic_SYNSET st
              two_synsets 0 1 eq_refl eq_refl two_synsets_wf)
    as (_ & Hdiff & _).
  destruct (Hdiff (env_of (link_row "1" "2" "7")) (env_of (link_row "1" "2" "8"))
                  7%Z 8%Z)
    as (g' & Hrun & H7 & H8).
  - repeat split; reflexivity.
  - reflexivity.
  - repeat split; reflexivity.
  - reflexivity.
  - discriminate.
  - exists st, g'. repeat split; assumption.
Defined.

(** A [linkid] that declares no type is set as a string after the
    [MERGE] has keyed the edge on the integer, so the same row loaded
    again finds no edge to match and creates a second one. *)
Lemma merge_uniqueness_fails :
  ~ merge_uniqueness_as_specified ref_engine.
Proof.
  intros claim.
  let v := eval vm_compute in (rel_load_of semantic_untyped) in
  match v with Some ?s => pose (st := s) end.
  let v := eval vm_compute in
      (run_rows (exec_rel_load ref_engine st)
                [env_of (link_row "1" "2" "7"); env_of (link_row "1" "2" "7")]
                two_synsets) in
  match v with Done ?g => pose (g' := g) end.
  specialize (claim semantic_untyped st (env_of (link_row "1" "2" "7"))
                    two_synsets g' 0 1 7%Z eq_refl eq_refl two_synsets_wf eq_refl).
  assert (Hres : resolves ref_engine st two_synsets 0 1 7
                          (env_of (link_row "1" "2" "7")))
    by (repeat split; reflexivity).
  specialize (claim Hres eq_refl). discriminate claim.
Qed.

(** ** Promotion of named edges *)

(** The text [promote_named_edges] sends is the text of the statement
    of the type. *)
Lemma promote_cypher_render (rtype : string) :
  promote_cypher rtype = render_promote (promote_stmt_of rtype).
Proof. reflexivity. Qed.

(** The statement of a rule, read on the text of the loader: every
    generic edge with the discriminator of the rule, between two
    synsets, is merged with an edge of the type of the rule. *)
Lemma exec_promote_reads (now : Z) (g : graph) (rule : PromoteRule) :
  exec_promote now g rule
  = fold_left (promote_edge (pr_type rule) now)
              (filter (generic_edge g (pr_linkid rule)) (g_edges g)) g.
Proof. reflexivity. Qed.

Lemma extends_refl (g : graph) : extends g g.
Proof.
  split; [reflexivity|]. exists []. split; [now rewrite app_nil_r | constructor].
Qed.

Lemma extends_trans (g1 g2 g3 : graph) :
  extends g1 g2 -> extends g2 g3 -> extends g1 g3.
Proof.
  intros (Hn1 & a1 & He1 & Ha1) (Hn2 & a2 & He2 & Ha2).
  split; [congruence|]. exists (a1 ++ a2)%list. split.
  - now rewrite He2, He1, app_assoc.
  - apply Forall_app. now split.
Qed.

Lemma promoted_props_no_linkid (now : Z) (r : edge) :
  prop_get (promoted_props now r) "linkid" = VNull.
Proof. unfold promoted_props. now rewrite prop_get_set_all. Qed.

Lemma promote_edge_extends (rtype : string) (now : Z) (g : graph) (r : edge) :
  extends g (promote_edge rtype now g r).
Proof.
  unfold promote_edge.
  destruct (existsb _ (g_edges g)); [apply extends_refl|].
  split; [reflexivity|]. eexists. split; [reflexivity|].
  constructor; [apply promoted_props_no_linkid | constructor].
Qed.

Lemma promote_edges_extends (rtype : string) (now : Z) (rs : list edge) :
  forall g, extends g (fold_left (promote_edge rtype now) rs g).
Proof.
  induction rs as [|r rs IH]; intros g; cbn [fold_left].
  - apply extends_refl.
  - eapply extends_trans; [apply promote_edge_extends | apply IH].
Qed.

Lemma exec_promote_extends (now : Z) (g : graph) (rule : PromoteRule) :
  extends g (exec_promote now g rule).
Proof. apply promote_edges_extends. Qed.

Lemma promote_from_extends (clock : nat -> Z) (rules : list PromoteRule) :
  forall i g, extends g (promote_from clock i rules g).
Proof.
  induction rules as [|rule rules IH]; intros i g; cbn [promote_from].
  - apply extends_refl.
  - eapply extends_trans; [apply exec_promote_extends | apply IH].
Qed.

(** The generic edges of a rule are the same before and after. *)
Lemma generic_edges_stable (g g' : graph) (lid : Z) :
  extends g g' ->
  filter (generic_edge g' lid) (g_edges g')
  = filter (generic_edge g lid) (g_edges g).
Proof.
  intros (Hn & added & He & Hadded). rewrite He, filter_app.
  assert (Hsame : forall e, generic_edge g' lid e = generic_edge g lid e)
    by (intros e; unfold generic_edge, has_label; now rewrite Hn).
  rewrite !(filter_ext _ _ Hsame).
  replace (filter (generic_edge g lid) added) with (@nil edge);
    [now rewrite app_nil_r|].
  symmetry. clear He. induction Hadded as [|e added Hnone _ IH]; [reflexivity|].
  cbn [filter]. unfold generic_edge at 1. rewrite Hnone. cbn [value_eqb].
  rewrite andb_false_r. cbn [andb]. exact IH.
Qed.

Lemma linked_count (rtype : string) (src dst : nat) (g : graph) :
  linked rtype src dst g = negb (Nat.eqb (count_edges rtype src dst g) 0).
Proof.
  unfold linked, count_edges.
  induction (g_edges g) as [|e es IH]; cbn; [reflexivity|].
  destruct (edge_matches rtype src dst [] e); cbn; [reflexivity | exact IH].
Qed.

Lemma linked_extends (rtype : string) (src dst : nat) (g g' : graph) :
  extends g g' -> linked rtype src dst g = true -> linked rtype src dst g' = true.
Proof.
  intros (_ & added & He & _) H. unfold linked in *.
  rewrite He, existsb_app, H. reflexivity.
Qed.

(** One [MERGE]: the count of a type between two endpoints grows by
    one where there was none for the merged pattern, and stays as it
    is otherwise. *)
Lemma promote_edge_count (rtype : string) (now : Z) (g : graph) (r : edge)
  (t : string) (src dst : nat) :
  let g' := promote_edge rtype now g r in
  count_edges t src dst g <= count_edges t src dst g'
  /\ count_edges t src dst g' <= Nat.max 1 (count_edges t src dst g).
Proof.
  cbn zeta. unfold promote_edge.
  destruct (existsb (edge_matches rtype (e_src r) (e_dst r) []) (g_edges g))
    eqn:Hex; [lia|].
  unfold count_edges. cbn [add_edge g_edges].
  rewrite filter_app, length_app. cbn [filter].
  destruct (edge_matches t src dst [] _) eqn:Hm; cbn [length]; [|lia].
  unfold edge_matches in Hm. cbn [e_type e_src e_dst props_match forallb] in Hm.
  rewrite andb_true_r in Hm.
  apply andb_prop in Hm as [Hm Hd]. apply andb_prop in Hm as [Ht Hs].
  apply String.eqb_eq in Ht. apply Nat.eqb_eq in Hs, Hd. subst t src dst.
  pose proof (linked_count rtype (e_src r) (e_dst r) g) as Hl.
  unfold linked in Hl. rewrite Hex in Hl. unfold count_edges in Hl.
  destruct (length (filter (edge_matches rtype (e_src r) (e_dst r) []) (g_edges g)));
    [lia | discriminate].
Qed.

Lemma promote_edges_count (rtype : string) (now : Z) (rs : list edge)
  (t : string) (src dst : nat) :
  forall g,
    let g' := fold_left (promote_edge rtype now) rs g in
    count_edges t src dst g <= count_edges t src dst g'
    /\ count_edges t src dst g' <= Nat.max 1 (count_edges t src dst g).
Proof.
  induction rs as [|r rs IH]; intros g; cbn [fold_left]; cbn zeta.
  - lia.
  - pose proof (promote_edge_count rtype now g r t src dst) as H1.
    pose proof (IH (promote_edge rtype now g r)) as H2. cbn zeta in H1, H2. lia.
Qed.

Lemma promote_from_count (clock : nat -> Z) (rules : list PromoteRule)
  (t : string) (src dst : nat) :
  forall i g,
    let g' := promote_from clock i rules g in
    count_edges t src dst g <= count_edges t src dst g'
    /\ count_edges t src dst g' <= Nat.max 1 (count_edges t src dst g).
Proof.
  induction rules as [|rule rules IH]; intros i g; cbn [promote_from]; cbn zeta.
  - lia.
  - pose proof (promote_edges_count (pr_type rule) (clock i)
                  (filter (generic_edge g (pr_linkid rule)) (g_edges g))
                  t src dst g) as H1.
    pose proof (IH (S i) (exec_promote (clock i) g rule)) as H2.
    cbn zeta in H1, H2. rewrite exec_promote_reads in *. lia.
Qed.

(** After the statement of a rule every generic edge it matched has an
    edge of the mapped type beside it. *)
Lemma promote_edges_linked (rtype : string) (now : Z) (rs : list edge) :
  forall g r,
    In r rs ->
    linked rtype (e_src r) (e_dst r) (fold_left (promote_edge rtype now) rs g)
    = true.
Proof.
  induction rs as [|r0 rs IH]; intros g r Hin; [contradiction|].
  cbn [fold_left]. destruct Hin as [-> | Hin]; [|now apply IH].
  apply (linked_extends _ _ _ (promote_edge rtype now g r));
    [apply promote_edges_extends|].
  unfold promote_edge, linked.
  destruct (existsb (edge_matches rtype (e_src r) (e_dst r) []) (g_edges g))
    eqn:Hex; [exact Hex|].
  cbn [add_edge g_edges]. rewrite existsb_app. cbn [existsb].
  unfold edge_matches at 2. cbn [e_type e_src e_dst props_match forallb].
  now rewrite String.eqb_refl, !Nat.eqb_refl, orb_true_r.
Qed.

Lemma promote_from_linked (clock : nat -> Z) (rules : list PromoteRule) :
  forall i g0 g rule r,
    extends g0 g ->
    In rule rules ->
    In r (g_edges g0) ->
    generic_edge g0 (pr_linkid rule) r = true ->
    linked (pr_type rule) (e_src r) (e_dst r) (promote_from clock i rules g)
    = true.
Proof.
  induction rules as [|rule0 rules IH]; intros i g0 g rule r Hext Hrule Hr Hgen;
    [contradiction|].
  cbn [promote_from]. destruct Hrule as [-> | Hrule].
  - apply (linked_extends _ _ _ (exec_promote (clock i) g rule));
      [apply promote_from_extends|].
    rewrite exec_promote_reads. apply promote_edges_linked.
    rewrite (generic_edges_stable g0 g _ Hext). apply filter_In. now split.
  - apply (IH (S i) g0); try assumption.
    eapply extends_trans; [exact Hext | apply exec_promote_extends].
Qed.

(** A statement whose matches are all linked already changes nothing. *)
Lemma promote_edges_fixed (rtype : string) (now : Z) (g : graph)
  (rs : list edge) :
  Forall (fun r => linked rtype (e_src r) (e_dst r) g = true) rs ->
  fold_left (promote_edge rtype now) rs g = g.
Proof.
  induction 1 as [|r rs Hr _ IH]; cbn [fold_left]; [reflexivity|].
  unfold promote_edge at 2. unfold linked in Hr. rewrite Hr. exact IH.
Qed.

Lemma promote_from_fixed (clock : nat -> Z) (rules : list PromoteRule)
  (g : graph) :
  (forall rule r, In rule rules -> In r (g_edges g) ->
                  generic_edge g (pr_linkid rule) r = true ->
                  linked (pr_type rule) (e_src r) (e_dst r) g = true) ->
  forall i, promote_from clock i rules g = g.
Proof.
  induction rules as [|rule rules IH]; intros Hall i; cbn [promote_from];
    [reflexivity|].
  assert (Hfix : exec_promote (clock i) g rule = g).
  { apply promote_edges_fixed, Forall_forall. intros r Hin.
    apply filter_In in Hin as [Hin Hgen]. apply (Hall rule r); auto. now left. }
  rewrite Hfix. apply IH. intros rule' r Hrule. apply Hall. now right.
Qed.

Lemma promote_from_stmts (clock : nat -> Z) (rules : list PromoteRule) :
  forall i g,
    promote_from clock i rules g
    = run_promote_stmts clock i
        (map (fun m => (promote_stmt_of (pr_type m), pr_linkid m)) rules) g.
Proof.
  induction rules as [|rule rules IH]; intros i g;
    cbn [promote_from map run_promote_stmts]; [reflexivity|].
  apply IH.
Qed.

(** What [promote_named_edges] sends when the database answers. *)
Lemma promote_named_edges_sends (W : World) (mapping : Mapping)
  (rules : list PromoteRule) (tr : list event) :
  m_promote mapping = Promotion (Some rules) ->
  (forall tr' m,
      In m rules ->
      w_db W tr' (promote_cypher (pr_type m)) [("lid", PInt (pr_linkid m))]
      <> None) ->
  promote_named_edges W mapping tr
  = ((tr ++ map (fun m => DbRun (promote_cypher (pr_type m))
                               [("lid", PInt (pr_linkid m))]) rules)%list,
     inl tt).
Proof.
  intros Hcfg Hdb. unfold promote_named_edges. rewrite Hcfg.
  cbn [require lift]. unfold seq at 1. cbn [ret].
  clear Hcfg. revert tr.
  induction rules as [|m rules IH]; intros tr; cbn [for_each map].
  - now rewrite app_nil_r.
  - assert (Hrest : forall tr' m', In m' rules ->
               w_db W tr' (promote_cypher (pr_type m'))
                    [("lid", PInt (pr_linkid m'))] <> None)
      by (intros tr' m' Hin; apply Hdb; now right).
    specialize (IH Hrest).
    unfold seq at 1. unfold neo_run_void, seq, neo_run.
    destruct (w_db W tr (promote_cypher (pr_type m))
                [("lid", PInt (pr_linkid m))]) as [rows|] eqn:Hr.
    2:{ exfalso. apply (Hdb tr m); [now left | exact Hr]. }
    cbn [ret]. rewrite IH, <- app_assoc. reflexivity.
Qed.

(** C6.  For a mapping with promotion rules and a database that
    answers, [promote_named_edges] sends one statement for each rule,
    in order: the [MATCH] of the generic [SYNSET] edges between two
    synsets whose [linkid] is the parameter [$lid], the [MERGE] of an
    edge of the type of the rule between the same endpoints, with the
    discriminator of the rule for [$lid].  On a graph, these statements
    keep the nodes and every edge as they are and only add edges; for
    every rule and every generic edge the rule matches, that edge is
    still there and the number of edges of the mapped type between its
    endpoints is one when there was none, and what it was otherwise;
    promoting the result again, at any later time, changes nothing. *)
Theorem promotion_additive_idempotent
  (W : World) (mapping : Mapping) (rules : list PromoteRule)
  (tr : list event) (clock : nat -> Z) (g : graph) :
  m_promote mapping = Promotion (Some rules) ->
  (forall tr' m,
      In m rules ->
      w_db W tr' (promote_cypher (pr_type m)) [("lid", PInt (pr_linkid m))]
      <> None) ->
  let sent := map (fun m => (promote_stmt_of (pr_type m), pr_linkid m)) rules in
  let g' := run_promote_stmts clock 0 sent g in
  promote_named_edges W mapping tr
  = ((tr ++ map (fun s => DbRun (render_promote (fst s))
                               [("lid", PInt (snd s))]) sent)%list,
     inl tt)
  /\ (g_nodes g' = g_nodes g
      /\ exists added, g_edges g' = (g_edges g ++ added)%list)
  /\ (forall rule r,
        In rule rules -> In r (g_edges g) ->
        matched_by (promote_stmt_of (pr_type rule)) (VInt (pr_linkid rule)) g r
        = true ->
        In r (g_edges g')
        /\ count_edges (pr_type rule) (e_src r) (e_dst r) g'
           = Nat.max 1 (count_edges (pr_type rule) (e_src r) (e_dst r) g))
  /\ (forall clock', run_promote_stmts clock' 0 sent g' = g').
Proof.
  intros Hcfg Hdb. cbn zeta. rewrite <- !promote_from_stmts.
  pose proof (promote_from_extends clock rules 0 g) as Hext.
  split; [|split; [|split]].
  - rewrite (promote_named_edges_sends W mapping rules tr Hcfg Hdb).
    now rewrite map_map.
  - destruct Hext as (Hn & added & He & _). split; [exact Hn|]. now exists added.
  - intros rule r Hrule Hr Hgen.
    change (generic_edge g (pr_linkid rule) r = true) in Hgen. split.
    + destruct Hext as (_ & added & He & _). rewrite He. apply in_or_app. now left.
    + pose proof (promote_from_count clock rules (pr_type rule) (e_src r)
                    (e_dst r) 0 g) as [Hlo Hhi]. cbn zeta in Hlo, Hhi.
      pose proof (promote_from_linked clock rules 0 g g rule r
                    (extends_refl g) Hrule Hr Hgen) as Hl.
      rewrite linked_count in Hl.
      destruct (count_edges (pr_type rule) (e_src r) (e_dst r)
                  (promote_from clock 0 rules g)); [discriminate | lia].
  - intros clock'. rewrite <- promote_from_stmts. apply promote_from_fixed.
    intros rule r Hrule Hr Hgen.
    assert (Hin : In r (filter (generic_edge g (pr_linkid rule)) (g_edges g))).
    { rewrite <- (generic_edges_stable g _ _ Hext). apply filter_In. now split. }
    apply filter_In in Hin as [Hr0 Hgen0].
    apply (promote_from_linked clock rules 0 g g rule r (extends_refl g));
      assumption.
Qed.

(** The rule of [mapping_with] promotes the discriminator 1 to
    [HYPERNYM]: one statement is sent, and on two synsets linked by a
    generic edge with that discriminator it adds one [HYPERNYM] edge,
    once. *)
Lemma promotion_additive_idempotent_witness :
  let sent := [(promote_stmt_of "HYPERNYM", 1%Z)] in
  let g' := run_promote_stmts (fun _ => 0%Z) 0 sent linked_synsets in
  promote_named_edges quiet_world (mapping_with []) []
  = ([DbRun (promote_cypher "HYPERNYM") [("lid", PInt 1)]], inl tt)
  /\ count_edges "HYPERNYM" 0 1 g' = 1
  /\ map e_type (g_edges g') = ["SYNSET"; "HYPERNYM"]
  /\ run_promote_stmts (fun _ => 5%Z) 0 sent g' = g'.
Proof.
  cbn zeta.
  destruct (promotion_additive_idempotent quiet_world (mapping_with [])
              [{| pr_linkid := 1; pr_type := "HYPERNYM" |}] []
              (fun _ => 0%Z) linked_synsets eq_refl)
    as (Hsent & _ & Hcount & Hfixed); [discriminate|].
  split; [exact Hsent|]. split; [|split].
  - exact (proj2 (Hcount {| pr_linkid := 1; pr_type := "HYPERNYM" |}
                         {| e_id := 2; e_type := "SYNSET"; e_src := 0;
                            e_dst := 1; e_props := [("linkid", VInt 1)] |}
                         (or_introl eq_refl) (or_introl eq_refl) eq_refl)).
  - reflexivity.
  - apply Hfixed.
Defined.

(** ** Rows in transactions *)

Section TransactionFacts.

Variables (R G : Type).
Variable step : R -> G -> outcome G.

(** When no row fails, the commits in between do not show in the end. *)
Lemma in_transactions_done (k : nat) (rows : list R) :
  forall (committed current : G) (filled : nat) (final : G),
    run_rows step rows current = Done final ->
    in_transactions step k rows committed current filled = (final, None).
Proof.
  induction rows as [|r rows IH]; intros committed current filled final;
    cbn [run_rows in_transactions].
  - intros H; now inversion H.
  - destruct (step r current) as [s|why]; [|discriminate].
    intros H. destruct (Nat.eqb (S filled) k); now apply IH.
Qed.

Lemma run_batched_done (k : Z) (rows : list R) (g final : G) :
  (1 <= k)%Z ->
  run_rows step rows g = Done final ->
  run_batched step k rows g = (final, None).
Proof.
  intros Hk Hrun. unfold run_batched.
  destruct (k <=? 0)%Z eqn:Hle; [apply Z.leb_le in Hle; lia|].
  now apply in_transactions_done.
Qed.

End TransactionFacts.

(** C8.  When no row fails, the batched load leaves the same graph for
    every chunk size from one on, the one a single chunk of all the
    rows leaves, and reports no error. *)
Theorem batching_transparent
  (E : Engine) (b : load_body) (rows : list env) (g final : graph) (k : Z) :
  (1 <= k)%Z ->
  run_rows (exec_body E b) rows g = Done final ->
  exec_load E b k rows g = (final, None)
  /\ exec_load E b (Z.max 1 (Z.of_nat (length rows))) rows g = (final, None).
Proof.
  intros Hk Hrun. unfold exec_load.
  split; apply run_batched_done; try assumption; lia.
Qed.

Lemma batching_transparent_witness :
  exists st final,
    node_load_of synset_spec = Some st
    /\ exec_load ref_engine (NodeBody st) 1
                 [env_of [("synsetid", utext "1"); ("pos", utext " N ")];
                  env_of [("synsetid", utext "2"); ("pos", utext "v")]]
                 empty_graph
       = (final, None)
    /\ map n_props (g_nodes final)
       = [ [("synsetid", VInt 1); ("pos", VStr (utext "n"));
            ("source_system", VStr (utext "wordnet"));
            ("ingest_batch", VStr (utext "b1")); ("ingested_at", VTime 0)];
           [("synsetid", VInt 2); ("pos", VStr (utext "v"));
            ("source_system", VStr (utext "wordnet"));
            ("ingest_batch", VStr (utext "b1")); ("ingested_at", VTime 0)] ].
Proof.
  let v := eval vm_compute in (node_load_of synset_spec) in
  match v with Some ?s => pose (st := s) end.
  let v := eval vm_compute in
      (run_rows (exec_body ref_engine (NodeBody st))
         [env_of [("synsetid", utext "1"); ("pos", utext " N ")];
          env_of [("synsetid", utext "2"); ("pos", utext "v")]] empty_graph) in
  match v with Done ?g => pose (final := g) end.
  exists st, final. split; [reflexivity|]. split; [|reflexivity].
  apply (batching_transparent ref_engine (NodeBody st) _ empty_graph final 1);
    [lia | reflexivity].
Defined.

(** A key that is not a number passes the skip-guard and makes the
    [MERGE] fail.  With one row to a transaction the rows before it are
    committed; with all the rows in one transaction nothing is. *)
Lemma batching_transparent_fails :
  ~ batching_transparent_as_specified ref_engine.
Proof.
  intros claim.
  let v := eval vm_compute in (node_load_of synset_spec) in
  match v with Some ?s => pose (st := s) end.
  specialize (claim (NodeBody st)
                    [env_of [("synsetid", utext "1"); ("pos", utext "n")];
                     env_of [("synsetid", utext "abc"); ("pos", utext "n")]]
                    empty_graph 1%Z ltac:(lia)).
  vm_compute in claim. discriminate claim.
Qed.

(** ** The program: loops and traces *)

Lemma seq_inl {A B : Type} (m : prog A) (k : A -> prog B) (tr tr' : list event)
  (a : A) :
  m tr = (tr', inl a) -> seq m k tr = k a tr'.
Proof. intros H. unfold seq. now rewrite H. Qed.

Lemma seq_inr {A B : Type} (m : prog A) (k : A -> prog B) (tr tr' : list event)
  (h : halt) :
  m tr = (tr', inr h) -> seq m k tr = (tr', inr h).
Proof. intros H. unfold seq. now rewrite H. Qed.

(** A loop over [xs ++ ys] runs the loop over [xs] and, unless that
    ended the run, the loop over [ys]. *)
Lemma for_each_app {A : Type} (body : A -> prog unit) (xs ys : list A) :
  forall tr,
    for_each (xs ++ ys)%list body tr
    = match snd (for_each xs body tr) with
      | inl _ => for_each ys body (fst (for_each xs body tr))
      | inr h => (fst (for_each xs body tr), inr h)
      end.
Proof.
  induction xs as [|x xs IH]; intros tr; cbn [app for_each].
  - reflexivity.
  - unfold seq. destruct (body x tr) as [tr1 [[]|h]]; [apply IH | reflexivity].
Qed.

Lemma db_calls_app (tr tr' : list event) :
  db_calls (tr ++ tr')%list = (db_calls tr ++ db_calls tr')%list.
Proof. unfold db_calls. apply flat_map_app. Qed.

Lemma silent_ret {A : Type} (a : A) : silent (ret a).
Proof. intros tr. reflexivity. Qed.

Lemma silent_print (m : message) : silent (print m).
Proof.
  intros tr. unfold print, emit. cbn [fst]. rewrite db_calls_app. cbn.
  now rewrite app_nil_r.
Qed.

Lemma silent_eprint (m : message) : silent (eprint m).
Proof.
  intros tr. unfold eprint, emit. cbn [fst]. rewrite db_calls_app. cbn.
  now rewrite app_nil_r.
Qed.

Lemma silent_exit {A : Type} (code : Z) : silent (@sys_exit A code).
Proof. intros tr. reflexivity. Qed.

Lemma silent_throw {A : Type} (e : exn) : silent (@throw A e).
Proof. intros tr. reflexivity. Qed.

Lemma silent_seq {A B : Type} (m : prog A) (k : A -> prog B) :
  silent m -> (forall a, silent (k a)) -> silent (seq m k).
Proof.
  intros Hm Hk tr. unfold seq. specialize (Hm tr).
  destruct (m tr) as [tr1 [a|h]]; cbn [fst] in *.
  - now rewrite Hk.
  - exact Hm.
Qed.

Lemma silent_for_each {A : Type} (body : A -> prog unit) (xs : list A) :
  (forall x, silent (body x)) -> silent (for_each xs body).
Proof.
  intros Hbody. induction xs as [|x xs IH]; cbn [for_each].
  - apply silent_ret.
  - apply silent_seq; [apply Hbody | intros _; exact IH].
Qed.

Section MainFacts.

Variable W : World.

Lemma silent_preflight_source (args : Args) (src : SourceDecl) :
  silent (preflight_source W args src).
Proof.
  unfold preflight_source.
  apply silent_seq; [apply silent_print | intros _].
  apply silent_seq; [|intros _; apply silent_seq; [|intros _]].
  - unfold check_checksum, sha256_of_url.
    destruct (a_verify_checksums args && truthy (src_checksum src));
      [|apply silent_ret].
    apply silent_seq.
    + destruct (w_sha256 W _); [apply silent_ret | apply silent_throw].
    + intros h. destruct (negb _); [|apply silent_print].
      apply silent_seq; [apply silent_eprint | intros _; apply silent_exit].
  - unfold check_rowcount, count_rows_of_url.
    destruct (a_verify_rowcounts args), (src_rows src); try apply silent_ret.
    apply silent_seq.
    + destruct (w_iter_lines W _); [apply silent_ret | apply silent_throw].
    + intros n. destruct (negb _); [|apply silent_print].
      apply silent_seq; [apply silent_eprint | intros _; apply silent_exit].
  - unfold check_linkid.
    destruct (String.eqb (src_name src) "semlinkref"); [|apply silent_ret].
    destruct (count_missing_col_in_csv W _ _); [|apply silent_print].
    destruct (0 <? z)%Z; [|apply silent_ret].
    destruct (a_strict_missing_linkid args); [|apply silent_print].
    apply silent_seq; [apply silent_eprint | intros _; apply silent_exit].
Qed.

(** Sources that pass their checks leave the run going and send
    nothing to the database. *)
Lemma preflight_passes (args : Args) (pre : list SourceDecl) :
  (forall s tr, In s pre -> snd (preflight_source W args s tr) = inl tt) ->
  forall tr,
    snd (for_each pre (preflight_source W args) tr) = inl tt
    /\ db_calls (fst (for_each pre (preflight_source W args) tr)) = db_calls tr.
Proof.
  intros Hpass tr. split.
  - revert tr. induction pre as [|s pre IH]; intros tr; cbn [for_each].
    + reflexivity.
    + unfold seq. pose proof (Hpass s tr (or_introl eq_refl)) as Hs.
      destruct (preflight_source W args s tr) as [tr1 r]. cbn [snd] in Hs.
      subst r. apply IH. intros s' tr' Hin. apply Hpass. now right.
  - apply silent_for_each. intros s. apply silent_preflight_source.
Qed.

(** A declared digest that the source does not have ends the run of
    the preflight with exit code 3. *)
Lemma checksum_mismatch_exits (args : Args) (src : SourceDecl)
  (expected got : string) (tr : list event) :
  a_verify_checksums args = true ->
  src_checksum src = Some expected ->
  truthy (Some expected) = true ->
  w_sha256 W (to_url W (a_base_url args) (src_path src)) = Some got ->
  got <> expected ->
  snd (preflight_source W args src tr) = inr (Exit 3).
Proof.
  intros Hflag Hsum Htruthy Hsha Hneq.
  unfold preflight_source, check_checksum, sha256_of_url.
  rewrite Hflag, Hsum, Htruthy, Hsha. cbn [andb get_or].
  apply String.eqb_neq in Hneq. unfold seq, ret, print, emit.
  rewrite Hneq. reflexivity.
Qed.

(** The constraint statements, when the database accepts them, are the
    next events of the trace. *)
Lemma constraints_sent (stmts : list string) :
  (forall tr stmt, w_db W tr stmt [] <> None) ->
  forall tr,
    for_each stmts (fun stmt => neo_run_void W stmt []) tr
    = ((tr ++ map (fun stmt => DbRun stmt []) stmts)%list, inl tt).
Proof.
  intros Hdb. induction stmts as [|stmt stmts IH]; intros tr; cbn [for_each map].
  - now rewrite app_nil_r.
  - unfold seq at 1. unfold neo_run_void, seq, neo_run.
    destruct (w_db W tr stmt []) as [rows|] eqn:Hr; [|now apply Hdb in Hr].
    cbn [ret]. rewrite IH, <- app_assoc. reflexivity.
Qed.

Lemma db_calls_runs (stmts : list string) :
  db_calls (map (fun stmt => DbRun stmt []) stmts) = stmts.
Proof.
  unfold db_calls. induction stmts as [|s stmts IH]; cbn [map flat_map app];
    [reflexivity | now rewrite IH].
Qed.

Lemma base_paths_printed (sources : list SourceDecl) :
  forall tr,
    snd (for_each sources (fun s => print (MsgBasePath (basename (src_path s)))) tr)
    = inl tt
    /\ db_calls (fst (for_each sources
                        (fun s => print (MsgBasePath (basename (src_path s)))) tr))
       = db_calls tr.
Proof.
  intros tr. split.
  - revert tr. induction sources as [|s sources IH]; intros tr; cbn [for_each].
    + reflexivity.
    + unfold seq, print, emit. apply IH.
  - apply silent_for_each. intros s. apply silent_print.
Qed.

End MainFacts.

Section MainRun.

Variable W : World.

Lemma startup_done (args : Args) (mapping : Mapping) (tr : list event) :
  truthy (a_password args) = true ->
  snd (startup args mapping tr) = inl tt
  /\ db_calls (fst (startup args mapping tr)) = db_calls tr.
Proof.
  intros Hpw. unfold startup. rewrite Hpw. split.
  - rewrite (seq_inl _ _ tr tr tt) by reflexivity.
    rewrite (seq_inl _ _ tr (tr ++ [Stdout (MsgMapping (a_mapping args))])%list tt)
      by reflexivity.
    apply base_paths_printed.
  - revert tr. apply silent_seq; [apply silent_ret | intros _].
    apply silent_seq; [apply silent_print | intros _].
    apply silent_for_each. intros s. apply silent_print.
Qed.

Lemma create_constraints_done (mapping : Mapping) (stmts : list string)
  (tr : list event) :
  build_constraint_cypher (m_indexes mapping) = Ok stmts ->
  (forall tr stmt, w_db W tr stmt [] <> None) ->
  create_constraints W mapping tr
  = ((tr ++ map (fun stmt => DbRun stmt []) stmts)%list, inl tt).
Proof.
  intros Hbuild Hdb. unfold create_constraints. rewrite Hbuild. cbn [lift].
  unfold seq, ret. now apply constraints_sent.
Qed.

Lemma preflight_mismatch (args : Args) (pre post : list SourceDecl)
  (src : SourceDecl) (expected got : string) (tr : list event) :
  a_verify_checksums args = true ->
  (forall s tr, In s pre -> snd (preflight_source W args s tr) = inl tt) ->
  src_checksum src = Some expected ->
  truthy (Some expected) = true ->
  w_sha256 W (to_url W (a_base_url args) (src_path src)) = Some got ->
  got <> expected ->
  snd (preflight W args (pre ++ src :: post) tr) = inr (Exit 3)
  /\ db_calls (fst (preflight W args (pre ++ src :: post) tr)) = db_calls tr.
Proof.
  intros Hflag Hpre Hsum Htruthy Hsha Hneq. split.
  - unfold preflight. rewrite Hflag. cbn [orb].
    unfold seq at 1. unfold print at 1, emit. rewrite for_each_app.
    destruct (preflight_passes W args pre Hpre (tr ++ [Stdout MsgPreflight])%list)
      as [Hres _].
    rewrite Hres. cbn [for_each]. unfold seq at 1.
    pose proof (checksum_mismatch_exits W args src expected got
                  (fst (for_each pre (preflight_source W args)
                          (tr ++ [Stdout MsgPreflight])%list))
                  Hflag Hsum Htruthy Hsha Hneq) as Hexit.
    destruct (preflight_source W args src _) as [tr1 r]. cbn [snd] in Hexit.
    now subst r.
  - assert (Hsilent : silent (preflight W args (pre ++ src :: post))).
    { unfold preflight. destruct (_ || _); [|apply silent_ret].
      apply silent_seq; [apply silent_print | intros _].
      apply silent_for_each. intros s. apply silent_preflight_source. }
    apply Hsilent.
Qed.

End MainRun.

(** ** Entries of the load order *)

Lemma prefix_append (p s : string) : String.prefix p (p ++ s) = true.
Proof.
  induction p as [|c p IH]; cbn.
  - now destruct s.
  - destruct (ascii_dec c c) as [_|Hc]; [exact IH | now elim Hc].
Qed.

Section LoadOrder.

Variable W : World.
Variables (args : Args) (mapping : Mapping) (sources : list SourceDecl).
Variable params_common : dict pyval.

Let body := load_item W args mapping sources params_common.

Lemma load_item_unknown (item : string) (tr : list event) :
  String.prefix "nodes." item = false ->
  String.prefix "relationships." item = false ->
  String.prefix "derived_relationships." item = false ->
  body item tr = ((tr ++ [Stdout (MsgSkippingUnknown item)])%list, inl tt).
Proof.
  intros Hn Hr Hd. unfold body, load_item. now rewrite Hn, Hr, Hd.
Qed.

Lemma load_item_missing_node (key : string) (tr : list event) :
  lookup key (m_nodes mapping) = None ->
  body ("nodes." ++ key) tr = (tr, inr (Uncaught (KeyError key))).
Proof.
  intros Hkey. unfold body, load_item.
  rewrite prefix_append. change (after_dot ("nodes." ++ key)) with key.
  now rewrite Hkey.
Qed.

Lemma load_item_missing_rel (key : string) (tr : list event) :
  lookup key (m_relationships mapping) = None ->
  body ("relationships." ++ key) tr = (tr, inr (Uncaught (KeyError key))).
Proof.
  intros Hkey. unfold body, load_item.
  change (String.prefix "nodes." ("relationships." ++ key)) with false.
  rewrite prefix_append. change (after_dot ("relationships." ++ key)) with key.
  now rewrite Hkey.
Qed.

(** C4.  In the loop over [load_order], after the entries before it
    have run: an entry that starts with none of [nodes.],
    [relationships.] and [derived_relationships.] is printed as skipped
    and the loop goes on with the next entry; an entry [nodes.key] or
    [relationships.key] whose key the mapping does not have ends the
    run there with a [KeyError] that nobody catches. *)
Theorem unresolved_entries_skip_or_raise
  (pre post : list string) (item : string) (tr : list event) :
  let before := for_each pre body tr in
  (String.prefix "nodes." item = false ->
   String.prefix "relationships." item = false ->
   String.prefix "derived_relationships." item = false ->
   for_each (pre ++ item :: post) body tr
   = match snd before with
     | inl _ =>
         for_each post body
                  (fst before ++ [Stdout (MsgSkippingUnknown item)])%list
     | inr h => (fst before, inr h)
     end)
  /\ (forall key,
        (item = "nodes." ++ key /\ lookup key (m_nodes mapping) = None)
        \/ (item = "relationships." ++ key
            /\ lookup key (m_relationships mapping) = None) ->
        for_each (pre ++ item :: post) body tr
        = match snd before with
          | inl _ => (fst before, inr (Uncaught (KeyError key)))
          | inr h => (fst before, inr h)
          end).
Proof.
  cbn zeta. split.
  - intros Hn Hr Hd. rewrite for_each_app.
    destruct (snd (for_each pre body tr)); [|reflexivity].
    cbn [for_each]. now rewrite (seq_inl _ _ _ _ _ (load_item_unknown item _ Hn Hr Hd)).
  - intros key Hitem. rewrite for_each_app.
    destruct (snd (for_each pre body tr)); [|reflexivity].
    cbn [for_each].
    destruct Hitem as [[-> Hkey] | [-> Hkey]].
    + now rewrite (seq_inr _ _ _ _ _ (load_item_missing_node key _ Hkey)).
    + now rewrite (seq_inr _ _ _ _ _ (load_item_missing_rel key _ Hkey)).
Qed.

End LoadOrder.

Lemma unresolved_entries_witness :
  for_each ["bogus"; "derived_relationships.promote_named_edges"]
           (load_item quiet_world plain_args (mapping_with []) [synset_source] [])
           []
  = ([Stdout (MsgSkippingUnknown "bogus"); Stdout MsgPromoting;
      DbRun (promote_cypher "HYPERNYM") [("lid", PInt 1)]], inl tt).
Proof.
  exact (proj1 (unresolved_entries_skip_or_raise quiet_world plain_args
                  (mapping_with []) [synset_source] [] []
                  ["derived_relationships.promote_named_edges"] "bogus" [])
               eq_refl eq_refl eq_refl).
Defined.

(** An entry with an unknown prefix is printed and passed over; the
    run goes on and ends normally. *)
Lemma unresolved_entry_fatal_fails :
  ~ unresolved_entry_fatal_as_specified quiet_world.
Proof.
  intros claim.
  destruct (claim plain_args (mapping_with ["bogus"]) [] "bogus")
    as (tr & h & Hrun & _); try reflexivity.
  - now left.
  - vm_compute in Hrun. inversion Hrun.
Qed.

(** ** The scan for a missing discriminator *)

Lemma filter_all {A : Type} (P : A -> bool) (l : list A) :
  (forall x, In x l -> P x = true) -> filter P l = l.
Proof.
  induction l as [|a l IH]; cbn; intros H; [reflexivity|].
  rewrite (H a (or_introl eq_refl)). f_equal. apply IH. intros x Hx.
  apply H. now right.
Qed.

(** A row has no cell for a name that the header does not have. *)
Lemma cell_or_empty_absent (col : ustring) (fieldnames : list ustring) :
  forallb (fun name => negb (ustring_eqb name col)) fieldnames = true ->
  forall cells, cell_or_empty (zip_row fieldnames cells) col = [].
Proof.
  unfold cell_or_empty. intros Habsent cells.
  assert (Hfold : forall r : list (ustring * option ustring),
             forallb (fun kv => negb (ustring_eqb (fst kv) col)) r = true ->
             fold_left (fun acc kv => if ustring_eqb (fst kv) col
                                      then snd kv else acc) r None = None).
  { induction r as [|kv r IH]; cbn; [reflexivity|].
    intros H. apply andb_prop in H as [Hkv Hr].
    apply negb_true_iff in Hkv. rewrite Hkv. now apply IH. }
  rewrite Hfold; [reflexivity|].
  revert cells. induction fieldnames as [|name names IH]; intros cells;
    [reflexivity|].
  cbn [forallb] in Habsent. apply andb_prop in Habsent as [Hname Hnames].
  destruct cells as [|cell rest]; cbn [zip_row forallb fst];
    rewrite Hname; cbn [andb]; now apply IH.
Qed.

Lemma cell_missing_absent (col : ustring) (fieldnames cells : list ustring) :
  forallb (fun name => negb (ustring_eqb name col)) fieldnames = true ->
  cell_missing col (zip_row fieldnames cells) = true.
Proof.
  intros Habsent. unfold cell_missing.
  now rewrite (cell_or_empty_absent col fieldnames Habsent cells).
Qed.

Lemma count_missing_absent (reader : ustring -> list (list ustring))
  (data col : ustring) :
  forallb (fun name => negb (ustring_eqb name col)) (header_of reader data)
  = true ->
  count_missing_in reader data col
  = Z.of_nat (length (data_rows reader data)).
Proof.
  unfold count_missing_in, data_rows, header_of, scan_records.
  destruct (splitlines data) as [|l ls]; [reflexivity|].
  destruct (reader (csv_input (l :: ls))) as [|fieldnames rest]; [reflexivity|].
  cbn [hd dict_reader]. intros Habsent. do 2 f_equal. apply filter_all.
  intros r Hin. apply in_map_iff in Hin as (cells & <- & _).
  now apply cell_missing_absent.
Qed.

(** ** Source addresses *)

Lemma rstrip_slash_slash (s : string) :
  rstrip_slash (s ++ "/") = rstrip_slash s.
Proof.
  induction s as [|c s IH]; cbn [append rstrip_slash]; [reflexivity|].
  now rewrite IH.
Qed.

Lemma split_on_cons (sep : ascii) (s : string) :
  exists w ws, split_on sep s = w :: ws.
Proof.
  induction s as [|c s (w & ws & IH)]; cbn [split_on]; [now eexists; eexists|].
  destruct (Ascii.eqb c sep); [now eexists; eexists|].
  rewrite IH. now eexists; eexists.
Qed.

(** Splitting at a separator splits what is before it and what is
    after it. *)
Lemma split_on_app (sep : ascii) (a b : string) :
  split_on sep (a ++ String sep b) = (split_on sep a ++ split_on sep b)%list.
Proof.
  induction a as [|c a IH]; cbn [append split_on].
  - now rewrite Ascii.eqb_refl.
  - destruct (Ascii.eqb c sep); [now rewrite IH|].
    rewrite IH. destruct (split_on_cons sep a) as (w & ws & ->). reflexivity.
Qed.

Lemma split_on_whole (sep : ascii) (s : string) :
  contains_char sep s = false -> split_on sep s = [s].
Proof.
  induction s as [|c s IH]; cbn [contains_char split_on]; [reflexivity|].
  intros H. apply orb_false_elim in H as [Hc Hs].
  rewrite Ascii.eqb_sym, Hc, (IH Hs). reflexivity.
Qed.

Lemma last_app_cons {A : Type} (l : list A) (x : A) (l' : list A) (d : A) :
  last (l ++ x :: l') d = last (x :: l') d.
Proof.
  induction l as [|a l IH]; [reflexivity|].
  cbn [app]. rewrite <- IH. cbn [last].
  destruct (l ++ x :: l')%list eqn:H; [now destruct l|reflexivity].
Qed.

(** The base name of a path is what follows its last slash. *)
Lemma basename_under (dir file : string) :
  contains_char "/" file = false ->
  basename (dir ++ String "/" file) = file.
Proof.
  intros Hfile. unfold basename.
  rewrite split_on_app, (split_on_whole _ _ Hfile), last_app_cons. reflexivity.
Qed.

(** X1.  The address of a source.  A path that is an address already is
    taken as it is, whatever the base.  For any other path, a slash
    more at the end of the base changes nothing, and of a path with
    directories only the file name after the last slash is joined to
    the base: the directories are dropped. *)
Theorem to_url_drops_directories
  (W : World) (base_url path dir file : string) :
  (is_url path = true -> to_url W base_url path = path)
  /\ to_url W (base_url ++ "/") path = to_url W base_url path
  /\ (contains_char "/" file = false ->
      is_url (dir ++ String "/" file) = false ->
      to_url W base_url (dir ++ String "/" file)
      = w_urljoin W (rstrip_slash base_url ++ "/") file).
Proof.
  unfold to_url. repeat split.
  - now intros ->.
  - now rewrite rstrip_slash_slash.
  - intros Hfile Hrel. now rewrite Hrel, basename_under.
Qed.

Lemma to_url_drops_directories_witness :
  to_url quiet_world "https://host/wn//" "stage/src/synset.csv"
  = "https://host/wn/synset.csv"
  /\ to_url quiet_world "https://host/wn" "https://other/synset.csv"
     = "https://other/synset.csv".
Proof.
  destruct (to_url_drops_directories quiet_world "https://host/wn//"
              "https://other/synset.csv" "stage/src" "synset.csv")
    as (Habs & _ & Hrel).
  split.
  - exact (Hrel eq_refl eq_refl).
  - destruct (to_url_drops_directories quiet_world "https://host/wn"
                "https://other/synset.csv" "" "") as (Habs' & _).
    exact (Habs' eq_refl).
Defined.

(** ** Declarations that give no statement *)

Lemma constraint_stmts_other (idx : IndexDecl) :
  declares idx = false -> constraint_stmts idx = Ok [].
Proof.
  unfold declares, constraint_stmts.
  destruct (idx_kind idx) as [kind|]; [|reflexivity].
  intros H. apply orb_false_elim in H as [-> ->]. reflexivity.
Qed.

Lemma constraint_stmts_one (idx : IndexDecl) (stmts : list string) :
  declares idx = true -> constraint_stmts idx = Ok stmts -> length stmts = 1.
Proof.
  unfold declares, constraint_stmts.
  destruct (idx_kind idx) as [kind|]; [|discriminate].
  destruct (String.eqb kind "constraint"), (String.eqb kind "rel_index");
    cbn [orb]; try discriminate; intros _;
    destruct (idx_label idx), (idx_type idx), (idx_properties idx) as [[|p ps]|];
    cbn; try discriminate;
    try (destruct (get_or (idx_unique idx) false));
    intros H; inversion H; reflexivity.
Qed.

(** X2.  A declaration whose kind is neither [constraint] nor [rel_index],
    or that has no kind, is passed over without a word: the result, the
    statements or the exception, is the one of the list without it,
    and the statements are as many as the declarations of the two
    kinds. *)
Theorem constraint_other_kinds_ignored (runtime_indexes : list IndexDecl) :
  build_constraint_cypher runtime_indexes
  = build_constraint_cypher (filter declares runtime_indexes)
  /\ (forall stmts,
        build_constraint_cypher runtime_indexes = Ok stmts ->
        length stmts = length (filter declares runtime_indexes)).
Proof.
  split.
  - induction runtime_indexes as [|idx rest IH];
      cbn [filter build_constraint_cypher]; [reflexivity|].
    destruct (declares idx) eqn:Hd; cbn [build_constraint_cypher].
    + now rewrite IH.
    + rewrite (constraint_stmts_other idx Hd), IH. cbn [bind app].
      now destruct (build_constraint_cypher (filter declares rest)).
  - induction runtime_indexes as [|idx rest IH]; intros stmts;
      cbn [filter build_constraint_cypher].
    + intros H; now inversion H.
    + destruct (constraint_stmts idx) as [s|e] eqn:Hs; [|discriminate].
      destruct (build_constraint_cypher rest) as [more|e]; [|discriminate].
      cbn [bind]. intros H; inversion H; subst; clear H.
      rewrite length_app, (IH more eq_refl).
      destruct (declares idx) eqn:Hd; cbn [length].
      * now rewrite (constraint_stmts_one idx s Hd Hs).
      * rewrite (constraint_stmts_other idx Hd) in Hs. now inversion Hs.
Qed.

Lemma constraint_other_kinds_ignored_witness :
  build_constraint_cypher
    [ {| idx_kind := Some "index"; idx_label := Some "word";
         idx_type := None; idx_properties := Some ["lemma"];
         idx_unique := None |};
      synset_constraint ]
  = Ok ["CREATE CONSTRAINT IF NOT EXISTS FOR (n:`synset`) REQUIRE n.`synsetid` IS UNIQUE;"].
Proof.
  rewrite (proj1 (constraint_other_kinds_ignored _)). reflexivity.
Defined.

(** ** What the builders of the bodies need *)

Lemma traverse_ok {A B : Type} (f : A -> result B) (xs : list A) :
  Forall (fun x => exists y, f x = Ok y) xs -> exists ys, traverse f xs = Ok ys.
Proof.
  induction 1 as [|x xs (y & Hy) _ (ys & IH)]; cbn [traverse].
  - now eexists.
  - rewrite Hy, IH. now eexists.
Qed.

Lemma traverse_raise {A B : Type} (f : A -> result B) (pre post : list A)
  (x : A) (e : exn) :
  Forall (fun x => exists y, f x = Ok y) pre ->
  f x = Raise e ->
  traverse f (pre ++ x :: post) = Raise e.
Proof.
  intros Hpre Hx. induction Hpre as [|a pre (y & Hy) _ IH]; cbn [app traverse].
  - now rewrite Hx.
  - now rewrite Hy, IH.
Qed.

Lemma has_key_lookup {A : Type} (k : string) (d : dict A) :
  has_key k d = true -> exists v, lookup k d = Some v.
Proof. unfold has_key. destruct (lookup k d); [now eexists | discriminate]. Qed.

(** X3.  [build_node_load_body] needs a mapping for every key field, and
    nothing else: with one for each it returns a body, also for an
    empty key list; otherwise it raises [KeyError] with the first key
    field that has none. *)
Theorem node_body_needs_key_mappings (spec : NodeSpec) :
  (forallb (fun k => has_key k (ns_mappings spec)) (ns_key spec) = true ->
   exists body, build_node_load_body spec = Ok body)
  /\ (forall pre k post,
        ns_key spec = (pre ++ k :: post)%list ->
        forallb (fun k => has_key k (ns_mappings spec)) pre = true ->
        lookup k (ns_mappings spec) = None ->
        build_node_load_body spec = Raise (KeyError k)).
Proof.
  unfold build_node_load_body, mapping_of. split.
  - intros Hall. rewrite forallb_forall in Hall.
    destruct (traverse_ok
                (fun k => spec0 <- require k (lookup k (ns_mappings spec)) ;;
                          Ok (fs_column spec0)) (ns_key spec)) as (cols & ->).
    { apply Forall_forall. intros k Hk.
      destruct (has_key_lookup _ _ (Hall k Hk)) as (v & ->). now eexists. }
    destruct (traverse_ok
                (fun k => spec0 <- require k (lookup k (ns_mappings spec)) ;;
                          Ok (k ++ ": "
                              ++ type_cast ("row." ++ fs_column spec0) spec0))
                (ns_key spec)) as (items & ->).
    { apply Forall_forall. intros k Hk.
      destruct (has_key_lookup _ _ (Hall k Hk)) as (v & ->). now eexists. }
    cbn [bind]. now eexists.
  - intros pre k post -> Hpre Hk. rewrite forallb_forall in Hpre.
    rewrite (traverse_raise _ pre post k (KeyError k)); [reflexivity | |].
    + apply Forall_forall. intros k' Hk'.
      destruct (has_key_lookup _ _ (Hpre k' Hk')) as (v & ->). now eexists.
    + now rewrite Hk.
Qed.

Lemma node_body_needs_key_mappings_witness :
  build_node_load_body
    {| ns_source := "word"; ns_label := "word"; ns_key := ["lemma"; "wordid"];
       ns_mappings := ns_mappings word_by_lemma |}
  = Raise (KeyError "wordid").
Proof.
  apply (proj2 (node_body_needs_key_mappings _) ["lemma"] "wordid" []);
    reflexivity.
Defined.

Lemma split_on_length (sep : ascii) (s : string) :
  length (split_on sep s) = S (count_char sep s).
Proof.
  induction s as [|c s IH]; cbn [split_on count_char]; [reflexivity|].
  destruct (Ascii.eqb c sep); cbn [length Nat.add]; [now rewrite IH|].
  destruct (split_on_cons sep s) as (w & ws & Hs). rewrite Hs in *.
  exact IH.
Qed.

Lemma contains_char_count (c : ascii) (s : string) :
  contains_char c s = negb (Nat.eqb (count_char c s) 0).
Proof.
  induction s as [|d s IH]; cbn [contains_char count_char]; [reflexivity|].
  rewrite (Ascii.eqb_sym c d). destruct (Ascii.eqb d c); [reflexivity|].
  exact IH.
Qed.

(** An entry of [match_on] unpacks into a column and a property when
    it has one colon at most. *)
Lemma match_on_pair_colons (k : string) :
  match match_on_pair k with
  | Ok _ => count_char ":" k <= 1
  | Raise e => e = ValueError /\ 2 <= count_char ":" k
  end.
Proof.
  unfold match_on_pair. rewrite contains_char_count.
  pose proof (split_on_length ":" k) as Hlen.
  destruct (count_char ":" k) as [|[|n]]; cbn [Nat.eqb negb].
  - lia.
  - destruct (split_on ":" k) as [|a [|b [|c l]]]; cbn in Hlen; try lia.
  - destruct (split_on ":" k) as [|a [|b [|c l]]]; cbn in Hlen; try lia.
    split; [reflexivity | lia].
Qed.

Lemma match_expr_colons (role : string) (spec : EndpointSpec) :
  match match_expr role spec with
  | Ok _ => Forall (fun k => count_char ":" k <= 1) (ep_match_on spec)
  | Raise e =>
      e = ValueError /\ Exists (fun k => 2 <= count_char ":" k) (ep_match_on spec)
  end.
Proof.
  unfold match_expr.
  induction (ep_match_on spec) as [|k ks IH]; cbn [traverse bind]; [constructor|].
  unfold match_part at 1. pose proof (match_on_pair_colons k) as Hk.
  destruct (match_on_pair k) as [[src_col target_prop]|e]; cbn [bind].
  - destruct (traverse match_part ks) as [parts|e]; cbn [bind] in *.
    + now constructor.
    + destruct IH as [-> IH]. split; [reflexivity | now right].
  - destruct Hk as [-> Hk]. split; [reflexivity | now left].
Qed.

(** X4.  [build_rel_load_body], on a relationship with its required fields,
    can fail in one way: it returns a body when every [match_on] entry
    of the two endpoints has one colon at most, and raises [ValueError]
    when one of them has two or more. *)
Theorem rel_body_needs_one_colon (spec : RelSpec) :
  let entries := (ep_match_on (rs_from spec) ++ ep_match_on (rs_to spec))%list in
  (forallb (fun k => (count_char ":" k <=? 1)%nat) entries = true ->
   exists body, build_rel_load_body spec = Ok body)
  /\ (existsb (fun k => (2 <=? count_char ":" k)%nat) entries = true ->
      build_rel_load_body spec = Raise ValueError).
Proof.
  cbn zeta. unfold build_rel_load_body.
  pose proof (match_expr_colons "from" (rs_from spec)) as Hf.
  pose proof (match_expr_colons "to" (rs_to spec)) as Ht.
  split.
  - intros Hall. rewrite forallb_app in Hall. apply andb_prop in Hall as [Ha Hb].
    rewrite forallb_forall in Ha, Hb.
    destruct (match_expr "from" (rs_from spec)) as [m_from|e].
    + destruct (match_expr "to" (rs_to spec)) as [m_to|e]; [now eexists|].
      destruct Ht as [_ Ht]. apply Exists_exists in Ht as (k & Hin & Hk).
      specialize (Hb k Hin). apply Nat.leb_le in Hb. lia.
    + destruct Hf as [_ Hf]. apply Exists_exists in Hf as (k & Hin & Hk).
      specialize (Ha k Hin). apply Nat.leb_le in Ha. lia.
  - intros Hex. rewrite existsb_app in Hex.
    destruct (match_expr "from" (rs_from spec)) as [m_from|e]; cbn [bind].
    + destruct (match_expr "to" (rs_to spec)) as [m_to|e]; cbn [bind].
      * exfalso. apply orb_prop in Hex as [Hex | Hex];
          apply existsb_exists in Hex as (k & Hin & Hk); apply Nat.leb_le in Hk.
        -- rewrite Forall_forall in Hf. specialize (Hf k Hin). lia.
        -- rewrite Forall_forall in Ht. specialize (Ht k Hin). lia.
      * now destruct Ht as [-> _].
    + now destruct Hf as [-> _].
Qed.

Lemma rel_body_needs_one_colon_witness :
  build_rel_load_body
    {| rs_source := "semlinkref"; rs_type := "SYNSET"; rs_direction := None;
       rs_from := {| ep_label := "synset";
                     ep_match_on := ["synsetid1:synsetid:int"] |};
       rs_to := rs_to semantic_SYNSET;
       rs_properties := None |}
  = Raise ValueError.
Proof.
  apply (proj2 (rel_body_needs_one_colon _)). reflexivity.
Defined.

(** ** What [trim()] leaves *)

Section TrimFacts.

Variable E : Engine.

Lemma ltrim_split (s : ustring) :
  exists pre, s = (pre ++ ltrim E s)%list /\ forallb (is_space E) pre = true.
Proof.
  induction s as [|c s (pre & Hs & Hpre)]; cbn [ltrim].
  - now exists [].
  - destruct (is_space E c) eqn:Hc.
    + exists (c :: pre). cbn [app forallb]. rewrite Hc, Hpre. split; [|reflexivity].
      now rewrite <- Hs.
    + now exists [].
Qed.

Lemma ltrim_head (s : ustring) (c : char) (rest : ustring) :
  ltrim E s = c :: rest -> is_space E c = false.
Proof.
  induction s as [|d s IH]; cbn [ltrim]; [discriminate|].
  destruct (is_space E d) eqn:Hd; [exact IH|].
  intros H; inversion H; now subst.
Qed.

Lemma ltrim_fixed (s : ustring) (c : char) (rest : ustring) :
  ltrim E s = c :: rest -> ltrim E (c :: rest) = c :: rest.
Proof.
  intros H. cbn [ltrim]. now rewrite (ltrim_head s c rest H).
Qed.

Lemma ltrim_incl (s : ustring) (c : char) : In c (ltrim E s) -> In c s.
Proof.
  destruct (ltrim_split s) as (pre & Hs & _). intros H. rewrite Hs.
  apply in_or_app. now right.
Qed.

Lemma trim_incl (s : ustring) (c : char) : In c (trim E s) -> In c s.
Proof.
  unfold trim, rtrim. intros H.
  apply in_rev, ltrim_incl, in_rev, ltrim_incl in H. exact H.
Qed.

(** [trim()] has nothing to remove from what it returns. *)
Lemma trim_trim (s : ustring) : trim E (trim E s) = trim E s.
Proof.
  unfold trim, rtrim.
  destruct (ltrim E (rev (ltrim E s))) as [|c b] eqn:Hb; [reflexivity|].
  assert (Hfront : ltrim E (rev (c :: b)) = rev (c :: b)).
  { destruct (ltrim_split (rev (ltrim E s))) as (pre & Hs & _).
    rewrite Hb in Hs. apply (f_equal (@rev char)) in Hs.
    rewrite rev_involutive, rev_app_distr in Hs.
    destruct (rev (c :: b)) as [|x t] eqn:Hr.
    - reflexivity.
    - cbn [app] in Hs. cbn [ltrim]. now rewrite (ltrim_head s _ _ Hs). }
  rewrite Hfront, rev_involutive, (ltrim_fixed _ _ _ Hb). reflexivity.
Qed.

End TrimFacts.

Lemma ustring_eqb_eq (a b : ustring) : ustring_eqb a b = true <-> a = b.
Proof.
  revert b. induction a as [|x a IH]; intros [|y b]; cbn [ustring_eqb];
    try (split; [discriminate | discriminate]); [now split|].
  rewrite andb_true_iff, N.eqb_eq, IH. split.
  - now intros [-> ->].
  - intros H; inversion H; now split.
Qed.

Lemma strip_bom_fixed (s : ustring) :
  (forall c, In c s -> c <> BOM) -> strip_bom s = s.
Proof.
  intros H. unfold strip_bom. apply filter_all. intros c Hc.
  apply negb_true_iff, N.eqb_neq, H, Hc.
Qed.

Lemma strip_bom_none (s : ustring) (c : char) : In c (strip_bom s) -> c <> BOM.
Proof.
  unfold strip_bom. intros H. apply filter_In in H as [_ H].
  now apply negb_true_iff, N.eqb_neq in H.
Qed.

(** The string [type_cast] computes is clean. *)
Lemma normal_form_clean (E : Engine) (raw : ustring) :
  clean_string E (normal_form E raw).
Proof.
  unfold normal_form, clean_string. cbn zeta.
  destruct (ustring_eqb (trim E (strip_bom raw)) SENTINEL) eqn:Hs.
  - repeat split; discriminate.
  - repeat split.
    + apply strip_bom_fixed. intros c Hc.
      apply (strip_bom_none raw), (trim_incl E), Hc.
    + apply trim_trim.
    + intros H. apply ustring_eqb_eq in H. congruence.
Qed.

(** The first steps of [type_cast], on any sub-expression. *)
Lemma normal_form_eval (E : Engine) (r : row) (e : sexpr) (b : bool) :
  let e1 := STrim (SStripBom b e) in
  eval_s E r (SCase (BEq e1 SSentinel) SEmpty e1)
  = option_map (normal_form E) (eval_s E r e).
Proof.
  cbn [eval_s eval_b]. unfold normal_form.
  destruct (eval_s E r e) as [raw|]; cbn [option_map]; [|reflexivity].
  now destruct (ustring_eqb (trim E (strip_bom raw)) SENTINEL).
Qed.

Lemma type_cast_value (E : Engine) (spec : FieldSpec) (e : sexpr) (rho : env) :
  value_of_field E spec (eval_v E rho (type_cast_x e spec)).
Proof.
  unfold value_of_field, type_cast_x. cbn zeta.
  set (e1 := STrim (SStripBom true e)).
  pose proof (normal_form_eval E (env_row rho) e true) as Hnf. cbn zeta in Hnf.
  fold e1 in Hnf.
  set (e2 := SCase (BEq e1 SSentinel) SEmpty e1) in *.
  destruct (String.eqb (get_or (fs_type spec) "string") "int").
  { cbn [eval_v]. clear Hnf.
    destruct (eval_s E (env_row rho) _) as [u|]; [|now left].
    destruct (parse_int E u) as [z|]; cbn [of_option];
      [right; now eexists | now left]. }
  destruct (String.eqb (get_or (fs_type spec) "string") "float").
  { cbn [eval_v]. clear Hnf.
    destruct (eval_s E (env_row rho) _) as [u|]; [|now left].
    destruct (parse_float E u) as [f|]; cbn [of_option];
      [right; now eexists | now left]. }
  cbn [eval_v].
  destruct (mem "lower" (get_or (fs_transform spec) [])).
  - cbn [eval_s]. destruct (eval_s E (env_row rho) e2) as [u|]; cbn [option_map of_option];
      [|now left].
    right. eexists. split; [reflexivity | discriminate].
  - rewrite Hnf. destruct (eval_s E (env_row rho) e) as [raw|];
      cbn [option_map of_option]; [|now left].
    right. eexists. split; [reflexivity|]. intros _. apply normal_form_clean.
Qed.

(** X5.  The value a compiled field expression gives, for a key field
    ([type_cast]) and for any other ([nullable_cast]), on any row: it
    is [null] or of the declared type, an integer for [int], a float
    for [float] and a string for anything else; unless the field is
    case-folded, the string has no byte-order mark, has nothing left
    for [trim()] to remove, and is never the sentinel. *)
Theorem field_value_typed
  (E : Engine) (spec : FieldSpec) (e : sexpr) (rho : env) :
  value_of_field E spec (eval_v E rho (type_cast_x e spec))
  /\ value_of_field E spec (eval_v E rho (nullable_cast_x e spec)).
Proof.
  split; [apply type_cast_value|].
  unfold nullable_cast_x. destruct (get_or (fs_nullable spec) false);
    [|apply type_cast_value].
  cbn [eval_v]. destruct (eval_b E (env_row rho) _) as [[|]|];
    try apply type_cast_value.
  now left.
Qed.

(** ** Rows that a load passes over *)

Lemma forallb_false_in {A : Type} (P : A -> bool) (l : list A) (x : A) :
  In x l -> P x = false -> forallb P l = false.
Proof.
  intros Hin Hx. destruct (forallb P l) eqn:H; [|reflexivity].
  rewrite forallb_forall in H. rewrite (H x Hin) in Hx. discriminate.
Qed.

Lemma node_guard_cols_guard (E : Engine) (spec : NodeSpec) (st : node_load)
  (cols : list string) (r : row) :
  node_load_of spec = Some st ->
  node_guard_cols spec = Some cols ->
  (eval_b E r (nl_guard st) = Some true
   <-> forallb (guard_keeps E r) cols = true).
Proof.
  intros Hst Hcols.
  destruct (node_load_guard E spec st
              {| env_row := r; env_source_system := VNull;
                 env_ingest_batch := VNull; env_now := 0 |} empty_graph Hst)
    as (col & cols' & Hc & Hiff & _).
  unfold node_guard_cols in Hcols. rewrite Hc in Hcols.
  inversion Hcols; subst. exact Hiff.
Qed.

(** X6.  The skip-guard decides on the cells of the key columns alone: a
    row in which one of them is absent, or holds a cell that, trimmed
    and then freed of byte-order marks, is empty or the sentinel, goes
    through the body of the load without a change to the graph and
    without an error.  For a node load the columns are those of the
    key fields; for a relationship load those of the two endpoints
    and, when the relationship has a [linkid] property, [linkid]. *)
Theorem skip_guard_drops_rows (E : Engine) (rho : env) (g : graph) :
  (forall spec st cols,
      node_load_of spec = Some st ->
      node_guard_cols spec = Some cols ->
      forallb (guard_keeps E (env_row rho)) cols = false ->
      exec_node_load E st rho g = Done g)
  /\ (forall spec st,
        rel_load_of spec = Some st ->
        forallb (guard_keeps E (env_row rho)) (rel_guard_columns spec) = false ->
        exec_rel_load E st rho g = Done g)
  /\ (forall col,
        guard_keeps E (env_row rho) col = false
        <-> row_get (env_row rho) col = None
            \/ exists cell,
                 row_get (env_row rho) col = Some cell
                 /\ (strip_bom (trim E cell) = []
                     \/ strip_bom (trim E cell) = SENTINEL)).
Proof.
  repeat split.
  - intros spec st cols Hst Hcols Hskip.
    destruct (node_load_guard E spec st rho g Hst)
      as (col & cols' & Hc & _ & Hdone).
    unfold node_guard_cols in Hcols. rewrite Hc in Hcols.
    inversion Hcols; subst. now apply Hdone.
  - intros spec st Hst Hskip.
    now apply (proj2 (rel_load_guard E spec st rho g Hst)).
  - unfold guard_keeps, guard_blank.
    destruct (row_get (env_row rho) col) as [cell|]; [|now left].
    intros H. right. exists cell. split; [reflexivity|].
    apply negb_false_iff, orb_prop in H as [H | H];
      apply ustring_eqb_eq in H; auto.
  - unfold guard_keeps, guard_blank.
    intros [H | (cell & H & Hblank)]; rewrite H; [reflexivity|].
    apply negb_false_iff, orb_true_iff.
    destruct Hblank as [-> | ->]; [left | right]; reflexivity.
Qed.

Lemma skip_guard_drops_rows_witness :
  exists st,
    node_load_of synset_spec = Some st
    /\ exec_node_load ref_engine st (env_of [("pos", utext "n")]) two_synsets
       = Done two_synsets
    /\ exec_node_load ref_engine st
         (env_of [("synsetid", [32; 92; 78; 32]%N); ("pos", utext "n")])
         two_synsets
       = Done two_synsets.
Proof.
  let v := eval vm_compute in (node_load_of synset_spec) in
  match v with Some ?s => exists s end.
  split; [reflexivity|]. split.
  - apply (proj1 (skip_guard_drops_rows ref_engine (env_of [("pos", utext "n")])
                    two_synsets) synset_spec _ ["synsetid"]); reflexivity.
  - apply (proj1 (skip_guard_drops_rows ref_engine
                    (env_of [("synsetid", [32; 92; 78; 32]%N); ("pos", utext "n")])
                    two_synsets) synset_spec _ ["synsetid"]); reflexivity.
Defined.

(** ** Rows that make a load fail *)

Lemma collect_combine {A B : Type} (f : A -> option B) (xs : list A) :
  forall ys x y,
    collect f xs = Some ys -> In (x, y) (combine xs ys) -> In x xs /\ f x = Some y.
Proof.
  induction xs as [|a xs IH]; intros ys x y; cbn [collect combine]; [intros _ []|].
  destruct (f a) as [b|] eqn:Ha; [|discriminate].
  destruct (collect f xs) as [bs|]; [|discriminate].
  intros H; inversion H; subst; clear H. cbn [combine].
  intros [Heq | Hin].
  - inversion Heq; subst. split; [now left | exact Ha].
  - destruct (IH bs x y eq_refl Hin) as [Hx Hf]. split; [now right | exact Hf].
Qed.

(** The key of the [MERGE] pattern of a node load: every item is a key
    field with its mapping, compiled by [type_cast]. *)
Lemma node_key_items (spec : NodeSpec) (st : node_load) (kv : string * vexpr) :
  node_load_of spec = Some st ->
  In kv (nl_key st) ->
  exists fs,
    In (fst kv) (ns_key spec)
    /\ lookup (fst kv) (ns_mappings spec) = Some fs
    /\ snd kv = type_cast_x (SRow false (fs_column fs)) fs.
Proof.
  unfold node_load_of.
  destruct (collect (fun k => lookup k (ns_mappings spec)) (ns_key spec))
    as [[|spec0 specs]|] eqn:Hc; try discriminate.
  intros H; inversion H; subst; clear H. cbn [nl_key].
  intros Hin. apply in_map_iff in Hin as ([k fs] & <- & Hin). cbn [fst snd].
  destruct (collect_combine _ _ _ _ _ Hc Hin) as [Hk Hfs].
  now exists fs.
Qed.

Lemma collect_in {A B : Type} (f : A -> option B) (xs : list A) :
  forall ys x y,
    collect f xs = Some ys -> In x xs -> f x = Some y -> In y ys.
Proof.
  induction xs as [|a xs IH]; intros ys x y; cbn [collect]; [intros _ []|].
  destruct (f a) as [b|] eqn:Ha; [|discriminate].
  destruct (collect f xs) as [bs|]; [|discriminate].
  intros H; inversion H; subst; clear H.
  intros [-> | Hin] Hx.
  - left. congruence.
  - right. now apply (IH bs x y).
Qed.

(** A string field of a row that has the column is never [null]. *)
Lemma type_cast_string (E : Engine) (fs : FieldSpec) (col : string) (rho : env)
  (cell : ustring) :
  numeric_type fs = false ->
  row_get (env_row rho) col = Some cell ->
  is_null (eval_v E rho (type_cast_x (SRow false col) fs)) = false.
Proof.
  unfold numeric_type, type_cast_x. cbn zeta. intros Hnum Hcell.
  apply orb_false_elim in Hnum as [-> ->].
  destruct (mem "lower" (get_or (fs_transform fs) []));
    cbn [eval_v eval_s eval_b]; rewrite Hcell; cbn [option_map];
    destruct (ustring_eqb (trim E (strip_bom cell)) SENTINEL); reflexivity.
Qed.

(** X7.  When the [MERGE] of a node load refuses a row because a value
    of its key is [null], the [null] comes from a key field of type
    [int] or [float] whose cell passed the skip-guard but is not a
    number the database can read: a key field of type string never
    gives one.  And whenever the guard keeps the row and a key value
    is [null], the [MERGE] does refuse the row, whatever the graph and
    its constraints. *)
Theorem node_load_fails_on_unreadable_key
  (E : Engine) (spec : NodeSpec) (st : node_load) (rho : env) (g : graph) :
  node_load_of spec = Some st ->
  (exec_node_load E st rho g = Failed MergeNullProperty ->
   exists k fs cell,
     In k (ns_key spec)
     /\ lookup k (ns_mappings spec) = Some fs
     /\ numeric_type fs = true
     /\ row_get (env_row rho) (fs_column fs) = Some cell
     /\ guard_blank E cell = false
     /\ eval_v E rho (type_cast_x (SRow false (fs_column fs)) fs) = VNull)
  /\ (eval_b E (env_row rho) (nl_guard st) = Some true ->
      has_null (eval_props E rho (nl_key st)) = true ->
      exec_node_load E st rho g = Failed MergeNullProperty).
Proof.
  intros Hst. split.
  - unfold exec_node_load.
    destruct (eval_b E (env_row rho) (nl_guard st)) as [[|]|] eqn:Hg;
      try discriminate.
    destruct (has_null (eval_props E rho (nl_key st))) eqn:Hnull.
    2:{ unfold checked.
        destruct (filter _ _); destruct (constraints_hold _); discriminate. }
    intros _.
    unfold has_null, eval_props in Hnull.
    apply existsb_exists in Hnull as ([k v] & Hin & Hv).
    apply in_map_iff in Hin as (kv & Hkv & Hin).
    inversion Hkv; subst; clear Hkv. cbn [snd] in Hv.
    destruct (node_key_items spec st kv Hst Hin) as (fs & Hk & Hfs & Hval).
    rewrite Hval in Hv.
    destruct (node_guard_cols spec) as [cols|] eqn:Hcols.
    2:{ destruct (node_load_guard E spec st rho g Hst) as (c & cs & Hc & _).
        unfold node_guard_cols in Hcols. congruence. }
    pose proof (proj1 (node_guard_cols_guard E spec st cols (env_row rho)
                         Hst Hcols) Hg) as Hkeep.
    rewrite forallb_forall in Hkeep.
    assert (Hcol : In (fs_column fs) cols).
    { unfold node_guard_cols in Hcols.
      apply (collect_in _ _ _ (fst kv) _ Hcols Hk). now rewrite Hfs. }
    specialize (Hkeep _ Hcol). unfold guard_keeps in Hkeep.
    destruct (row_get (env_row rho) (fs_column fs)) as [cell|] eqn:Hcell;
      [|discriminate].
    apply negb_true_iff in Hkeep.
    exists (fst kv), fs, cell. repeat split; try assumption.
    + destruct (numeric_type fs) eqn:Hnum; [reflexivity|].
      rewrite (type_cast_string E fs _ rho cell Hnum Hcell) in Hv. discriminate.
    + destruct (eval_v E rho _); try discriminate. reflexivity.
  - intros Hg Hnull. unfold exec_node_load. now rewrite Hg, Hnull.
Qed.

Lemma node_load_fails_on_unreadable_key_witness :
  exists st,
    node_load_of synset_spec = Some st
    /\ exec_node_load ref_engine st
         (env_of [("synsetid", utext "abc"); ("pos", utext "n")]) two_synsets
       = Failed MergeNullProperty.
Proof.
  let v := eval vm_compute in (node_load_of synset_spec) in
  match v with Some ?s => exists s end.
  split; [reflexivity|].
  apply (proj2 (node_load_fails_on_unreadable_key ref_engine synset_spec _
                  (env_of [("synsetid", utext "abc"); ("pos", utext "n")])
                  two_synsets eq_refl)); reflexivity.
Defined.

(** ** Endpoints that are not there *)

Lemma props_match_null (pat have : props) :
  has_null pat = true -> props_match pat have = false.
Proof.
  unfold has_null, props_match. intros H.
  apply existsb_exists in H as ([k v] & Hin & Hv). cbn [snd] in Hv.
  apply (forallb_false_in _ _ (k, v) Hin). cbn [fst snd].
  destruct v; try discriminate. reflexivity.
Qed.

Lemma match_nodes_null (E : Engine) (p : node_pat) (rho : env) (g : graph) :
  has_null (eval_props E rho (np_props p)) = true -> match_nodes E p rho g = [].
Proof.
  intros H. unfold match_nodes.
  replace (filter _ (g_nodes g)) with (@nil node); [reflexivity|].
  symmetry. induction (g_nodes g) as [|n ns IH]; cbn [filter]; [reflexivity|].
  unfold node_matches at 1. rewrite (props_match_null _ _ H), andb_false_r.
  exact IH.
Qed.

Lemma list_prod_nil_r {A B : Type} (l : list A) : list_prod l (@nil B) = [].
Proof. induction l as [|a l IH]; cbn; [reflexivity | exact IH]. Qed.

Lemma endpoint_pairs_none (E : Engine) (st : rel_load) (rho : env) (g : graph) :
  match_nodes E (rl_from st) rho g = []
  \/ match_nodes E (rl_to st) rho g = [] ->
  endpoint_pairs E st rho g = [].
Proof.
  unfold endpoint_pairs. intros [-> | ->]; rewrite ?list_prod_nil_r;
    cbn [list_prod map]; now destruct (rl_out st).
Qed.

Lemma required_col_pair (k src_col target_prop : string) :
  match_on_pair k = Ok (src_col, target_prop) -> required_col k = src_col.
Proof.
  unfold match_on_pair, required_col.
  destruct (contains_char ":" k); [|intros H; now inversion H].
  destruct (split_on ":" k) as [|a [|b [|c l]]]; try discriminate.
  intros H; now inversion H.
Qed.

(** The endpoint pattern of a relationship load has, for every entry
    of [match_on], an item that reads the entry's column. *)
Lemma node_pat_reads (spec : EndpointSpec) (p : node_pat) (k : string) :
  node_pat_of spec = Some p ->
  In k (ep_match_on spec) ->
  exists target_prop,
    In (target_prop, VToInteger (guard_form (required_col k))) (np_props p).
Proof.
  unfold node_pat_of.
  destruct (collect match_part_x (ep_match_on spec)) as [parts|] eqn:Hc;
    [|discriminate].
  intros H Hin; inversion H; subst; clear H. cbn [np_props].
  revert parts Hc. induction (ep_match_on spec) as [|a l IH]; [destruct Hin|].
  intros parts. cbn [collect].
  destruct (match_part_x a) as [item|] eqn:Ha; [|discriminate].
  destruct (collect match_part_x l) as [items|]; [|discriminate].
  intros H; inversion H; subst; clear H.
  destruct Hin as [-> | Hin].
  - unfold match_part_x in Ha.
    destruct (match_on_pair k) as [[src_col target_prop]|] eqn:Hk;
      cbn [of_result] in Ha; [|discriminate].
    inversion Ha; subst. rewrite (required_col_pair _ _ _ Hk).
    exists target_prop. now left.
  - destruct (IH Hin items eq_refl) as (t & Ht). exists t. now right.
Qed.

Lemma unreadable_endpoint (E : Engine) (spec : EndpointSpec) (p : node_pat)
  (k : string) (rho : env) (g : graph) :
  node_pat_of spec = Some p ->
  In k (ep_match_on spec) ->
  eval_v E rho (VToInteger (guard_form (required_col k))) = VNull ->
  match_nodes E p rho g = [].
Proof.
  intros Hp Hin Hnull. apply match_nodes_null.
  destruct (node_pat_reads spec p k Hp Hin) as (t & Ht).
  unfold has_null, eval_props. apply existsb_exists.
  exists (t, eval_v E rho (VToInteger (guard_form (required_col k)))).
  split.
  - apply in_map_iff. now exists (t, VToInteger (guard_form (required_col k))).
  - cbn [snd]. now rewrite Hnull.
Qed.

(** X8.  A row of a relationship load whose endpoint is not in the graph
    creates nothing and raises nothing: when one of the two patterns of
    the [MATCH] finds no node the graph stays as it is, whatever the
    discriminator.  This is so in particular when the cell of an
    endpoint column, trimmed and freed of byte-order marks, is not an
    integer the database can read: the pattern then asks for a [null]
    property, which no node has. *)
Theorem dangling_endpoint_creates_nothing
  (E : Engine) (spec : RelSpec) (st : rel_load) (rho : env) (g : graph) :
  rel_load_of spec = Some st ->
  (match_nodes E (rl_from st) rho g = []
   \/ match_nodes E (rl_to st) rho g = [] ->
   exec_rel_load E st rho g = Done g)
  /\ (forall k,
        In k (ep_match_on (rs_from spec) ++ ep_match_on (rs_to spec))%list ->
        eval_v E rho (VToInteger (guard_form (required_col k))) = VNull ->
        exec_rel_load E st rho g = Done g).
Proof.
  intros Hst.
  assert (Hnone : match_nodes E (rl_from st) rho g = []
                  \/ match_nodes E (rl_to st) rho g = [] ->
                  exec_rel_load E st rho g = Done g).
  { intros H. unfold exec_rel_load. rewrite (endpoint_pairs_none E st rho g H).
    now destruct (eval_b E (env_row rho) (rl_guard st)) as [[|]|]. }
  split; [exact Hnone|].
  intros k Hin Hnull. apply Hnone.
  unfold rel_load_of in Hst.
  destruct (map required_col _) as [|col0 cols]; [discriminate|].
  destruct (node_pat_of (rs_from spec)) as [p_from|] eqn:Hf; [|discriminate].
  destruct (node_pat_of (rs_to spec)) as [p_to|] eqn:Ht; [|discriminate].
  inversion Hst; subst; clear Hst. cbn [rl_from rl_to].
  apply in_app_or in Hin as [Hin | Hin]; [left | right];
    eapply unreadable_endpoint; eassumption.
Qed.

Lemma dangling_endpoint_creates_nothing_witness :
  exists st,
    rel_load_of semantic_SYNSET = Some st
    /\ exec_rel_load ref_engine st (env_of (link_row "1" "9" "7")) two_synsets
       = Done two_synsets
    /\ exec_rel_load ref_engine st (env_of (link_row "1" "two" "x")) two_synsets
       = Done two_synsets.
Proof.
  let v := eval vm_compute in (rel_load_of semantic_SYNSET) in
  match v with Some ?s => exists s end.
  split; [reflexivity|]. split.
  - apply (proj1 (dangling_endpoint_creates_nothing ref_engine semantic_SYNSET _
                    (env_of (link_row "1" "9" "7")) two_synsets eq_refl)).
    right. reflexivity.
  - apply (proj2 (dangling_endpoint_creates_nothing ref_engine semantic_SYNSET _
                    (env_of (link_row "1" "two" "x")) two_synsets eq_refl)
             "synsetid2:synsetid"); [right; now left | reflexivity].
Defined.

(** ** What a load leaves alone *)

Lemma merge_edges_frame (rtype : string) (key : props) (pairs : list (nat * nat)) :
  forall (g : graph) (bound : list nat) (all : list (nat * nat)),
    incl pairs all ->
    exists added,
      g_nodes (fst (fold_left (merge_edge rtype key) pairs (g, bound)))
      = g_nodes g
      /\ g_edges (fst (fold_left (merge_edge rtype key) pairs (g, bound)))
         = (g_edges g ++ added)%list
      /\ Forall (fun e => e_type e = rtype /\ In (e_src e, e_dst e) all) added.
Proof.
  induction pairs as [|[src dst] pairs IH]; intros g bound all Hincl;
    cbn [fold_left].
  - exists []. rewrite app_nil_r. repeat split. constructor.
  - assert (Hrest : incl pairs all) by (intros x Hx; apply Hincl; now right).
    assert (Hstep : merge_edge rtype key (g, bound) (src, dst)
                    = match filter (edge_matches rtype src dst key) (g_edges g) with
                      | [] => (add_edge g rtype src dst key,
                               (bound ++ [g_next g])%list)
                      | f :: fs => (g, (bound ++ map e_id (f :: fs))%list)
                      end) by reflexivity.
    rewrite Hstep. clear Hstep.
    destruct (filter (edge_matches rtype src dst key) (g_edges g)) as [|f fs].
    + destruct (IH (add_edge g rtype src dst key) (bound ++ [g_next g])%list
                  all Hrest) as (added & Hn & He & Hall).
      eexists. split; [exact Hn|]. split.
      * rewrite He. cbn [add_edge g_edges]. now rewrite <- app_assoc.
      * constructor; [|exact Hall]. cbn [e_type e_src e_dst].
        split; [reflexivity|]. apply Hincl. now left.
    + now apply IH.
Qed.

Lemma set_on_edges_frame (g : graph) (ids : list nat)
  (assigns : list (string * value)) :
  map edge_frame (g_edges (set_on_edges g ids assigns)) = map edge_frame (g_edges g).
Proof.
  cbn [set_on_edges g_edges]. rewrite map_map. apply map_ext. intros e.
  now destruct (id_in (e_id e) ids).
Qed.

Lemma set_on_nodes_frame (g : graph) (ids : list nat)
  (assigns : list (string * value)) :
  map node_frame (g_nodes (set_on_nodes g ids assigns)) = map node_frame (g_nodes g).
Proof.
  cbn [set_on_nodes g_nodes]. rewrite map_map. apply map_ext. intros n.
  now destruct (id_in (n_id n) ids).
Qed.

(** What one row of a relationship load does to the graph. *)
Lemma rel_load_adds (E : Engine) (st : rel_load) (rho : env) (g g' : graph) :
  exec_rel_load E st rho g = Done g' ->
  g_nodes g' = g_nodes g
  /\ exists added,
       map edge_frame (g_edges g')
       = (map edge_frame (g_edges g) ++ map edge_frame added)%list
       /\ Forall (fun e => e_type e = rl_type st
                           /\ In (e_src e, e_dst e) (endpoint_pairs E st rho g))
                 added.
Proof.
  unfold exec_rel_load.
  assert (Hsame : Done g = Done g' ->
                  g_nodes g' = g_nodes g
                  /\ exists added,
                       map edge_frame (g_edges g')
                       = (map edge_frame (g_edges g) ++ map edge_frame added)%list
                       /\ Forall (fun e => e_type e = rl_type st
                                           /\ In (e_src e, e_dst e)
                                                 (endpoint_pairs E st rho g))
                                 added).
  { intros H; inversion H; subst. split; [reflexivity|].
    exists []. cbn [map]. rewrite app_nil_r. split; [reflexivity | constructor]. }
  destruct (eval_b E (env_row rho) (rl_guard st)) as [[|]|]; try exact Hsame.
  destruct (endpoint_pairs E st rho g) as [|pr prs] eqn:Hpairs; [exact Hsame|].
  destruct (has_null _); [discriminate|].
  destruct (merge_edges_frame (rl_type st) (eval_props E rho (rl_key st))
              (pr :: prs) g [] (pr :: prs) (incl_refl _))
    as (added & Hn & He & Hall).
  destruct (fold_left _ (pr :: prs) (g, [])) as [g1 bound].
  cbn [fst] in Hn, He. intros H; inversion H; subst; clear H.
  split; [exact Hn|]. exists added.
  rewrite set_on_edges_frame, He, map_app. split; [reflexivity | exact Hall].
Qed.

(** X9.  A load never deletes, relabels or rewires anything.  One row of a
    node load leaves every edge as it is, keeps every node with its
    identifier and its labels, and adds one node with the label of the
    spec, or none.  One row of a relationship load leaves every node as
    it is, keeps every edge with its identifier, type and endpoints,
    and adds only edges of the type of the spec between nodes that the
    two [MATCH] patterns found. *)
Theorem loads_are_confined (E : Engine) (rho : env) (g g' : graph) :
  (forall st,
      exec_node_load E st rho g = Done g' ->
      g_edges g' = g_edges g
      /\ exists added,
           map node_frame (g_nodes g')
           = (map node_frame (g_nodes g) ++ added)%list
           /\ (added = [] \/ added = [(g_next g, [nl_label st])]))
  /\ (forall st,
        exec_rel_load E st rho g = Done g' ->
        g_nodes g' = g_nodes g
        /\ exists added,
             map edge_frame (g_edges g')
             = (map edge_frame (g_edges g) ++ map edge_frame added)%list
             /\ Forall (fun e => e_type e = rl_type st
                                 /\ In (e_src e, e_dst e)
                                       (endpoint_pairs E st rho g)) added).
Proof.
  split.
  - intros st. unfold exec_node_load.
    assert (Hsame : Done g = Done g' ->
                    g_edges g' = g_edges g
                    /\ exists added,
                         map node_frame (g_nodes g')
                         = (map node_frame (g_nodes g) ++ added)%list
                         /\ (added = [] \/ added = [(g_next g, [nl_label st])])).
    { intros H; inversion H; subst. split; [reflexivity|].
      exists []. rewrite app_nil_r. split; [reflexivity | now left]. }
    destruct (eval_b E (env_row rho) (nl_guard st)) as [[|]|]; try exact Hsame.
    destruct (has_null _); [discriminate|].
    destruct (filter _ (g_nodes g)) as [|f fs];
      intros H; apply checked_done in H; subst.
    + split; [reflexivity|]. rewrite set_on_nodes_frame.
      cbn [add_node g_nodes]. rewrite map_app. cbn [map node_frame n_id n_labels].
      eexists. split; [reflexivity | now right].
    + split; [reflexivity|]. rewrite set_on_nodes_frame.
      exists []. rewrite app_nil_r. split; [reflexivity | now left].
  - intros st. apply rel_load_adds.
Qed.

Lemma loads_are_confined_witness :
  exists st g',
    rel_load_of semantic_SYNSET = Some st
    /\ exec_rel_load ref_engine st (env_of (link_row "1" "2" "7")) two_synsets
       = Done g'
    /\ g_nodes g' = g_nodes two_synsets
    /\ map edge_frame (g_edges g') = [(2, "SYNSET", 0, 1)].
Proof.
  let v := eval vm_compute in (rel_load_of semantic_SYNSET) in
  match v with Some ?s => pose (st := s) end.
  let v := eval vm_compute in
      (exec_rel_load ref_engine st (env_of (link_row "1" "2" "7")) two_synsets) in
  match v with Done ?g => pose (g1 := g) end.
  exists st, g1.
  split; [reflexivity|]. split; [reflexivity|]. split; [|reflexivity].
  exact (proj1 (proj2 (loads_are_confined ref_engine
                         (env_of (link_row "1" "2" "7")) two_synsets g1)
                      st eq_refl)).
Defined.

(** ** One row of a node load *)

Lemma assigned_fold (assigns : list (string * value)) (k : string) :
  forall acc : option value,
    fold_left (fun acc kv => if String.eqb k (fst kv) then Some (snd kv) else acc)
              assigns acc
    = match assigned assigns k with
      | Some v => Some v
      | None => acc
      end.
Proof.
  unfold assigned. induction assigns as [|kv assigns IH]; intros acc;
    cbn [fold_left]; [reflexivity|].
  rewrite IH, (IH (if String.eqb k (fst kv) then Some (snd kv) else None)).
  destruct (fold_left _ assigns None); [reflexivity|].
  now destruct (String.eqb k (fst kv)).
Qed.

Lemma assigned_cons (kv : string * value) (assigns : list (string * value))
  (k : string) :
  assigned (kv :: assigns) k
  = match assigned assigns k with
    | Some v => Some v
    | None => if String.eqb k (fst kv) then Some (snd kv) else None
    end.
Proof. unfold assigned at 1. cbn [fold_left]. apply assigned_fold. Qed.

Lemma assigned_app (a b : list (string * value)) (k : string) :
  assigned (a ++ b)%list k
  = match assigned b k with
    | Some v => Some v
    | None => assigned a k
    end.
Proof.
  induction a as [|kv a IH]; cbn [app].
  - now destruct (assigned b k).
  - rewrite !assigned_cons, IH. now destruct (assigned b k).
Qed.

Lemma assigned_absent (assigns : list (string * value)) (k : string) :
  ~ In k (map fst assigns) -> assigned assigns k = None.
Proof.
  induction assigns as [|kv assigns IH]; [reflexivity|].
  cbn [map]. intros H. rewrite assigned_cons, IH by (intros Hin; apply H; now right).
  destruct (String.eqb k (fst kv)) eqn:Hk; [|reflexivity].
  apply String.eqb_eq in Hk. elim H. now left.
Qed.

Lemma mem_In (x : string) (xs : list string) : mem x xs = true <-> In x xs.
Proof.
  induction xs as [|y xs IH]; cbn [mem In]; [split; [discriminate | intros []]|].
  rewrite orb_true_iff, String.eqb_eq, IH. split; intros [H | H]; auto.
Qed.

Section NodeStep.

Variable E : Engine.

(** A key field is compiled from the row alone. *)
Lemma type_cast_row (e : sexpr) (fs : FieldSpec) (rho rho' : env) :
  env_row rho' = env_row rho ->
  eval_v E rho' (type_cast_x e fs) = eval_v E rho (type_cast_x e fs).
Proof.
  intros Hrow. unfold type_cast_x. cbn zeta.
  destruct (String.eqb _ "int"); [cbn [eval_v]; now rewrite Hrow|].
  destruct (String.eqb _ "float"); cbn [eval_v]; now rewrite Hrow.
Qed.

Lemma node_key_row (spec : NodeSpec) (st : node_load) (rho rho' : env) :
  node_load_of spec = Some st ->
  env_row rho' = env_row rho ->
  eval_props E rho' (nl_key st) = eval_props E rho (nl_key st).
Proof.
  intros Hst Hrow. unfold eval_props. apply map_ext_in. intros kv Hin.
  destruct (node_key_items spec st kv Hst Hin) as (fs & _ & _ & ->).
  now rewrite (type_cast_row _ _ rho rho' Hrow).
Qed.

(** The [SET] clause of a node load gives every key field the value
    the [MERGE] pattern has for it. *)
Lemma node_writes_back (spec : NodeSpec) (st : node_load) (rho : env)
  (kv : string * value) :
  node_load_of spec = Some st ->
  NoDup (map fst (ns_mappings spec)) ->
  forallb (fun k => negb (mem k stamp_names)) (ns_key spec) = true ->
  In kv (eval_props E rho (nl_key st)) ->
  assigned (eval_set E rho (nl_set st)) (fst kv) = Some (snd kv).
Proof.
  intros Hst Hnd Hstamps Hin.
  unfold eval_props in Hin. apply in_map_iff in Hin as (item & <- & Hin).
  cbn [fst snd].
  destruct (node_key_items spec st item Hst Hin) as (fs & Hk & Hfs & Hval).
  rewrite Hval.
  assert (Hset : nl_set st
                 = (map (node_setter_x (ns_key spec)) (ns_mappings spec)
                    ++ stamps_x)%list).
  { unfold node_load_of in Hst.
    destruct (collect _ (ns_key spec)) as [[|s0 ss]|]; try discriminate.
    now inversion Hst. }
  rewrite Hset. unfold eval_set. rewrite map_app, assigned_app.
  rewrite forallb_forall in Hstamps. specialize (Hstamps _ Hk).
  apply negb_true_iff in Hstamps.
  rewrite (assigned_absent (map _ stamps_x)).
  2:{ cbn. intros Hs. apply (proj2 (mem_In (fst item) stamp_names)) in Hs.
      congruence. }
  apply (proj2 (mem_In _ _)) in Hk.
  clear Hset Hst Hin Hval Hstamps.
  induction (ns_mappings spec) as [|[k0 fs0] rest IH]; [discriminate|].
  cbn [map fst] in Hnd. inversion Hnd as [|? ? Hfresh Hnd']; subst.
  cbn [map]. rewrite assigned_cons. cbn [lookup] in Hfs.
  destruct (String.eqb (fst item) k0) eqn:Hk0.
  - apply String.eqb_eq in Hk0. subst k0. inversion Hfs; subst fs0.
    rewrite assigned_absent.
    + cbn [fst snd node_setter_x si_prop si_value]. now rewrite String.eqb_refl, Hk.
    + rewrite !map_map. cbn [fst].
      erewrite map_ext; [exact Hfresh|]. now intros [k1 fs1].
  - now rewrite (IH Hnd' Hfs).
Qed.

Variable st : node_load.

Lemma node_ids_bound (P : node -> bool) (l : list node) (n : node) :
  NoDup (map n_id l) -> In n l ->
  id_in (n_id n) (map n_id (filter P l)) = P n.
Proof.
  intros Hnd Hin. destruct (P n) eqn:HP.
  - apply id_in_iff, in_map, filter_In. now split.
  - destruct (id_in (n_id n) (map n_id (filter P l))) eqn:Hid; [|reflexivity].
    apply id_in_iff, in_map_iff in Hid as (m & Hm & Hmin).
    apply filter_In in Hmin as [Hml HPm].
    rewrite (NoDup_map_eq n_id l m n Hnd Hml Hin Hm) in HPm. congruence.
Qed.

Lemma self_equal_not_null (key : props) :
  forallb (fun kv => value_eqb (snd kv) (snd kv)) key = true ->
  has_null key = false.
Proof.
  unfold has_null. induction key as [|[k v] key IH]; cbn [forallb existsb snd];
    [reflexivity|].
  intros H. apply andb_prop in H as [Hv Hkey]. rewrite (IH Hkey).
  destruct v; try reflexivity. discriminate.
Qed.

(** One row whose key is written back: in what the row writes, before
    the constraints are checked, the nodes with the key are as many as
    before, or one when there was none. *)
Lemma node_step (rho : env) (g : graph) :
  wf_nodes g ->
  eval_b E (env_row rho) (nl_guard st) = Some true ->
  forallb (fun kv => value_eqb (snd kv) (snd kv)) (eval_props E rho (nl_key st))
  = true ->
  (forall kv, In kv (eval_props E rho (nl_key st)) ->
              assigned (eval_set E rho (nl_set st)) (fst kv) = Some (snd kv)) ->
  exists g',
    exec_node_load E st rho g = checked g'
    /\ wf_nodes g'
    /\ count_nodes (nl_label st) (eval_props E rho (nl_key st)) g'
       = Nat.max 1 (count_nodes (nl_label st) (eval_props E rho (nl_key st)) g)
    /\ length (g_nodes g')
       = length (g_nodes g)
         + (if Nat.eqb (count_nodes (nl_label st)
                          (eval_props E rho (nl_key st)) g) 0
            then 1 else 0).
Proof.
  intros [Hnd Hlt] Hguard Hself Hback.
  unfold exec_node_load. rewrite Hguard, (self_equal_not_null _ Hself).
  set (key := eval_props E rho (nl_key st)) in *.
  set (assigns := eval_set E rho (nl_set st)) in *.
  assert (Hmatch : forall ps, props_match key (set_all ps assigns) = true).
  { intros ps. unfold props_match. apply forallb_forall. intros kv Hin.
    rewrite prop_get_set_all, (Hback kv Hin). cbn [get_or].
    rewrite forallb_forall in Hself. now apply Hself. }
  unfold count_nodes.
  destruct (filter (node_matches (nl_label st) key) (g_nodes g))
    as [|f fs] eqn:Hfound.
  - (* no node has the key: one is created *)
    eexists. split; [reflexivity|].
    assert (Hold : map (fun n : node =>
                          if id_in (n_id n) [g_next g]
                          then {| n_id := n_id n; n_labels := n_labels n;
                                  n_props := set_all (n_props n) assigns |}
                          else n) (g_nodes g) = g_nodes g).
    { rewrite <- (map_id (g_nodes g)) at 2. apply map_ext_in. intros n Hin.
      rewrite Forall_forall in Hlt. specialize (Hlt n Hin).
      destruct (id_in (n_id n) [g_next g]) eqn:Hid; [|reflexivity].
      apply id_in_iff in Hid. destruct Hid as [Hid | []]. lia. }
    assert (Hnew : id_in (g_next g) [g_next g] = true)
      by (apply id_in_iff; now left).
    unfold wf_nodes. cbn [set_on_nodes add_node g_nodes g_next].
    rewrite !(map_app _ (g_nodes g)), Hold. cbn [map n_id]. rewrite Hnew.
    split; [split|split].
    + rewrite map_app. cbn [map n_id]. rewrite Forall_forall in Hlt.
      apply NoDup_app; [exact Hnd | repeat constructor; intros [] |].
      intros i Hi [Hi' | []]. subst i.
      apply in_map_iff in Hi as (n & Hn & Hin). specialize (Hlt n Hin). lia.
    + apply Forall_app. split.
      * eapply Forall_impl; [|exact Hlt]. cbn. intros; lia.
      * constructor; [cbn; lia | constructor].
    + rewrite filter_app, length_app, Hfound. cbn [filter length].
      unfold node_matches at 1. cbn [n_labels n_props mem].
      now rewrite String.eqb_refl, Hmatch.
    + rewrite length_app. reflexivity.
  - (* some nodes have it: they are bound and set *)
    eexists. split; [reflexivity|].
    set (upd := fun n : node =>
                  if id_in (n_id n) (map n_id (f :: fs))
                  then {| n_id := n_id n; n_labels := n_labels n;
                          n_props := set_all (n_props n) assigns |}
                  else n).
    assert (Hid : forall n, n_id (upd n) = n_id n)
      by (intros n; unfold upd; destruct (id_in _ _); reflexivity).
    unfold wf_nodes. cbn [set_on_nodes g_nodes g_next]. fold upd.
    split; [split|split].
    + rewrite map_map. now rewrite (map_ext _ n_id Hid).
    + apply Forall_map. eapply Forall_impl; [|exact Hlt].
      intros n Hn. cbn. now rewrite Hid.
    + rewrite filter_map_length.
      assert (Hupd : forall n, In n (g_nodes g) ->
                node_matches (nl_label st) key (upd n)
                = node_matches (nl_label st) key n).
      { intros n Hin. unfold upd. rewrite <- Hfound.
        rewrite (node_ids_bound _ _ _ Hnd Hin).
        destruct (node_matches (nl_label st) key n) eqn:Hm; [|exact Hm].
        unfold node_matches in Hm |- *. cbn [n_labels n_props].
        apply andb_prop in Hm as [-> _]. now rewrite Hmatch. }
      rewrite (filter_length_ext _ _ _ Hupd), Hfound. cbn [length]. lia.
    + rewrite length_map. cbn [length Nat.eqb]. lia.
Qed.

End NodeStep.

(** X10.  The [MERGE] of a node load keeps one node for a key.  For a spec
    whose mappings name each property once and whose key fields are
    not named as the provenance properties, on a graph with unique
    node identifiers, and for a row that passes the skip-guard with key
    values that are equal to themselves (any integer or string; not
    [null], not a float that is not a number): when the database
    accepts the row, it leaves as many nodes with the key as there
    were, or one when there was none, and has added a node only in
    that case; and when it accepts the same row again, in any batch
    and at any time, no node is added. *)
Theorem node_merge_keeps_one_node_per_key
  (E : Engine) (spec : NodeSpec) (st : node_load) (rho : env) (g g' : graph) :
  node_load_of spec = Some st ->
  NoDup (map fst (ns_mappings spec)) ->
  forallb (fun k => negb (mem k stamp_names)) (ns_key spec) = true ->
  wf_nodes g ->
  eval_b E (env_row rho) (nl_guard st) = Some true ->
  forallb (fun kv => value_eqb (snd kv) (snd kv))
          (eval_props E rho (nl_key st)) = true ->
  exec_node_load E st rho g = Done g' ->
  count_nodes (ns_label spec) (eval_props E rho (nl_key st)) g'
  = Nat.max 1 (count_nodes (ns_label spec) (eval_props E rho (nl_key st)) g)
  /\ length (g_nodes g')
     = length (g_nodes g)
       + (if Nat.eqb (count_nodes (ns_label spec)
                        (eval_props E rho (nl_key st)) g) 0
          then 1 else 0)
  /\ forall rho' g'',
       env_row rho' = env_row rho ->
       exec_node_load E st rho' g' = Done g'' ->
       length (g_nodes g'') = length (g_nodes g')
       /\ count_nodes (ns_label spec) (eval_props E rho (nl_key st)) g''
          = count_nodes (ns_label spec) (eval_props E rho (nl_key st)) g'.
Proof.
  intros Hst Hnd Hstamps Hwf Hguard Hself Hdone.
  assert (Hlabel : nl_label st = ns_label spec).
  { unfold node_load_of in Hst.
    destruct (collect _ (ns_key spec)) as [[|s0 ss]|]; try discriminate.
    now inversion Hst. }
  rewrite <- Hlabel.
  destruct (node_step E st rho g Hwf Hguard Hself)
    as (g1 & Hrun & Hwf' & Hcount & Hlen).
  { intros kv. now apply (node_writes_back E spec). }
  rewrite Hrun in Hdone. apply checked_done in Hdone. subst g'.
  split; [exact Hcount|]. split; [exact Hlen|].
  intros rho' g'' Hrow Hdone'.
  pose proof (node_key_row E spec st rho rho' Hst Hrow) as Hkey.
  destruct (node_step E st rho' g1 Hwf') as (g2 & Hrun' & _ & Hcount' & Hlen').
  - now rewrite Hrow.
  - now rewrite Hkey.
  - intros kv. now apply (node_writes_back E spec).
  - rewrite Hrun' in Hdone'. apply checked_done in Hdone'. subst g''.
    rewrite Hkey in Hcount', Hlen'. rewrite Hcount in Hlen', Hcount'.
    destruct (count_nodes (nl_label st) (eval_props E rho (nl_key st)) g);
      cbn [Nat.max Nat.eqb] in *; split; lia.
Qed.

(** The synset 1, loaded on the two synsets under the uniqueness
    constraint of [synsetid], is accepted and adds no node. *)
Lemma node_merge_keeps_one_node_per_key_witness :
  exists st g',
    node_load_of synset_spec = Some st
    /\ exec_node_load ref_engine st
         (env_of [("synsetid", utext " 1 "); ("pos", utext "N")]) two_synsets
       = Done g'
    /\ length (g_nodes g') = 2.
Proof.
  let v := eval vm_compute in (node_load_of synset_spec) in
  match v with Some ?s => pose (st := s) end.
  let v := eval vm_compute in
      (exec_node_load ref_engine st
         (env_of [("synsetid", utext " 1 "); ("pos", utext "N")]) two_synsets) in
  match v with Done ?g => pose (g1 := g) end.
  exists st, g1. split; [reflexivity|]. split; [reflexivity|].
  refine (proj1 (proj2 (node_merge_keeps_one_node_per_key ref_engine
                          synset_spec st
                          (env_of [("synsetid", utext " 1 "); ("pos", utext "N")])
                          two_synsets g1 eq_refl _ eq_refl _ eq_refl eq_refl
                          eq_refl))).
  - repeat constructor; cbn; intuition discriminate.
  - split; [repeat constructor; cbn; intuition discriminate
           | repeat constructor].
Defined.

(** A uniqueness constraint on a property that is not the key refuses
    the row that would give two nodes the same value: with [pos]
    unique among synsets and [n] on synset 1, the row that sets [n] on
    synset 2 fails, and so does its transaction. *)
Lemma uniqueness_refuses_second_value :
  exists st,
    node_load_of synset_spec = Some st
    /\ exec_node_load ref_engine st
         (env_of [("synsetid", utext "2"); ("pos", utext "n")])
         {| g_nodes :=
              [ {| n_id := 0; n_labels := ["synset"];
                   n_props := [("synsetid", VInt 1); ("pos", VStr (utext "n"))] |};
                {| n_id := 1; n_labels := ["synset"];
                   n_props := [("synsetid", VInt 2)] |} ];
            g_edges := [];
            g_next := 2;
            g_unique := [("synset", "synsetid"); ("synset", "pos")] |}
       = Failed ConstraintViolation.
Proof.
  let v := eval vm_compute in (node_load_of synset_spec) in
  match v with Some ?s => exists s end.
  split; reflexivity.
Qed.

(** ** How a run can end *)

Lemma exits_by_weaken {A : Type} (ok ok' : Z -> bool) (p : prog A) :
  (forall code, ok code = true -> ok' code = true) ->
  exits_by ok p -> exits_by ok' p.
Proof. intros Himp Hp tr code H. apply Himp, (Hp tr code H). Qed.

Lemma exits_ret {A : Type} (ok : Z -> bool) (a : A) : exits_by ok (ret a).
Proof. intros tr code H. discriminate H. Qed.

Lemma exits_emit (ok : Z -> bool) (ev : event) : exits_by ok (emit ev).
Proof. intros tr code H. discriminate H. Qed.

Lemma exits_throw {A : Type} (ok : Z -> bool) (e : exn) : exits_by ok (@throw A e).
Proof. intros tr code H. discriminate H. Qed.

Lemma exits_lift {A : Type} (ok : Z -> bool) (m : result A) : exits_by ok (lift m).
Proof. destruct m; [apply exits_ret | apply exits_throw]. Qed.

Lemma exits_exit {A : Type} (ok : Z -> bool) (code : Z) :
  ok code = true -> exits_by ok (@sys_exit A code).
Proof. intros Hok tr c H. inversion H; now subst. Qed.

Lemma exits_seq {A B : Type} (ok : Z -> bool) (m : prog A) (k : A -> prog B) :
  exits_by ok m -> (forall a, exits_by ok (k a)) -> exits_by ok (seq m k).
Proof.
  intros Hm Hk tr code. unfold seq. specialize (Hm tr code).
  destruct (m tr) as [tr1 [a|h]]; cbn [snd] in *.
  - apply Hk.
  - intros H. apply Hm. now inversion H.
Qed.

Lemma exits_for_each {A : Type} (ok : Z -> bool) (body : A -> prog unit)
  (xs : list A) :
  (forall x, exits_by ok (body x)) -> exits_by ok (for_each xs body).
Proof.
  intros Hbody. induction xs as [|x xs IH]; cbn [for_each].
  - apply exits_ret.
  - apply exits_seq; [apply Hbody | intros _; exact IH].
Qed.

Section RunEnds.

Variable W : World.

Lemma exits_neo_run (ok : Z -> bool) (cypher : string) (params : dict pyval) :
  exits_by ok (neo_run W cypher params).
Proof.
  intros tr code. unfold neo_run. destruct (w_db W tr cypher params); discriminate.
Qed.

Lemma exits_neo_run_void (ok : Z -> bool) (cypher : string) (params : dict pyval) :
  exits_by ok (neo_run_void W cypher params).
Proof.
  unfold neo_run_void. apply exits_seq; [apply exits_neo_run | intros; apply exits_ret].
Qed.

Lemma exits_clean_loop (ok : Z -> bool) (loops : nat) (chunk : Z) :
  forall total, exits_by ok (clean_loop W loops chunk total).
Proof.
  induction loops as [|n IH]; intros total; cbn [clean_loop].
  - apply exits_ret.
  - apply exits_seq; [apply exits_neo_run | intros rows].
    apply exits_seq; [apply exits_lift | intros c].
    destruct (Z.eqb c 0); [apply exits_ret | apply IH].
Qed.

Lemma exits_preview (ok : Z -> bool) (auto_yes : bool) (limit : Z) :
  exits_by ok (preview_and_maybe_clean W auto_yes limit).
Proof.
  unfold preview_and_maybe_clean, list_bad_synset_rels.
  apply exits_seq.
  - apply exits_seq; [apply exits_neo_run | intros rows].
    apply exits_seq; [apply exits_lift | intros total].
    destruct (0 <? total)%Z; [|apply exits_ret].
    apply exits_seq; [apply exits_neo_run | intros; apply exits_ret].
  - intros [total sample]. destruct (Z.eqb total 0); [apply exits_emit|].
    apply exits_seq; [apply exits_emit | intros _].
    apply exits_seq.
    + apply exits_for_each. intros s. unfold preview_row.
      apply exits_seq; [|intros _; apply exits_emit].
      apply exits_for_each. intros f.
      apply exits_seq; [apply exits_lift | intros; apply exits_ret].
    + intros _. destruct auto_yes.
      * apply exits_seq; [apply exits_clean_loop | intros; apply exits_emit].
      * apply exits_seq; [apply exits_emit | intros _].
        intros tr code. destruct (says_yes (w_input W tr)).
        -- revert tr code.
           apply exits_seq; [apply exits_clean_loop | intros; apply exits_emit].
        -- discriminate.
Qed.

Lemma exits_load_item (ok : Z -> bool) (args : Args) (mapping : Mapping)
  (sources : list SourceDecl) (params_common : dict pyval) (item : string) :
  exits_by ok (load_item W args mapping sources params_common item).
Proof.
  unfold load_item.
  destruct (String.prefix "nodes." item).
  { repeat (apply exits_seq; [apply exits_lift | intro]).
    apply exits_seq; [apply exits_emit | intros _]. apply exits_neo_run_void. }
  destruct (String.prefix "relationships." item).
  { repeat (apply exits_seq; [apply exits_lift | intro]).
    apply exits_seq; [apply exits_emit | intros _].
    apply exits_seq; [apply exits_neo_run_void | intros _].
    destruct (String.eqb _ "semantic_SYNSET"); [|apply exits_ret].
    destruct (a_auto_yes_clean_null_linkid args); [apply exits_preview|].
    destruct (a_preview_null_linkid args); [apply exits_preview | apply exits_ret]. }
  destruct (String.prefix "derived_relationships." item); [|apply exits_emit].
  apply exits_seq; [apply exits_emit | intros _].
  unfold promote_named_edges. destruct (m_promote mapping) as [|rules];
    [apply exits_ret|].
  apply exits_seq; [apply exits_lift | intros rs].
  apply exits_for_each. intros m. apply exits_neo_run_void.
Qed.

Lemma exits_preflight (args : Args) (mapping : Mapping)
  (sources : list SourceDecl) :
  exits_by (exit_cause args mapping) (preflight W args sources).
Proof.
  unfold preflight. destruct (_ || _); [|apply exits_ret].
  apply exits_seq; [apply exits_emit | intros _].
  apply exits_for_each. intros src. unfold preflight_source.
  apply exits_seq; [apply exits_emit | intros _].
  apply exits_seq; [|intros _; apply exits_seq; [|intros _]].
  - unfold check_checksum, sha256_of_url.
    destruct (a_verify_checksums args) eqn:Hflag; cbn [andb]; [|apply exits_ret].
    destruct (truthy (src_checksum src)); [|apply exits_ret].
    apply exits_seq.
    + destruct (w_sha256 W _); [apply exits_ret | apply exits_throw].
    + intros h. destruct (negb _); [|apply exits_emit].
      apply exits_seq; [apply exits_emit | intros _].
      apply exits_exit. unfold exit_cause. rewrite Hflag.
      now rewrite !orb_true_r.
  - unfold check_rowcount, count_rows_of_url.
    destruct (a_verify_rowcounts args) eqn:Hflag; [|apply exits_ret].
    destruct (src_rows src); [|apply exits_ret].
    apply exits_seq.
    + destruct (w_iter_lines W _); [apply exits_ret | apply exits_throw].
    + intros n. destruct (negb _); [|apply exits_emit].
      apply exits_seq; [apply exits_emit | intros _].
      apply exits_exit. unfold exit_cause. rewrite Hflag.
      now rewrite !orb_true_r.
  - unfold check_linkid.
    destruct (String.eqb (src_name src) "semlinkref"); [|apply exits_ret].
    destruct (count_missing_col_in_csv W _ _); [|apply exits_emit].
    destruct (0 <? z)%Z; [|apply exits_ret].
    destruct (a_strict_missing_linkid args) eqn:Hflag; [|apply exits_emit].
    apply exits_seq; [apply exits_emit | intros _].
    apply exits_exit. unfold exit_cause. rewrite Hflag.
    now rewrite !orb_true_r.
Qed.

Lemma exits_validate (assertion : option string) :
  exits_by (Z.eqb 5) (validate W assertion).
Proof.
  unfold validate.
  apply exits_seq; [apply exits_lift | intros cypher].
  apply exits_seq; [apply exits_neo_run | intros rows].
  destruct rows as [|r0 rest]; [apply exits_emit|].
  destruct (lookup "ok" r0) as [ok|]; [|apply exits_emit].
  destruct (ok_passes ok); [apply exits_emit|].
  apply exits_seq; [apply exits_emit | intros _]. now apply exits_exit.
Qed.

Lemma exits_validations (args : Args) (mapping : Mapping) :
  exits_by (exit_cause args mapping) (validations W mapping).
Proof.
  unfold validations.
  destruct (m_assertions mapping) as [|a rest] eqn:Has; [apply exits_ret|].
  rewrite <- Has. apply exits_for_each. intros assertion.
  apply (exits_by_weaken (Z.eqb 5)); [|apply exits_validate].
  intros code Hc. apply Z.eqb_eq in Hc. subst code.
  unfold exit_cause. rewrite Has. cbn. now rewrite ?orb_true_r.
Qed.

Lemma exits_startup (args : Args) (mapping : Mapping) :
  exits_by (fun code => Z.eqb code 2 && negb (truthy (a_password args)))
           (startup args mapping).
Proof.
  unfold startup. apply exits_seq.
  - destruct (truthy (a_password args)); [apply exits_ret|].
    apply exits_seq; [apply exits_emit | intros _]. now apply exits_exit.
  - intros _. apply exits_seq; [apply exits_emit | intros _].
    apply exits_for_each. intros s. apply exits_emit.
Qed.

Lemma exits_after_startup (args : Args) (mapping : Mapping)
  (manifest : list ManifestFile) :
  exits_by (exit_cause args mapping)
    (create_constraints W mapping ;;;
     preflight W args (map (annotate manifest) (m_sources mapping)) ;;;
     load_all W args mapping (map (annotate manifest) (m_sources mapping)) ;;;
     validations W mapping ;;;
     print (MsgComplete (batch_id_of W args mapping))).
Proof.
  apply exits_seq.
  { unfold create_constraints. apply exits_seq; [apply exits_lift | intros stmts].
    apply exits_for_each. intros stmt. apply exits_neo_run_void. }
  intros _. apply exits_seq; [apply exits_preflight | intros _].
  apply exits_seq.
  { unfold load_all. apply exits_for_each. intros item. apply exits_load_item. }
  intros _. apply exits_seq; [apply exits_validations | intros _].
  apply exits_emit.
Qed.

(** X11.  The exit codes of [main] are 2, 3, 4, 5 and 6, and each has one
    cause that the command line or the mapping must allow: 2 needs a
    missing or empty password, 3 needs [--verify-checksums], 4 needs
    [--verify-rowcounts], 5 needs a graph assertion in the mapping and
    6 needs [--strict-missing-linkid].  No load, no promotion and no
    cleanup can end the run with an exit code: what goes wrong there
    is an exception. *)
Theorem main_exit_codes
  (args : Args) (mapping : Mapping) (manifest : list ManifestFile)
  (tr : list event) (code : Z) :
  snd (main W args mapping manifest tr) = inr (Exit code) ->
  exit_cause args mapping code = true.
Proof.
  revert tr code. unfold main. apply exits_seq.
  - eapply exits_by_weaken; [|apply exits_startup].
    intros code H. cbv beta in H. unfold exit_cause. now rewrite H.
  - intros _. apply exits_after_startup.
Qed.


End RunEnds.

Lemma main_exit_codes_witness :
  snd (main quiet_world checking_args (mapping_with ["nodes.synset"])
            manifest_abc [])
  = inr (Exit 3)
  /\ exit_cause checking_args (mapping_with ["nodes.synset"]) 3 = true.
Proof.
  split; [reflexivity|].
  apply (main_exit_codes quiet_world checking_args
           (mapping_with ["nodes.synset"]) manifest_abc []).
  reflexivity.
Defined.


(** ** Before the first load *)

Section BeforeLoads.

Variable W : World.

(** X13.  A declaration that [build_constraint_cypher] cannot read stops the
    run before anything is sent: the statements are all built before
    the first one is run, so not even the statements of the
    declarations before the bad one reach the database. *)
Theorem bad_index_declaration_sends_nothing
  (args : Args) (mapping : Mapping) (manifest : list ManifestFile) (e : exn) :
  truthy (a_password args) = true ->
  build_constraint_cypher (m_indexes mapping) = Raise e ->
  exists tr,
    main W args mapping manifest [] = (tr, inr (Uncaught e))
    /\ db_calls tr = [].
Proof.
  intros Hpw Hbuild. unfold main.
  destruct (startup_done args mapping [] Hpw) as [Hres Hcalls].
  destruct (startup args mapping []) as [tr0 r0] eqn:Hstart.
  cbn [fst snd] in *. subst r0.
  rewrite (seq_inl _ _ _ _ _ Hstart).
  exists tr0. split; [|exact Hcalls].
  unfold create_constraints. rewrite Hbuild. reflexivity.
Qed.

(** Whatever ends the preflight at a source, after the sources before
    it have passed: the run ends the same way, and the database has
    received the constraint and index statements and nothing else. *)
Lemma preflight_stops (args : Args) (mapping : Mapping)
  (manifest : list ManifestFile) (stmts : list string)
  (pre post : list SourceDecl) (src : SourceDecl) (h : halt) :
  truthy (a_password args) = true ->
  a_verify_checksums args || a_verify_rowcounts args
  || a_strict_missing_linkid args = true ->
  build_constraint_cypher (m_indexes mapping) = Ok stmts ->
  (forall tr stmt, w_db W tr stmt [] <> None) ->
  map (annotate manifest) (m_sources mapping) = (pre ++ src :: post)%list ->
  (forall s tr, In s pre -> snd (preflight_source W args s tr) = inl tt) ->
  (forall tr, snd (preflight_source W args src tr) = inr h) ->
  exists tr,
    main W args mapping manifest [] = (tr, inr h) /\ db_calls tr = stmts.
Proof.
  intros Hpw Hflag Hbuild Hdb Hsrc Hpre Hstop.
  unfold main. rewrite Hsrc.
  destruct (startup_done args mapping [] Hpw) as [Hres0 Hcalls0].
  destruct (startup args mapping []) as [tr0 r0] eqn:Hstart.
  cbn [fst snd] in *. subst r0.
  rewrite (seq_inl _ _ _ _ _ Hstart).
  rewrite (seq_inl _ _ _ _ _ (create_constraints_done W mapping stmts tr0 Hbuild Hdb)).
  set (tr1 := (tr0 ++ map (fun stmt => DbRun stmt []) stmts)%list).
  assert (Hpf : snd (preflight W args (pre ++ src :: post) tr1) = inr h
                /\ db_calls (fst (preflight W args (pre ++ src :: post) tr1))
                   = db_calls tr1).
  { split.
    - unfold preflight. rewrite Hflag.
      unfold seq at 1. unfold print at 1, emit. rewrite for_each_app.
      destruct (preflight_passes W args pre Hpre (tr1 ++ [Stdout MsgPreflight])%list)
        as [Hres _].
      rewrite Hres. cbn [for_each]. unfold seq at 1.
      specialize (Hstop (fst (for_each pre (preflight_source W args)
                                (tr1 ++ [Stdout MsgPreflight])%list))).
      destruct (preflight_source W args src _) as [tr2 r]. cbn [snd] in Hstop.
      now subst r.
    - assert (Hsilent : silent (preflight W args (pre ++ src :: post))).
      { unfold preflight. destruct (_ || _); [|apply silent_ret].
        apply silent_seq; [apply silent_print | intros _].
        apply silent_for_each. intros s. apply silent_preflight_source. }
      apply Hsilent. }
  destruct Hpf as [Hres1 Hcalls1].
  destruct (preflight W args (pre ++ src :: post) tr1) as [tr2 r2] eqn:Hrun.
  cbn [fst snd] in *. subst r2.
  rewrite (seq_inr _ _ _ _ _ Hrun).
  exists tr2. split; [reflexivity|].
  rewrite Hcalls1. unfold tr1. rewrite db_calls_app, Hcalls0, db_calls_runs.
  reflexivity.
Qed.

(** X14.  With a password, [--verify-rowcounts], a database that accepts the
    constraint statements, and a source whose manifest row count
    differs from the number of lines of the file less the header line,
    while the sources before it pass and its own checksum check passes:
    the run ends with exit code 4, and by then the database has
    received the constraint and index statements and nothing else.  A
    file with no line at all counts as no row, like a file with only
    its header. *)
Theorem rowcount_mismatch_exits_4
  (args : Args) (mapping : Mapping) (manifest : list ManifestFile)
  (stmts : list string) (pre post : list SourceDecl) (src : SourceDecl)
  (rows : Z) (lines : list ustring) :
  truthy (a_password args) = true ->
  a_verify_rowcounts args = true ->
  build_constraint_cypher (m_indexes mapping) = Ok stmts ->
  (forall tr stmt, w_db W tr stmt [] <> None) ->
  map (annotate manifest) (m_sources mapping) = (pre ++ src :: post)%list ->
  (forall s tr, In s pre -> snd (preflight_source W args s tr) = inl tt) ->
  (forall tr,
      snd (check_checksum W args src
             (to_url W (a_base_url args) (src_path src)) tr) = inl tt) ->
  src_rows src = Some rows ->
  w_iter_lines W (to_url W (a_base_url args) (src_path src)) = Some lines ->
  Z.max 0 (Z.of_nat (length lines) - 1) <> rows ->
  exists tr,
    main W args mapping manifest [] = (tr, inr (Exit 4))
    /\ db_calls tr = stmts.
Proof.
  intros Hpw Hflag Hbuild Hdb Hsrc Hpre Hsum Hrows Hlines Hneq.
  apply (preflight_stops args mapping manifest stmts pre post src);
    try assumption.
  - rewrite Hflag. now rewrite orb_true_r.
  - intros tr. unfold preflight_source.
    rewrite (seq_inl _ _ tr _ tt) by reflexivity.
    set (url := to_url W (a_base_url args) (src_path src)) in *.
    set (tr1 := (tr ++ [Stdout (MsgSource (src_name src) url)])%list).
    specialize (Hsum tr1).
    destruct (check_checksum W args src url tr1) as [tr2 r2] eqn:H2.
    cbn [snd] in Hsum. subst r2. rewrite (seq_inl _ _ _ _ _ H2).
    unfold check_rowcount, count_rows_of_url. rewrite Hflag, Hrows, Hlines.
    apply Z.eqb_neq in Hneq. unfold seq, ret, eprint, emit, sys_exit.
    now rewrite Hneq.
Qed.

(** X15.  The inspection of [linkid] in [semlinkref] can end a run in one
    way: with exit code 6, in strict mode, when the file could be
    fetched and read and has a row with no [linkid].  A file that
    cannot be fetched, or that the [csv] reader fails on, is only
    reported with a warning on the standard output, in strict mode
    too; any other source is not inspected. *)
Theorem linkid_scan_stops_only_in_strict_mode
  (args : Args) (name url : string) (tr : list event) (h : halt) :
  (snd (check_linkid W args name url tr) = inr h
   <-> h = Exit 6
       /\ name = "semlinkref"
       /\ a_strict_missing_linkid args = true
       /\ exists data,
            w_text W url = Some data
            /\ scan_raises (w_csv_raises W) data = false
            /\ (0 < count_missing_in (w_csv W) data (utext "linkid"))%Z)
  /\ (name = "semlinkref" ->
      w_text W url = None
      \/ (exists data,
             w_text W url = Some data
             /\ scan_raises (w_csv_raises W) data = true) ->
      check_linkid W args name url tr
      = ((tr ++ [Stdout MsgCannotInspect])%list, inl tt))
  /\ (name <> "semlinkref" -> check_linkid W args name url tr = (tr, inl tt)).
Proof.
  split; [|split].
  - unfold check_linkid, count_missing_col_in_csv.
    destruct (String.eqb name "semlinkref") eqn:Hname.
    2:{ split; [discriminate|]. intros (_ & -> & _). discriminate Hname. }
    apply String.eqb_eq in Hname. subst name.
    destruct (w_text W url) as [data|].
    2:{ split; [discriminate|]. now intros (_ & _ & _ & d & Hd & _). }
    destruct (scan_raises (w_csv_raises W) data) eqn:Hraise.
    { split; [discriminate|]. intros (_ & _ & _ & d & Hd & Hr & _).
      inversion Hd; subst d. congruence. }
    destruct (0 <? count_missing_in (w_csv W) data (utext "linkid"))%Z eqn:Hpos.
    2:{ split; [discriminate|]. intros (_ & _ & _ & d & Hd & _ & Hlt).
        inversion Hd; subst d. apply Z.ltb_lt in Hlt. congruence. }
    destruct (a_strict_missing_linkid args).
    2:{ split; [discriminate|]. now intros (_ & _ & Hs & _). }
    split.
    + intros H. inversion H; subst. repeat split. exists data.
      split; [reflexivity|]. split; [exact Hraise | now apply Z.ltb_lt].
    + now intros (-> & _).
  - intros -> Hfail. unfold check_linkid, count_missing_col_in_csv.
    rewrite String.eqb_refl.
    destruct Hfail as [-> | (data & -> & ->)]; reflexivity.
  - intros Hname. unfold check_linkid.
    apply String.eqb_neq in Hname. now rewrite Hname.
Qed.

End BeforeLoads.

Lemma bad_index_declaration_sends_nothing_witness :
  exists tr,
    main quiet_world plain_args
      {| m_version := None; m_sources := [];
         m_nodes := []; m_relationships := []; m_promote := NoPromotion;
         m_indexes :=
           [ synset_constraint;
             {| idx_kind := Some "rel_index"; idx_label := None;
                idx_type := Some "SYNSET"; idx_properties := Some [];
                idx_unique := None |} ];
         m_source_system := None; m_assertions := []; m_load_order := [] |}
      [] []
    = (tr, inr (Uncaught IndexError))
    /\ db_calls tr = [].
Proof.
  apply (bad_index_declaration_sends_nothing quiet_world); reflexivity.
Defined.

Lemma rowcount_mismatch_exits_4_witness :
  exists tr,
    main quiet_world
      {| a_password := Some "secret"; a_mapping := "wordnet-3.0.json";
         a_base_url := "https://host/wn"; a_batch_id := Some "b1";
         a_verify_checksums := false; a_verify_rowcounts := true;
         a_strict_missing_linkid := false; a_preview_null_linkid := false;
         a_auto_yes_clean_null_linkid := false; a_preview_limit := 50;
         a_batch_rows := 10000 |}
      (mapping_with ["nodes.synset"]) manifest_abc []
    = (tr, inr (Exit 4))
    /\ db_calls tr
       = ["CREATE CONSTRAINT IF NOT EXISTS FOR (n:`synset`) REQUIRE n.`synsetid` IS UNIQUE;"].
Proof.
  apply (rowcount_mismatch_exits_4 quiet_world _ (mapping_with ["nodes.synset"])
           manifest_abc _ [] [] (annotate manifest_abc synset_source) 2 []);
    try reflexivity; try discriminate.
  intros s tr [].
Defined.

(** In strict mode, a file with rows without [linkid] ends the run
    when it is read, and is only reported when the reader fails on
    it. *)
Lemma linkid_scan_stops_only_in_strict_mode_witness :
  snd (check_linkid links_world strict_args "semlinkref"
         "https://host/wn/semlinkref.csv" [])
  = inr (Exit 6)
  /\ check_linkid unreadable_world strict_args "semlinkref"
       "https://host/wn/semlinkref.csv" []
     = ([Stdout MsgCannotInspect], inl tt).
Proof.
  split.
  - apply (proj2 (proj1 (linkid_scan_stops_only_in_strict_mode links_world
                           strict_args "semlinkref"
                           "https://host/wn/semlinkref.csv" [] (Exit 6)))).
    repeat split. exists links_csv. repeat split.
  - apply (proj1 (proj2 (linkid_scan_stops_only_in_strict_mode unreadable_world
                           strict_args "semlinkref"
                           "https://host/wn/semlinkref.csv" [] (Exit 6)))
                 eq_refl).
    right. exists links_csv. split; reflexivity.
Defined.

(** ** The scan and the marks at the start of a file *)

Lemma splitlines_from_app (data : ustring) :
  forall cur pre,
    splitlines_from (cur ++ pre)%list data
    = prepend_line (rev pre) (splitlines_from cur data).
Proof.
  induction data as [|c rest IH]; intros cur pre; cbn [splitlines_from].
  - destruct cur as [|x cur].
    + cbn [app prepend_line]. destruct pre as [|y pre]; [reflexivity|].
      destruct (rev (y :: pre)) eqn:Hr; [|reflexivity].
      apply (f_equal (@length char)) in Hr. rewrite length_rev in Hr.
      discriminate.
    + cbn [prepend_line]. rewrite <- rev_app_distr. reflexivity.
  - destruct (is_linebreak c).
    + cbn [prepend_line]. now rewrite rev_app_distr.
    + apply (IH (c :: cur)).
Qed.

Lemma splitlines_mark (data : ustring) :
  splitlines (BOM :: data) = prepend_line [BOM] (splitlines data).
Proof.
  unfold splitlines. change (splitlines_from [] (BOM :: data))
    with (splitlines_from ([] ++ [BOM])%list data).
  apply splitlines_from_app.
Qed.

Lemma count_missing_mark (reader : ustring -> list (list ustring))
  (data col : ustring) :
  dict_reader (reader []) = [] ->
  count_missing_in reader (BOM :: data) col = count_missing_in reader data col.
Proof.
  intros Hempty. unfold count_missing_in. rewrite splitlines_mark.
  destruct (splitlines data) as [|l ls]; cbn [prepend_line app].
  - cbn. now rewrite Hempty.
  - reflexivity.
Qed.

(** X16.  Byte-order marks at the start of the file do not change what
    [count_missing_col_in_csv] counts, however many there are, for a
    reader that finds no data row in an empty text; and what it counts
    is at most the number of data rows. *)
Theorem scan_ignores_leading_marks
  (reader : ustring -> list (list ustring)) (data col : ustring) (n : nat) :
  dict_reader (reader []) = [] ->
  count_missing_in reader (repeat BOM n ++ data)%list col
  = count_missing_in reader data col
  /\ (0 <= count_missing_in reader data col
      <= Z.of_nat (length (data_rows reader data)))%Z.
Proof.
  intros Hempty. split.
  - induction n as [|n IH]; cbn [repeat app]; [reflexivity|].
    now rewrite count_missing_mark.
  - unfold count_missing_in, data_rows, scan_records.
    destruct (splitlines data) as [|l ls]; [cbn; lia|].
    pose proof (filter_length_le (cell_missing col)
                  (dict_reader (reader (csv_input (l :: ls))))).
    lia.
Qed.

Lemma scan_ignores_leading_marks_witness :
  count_missing_in plain_csv
    (BOM :: BOM :: utext "a,linkid" ++ 10%N :: utext "1,7" ++ 10%N :: utext "2,\N")
    (utext "linkid")
  = 1%Z.
Proof.
  refine (eq_trans
            (proj1 (scan_ignores_leading_marks plain_csv
                      (utext "a,linkid" ++ 10%N :: utext "1,7"
                       ++ 10%N :: utext "2,\N")%list
                      (utext "linkid") 2 eq_refl)) _).
  reflexivity.
Defined.

(** ** The manifest and the sources *)

Lemma mani_lookup_fold (files : list ManifestFile) (base : string) :
  forall acc,
    fold_left (fun acc f => if String.eqb (mf_name f) base then Some f else acc)
              files acc
    = match mani_lookup files base with
      | Some f => Some f
      | None => acc
      end.
Proof.
  unfold mani_lookup. induction files as [|f files IH]; intros acc;
    cbn [fold_left]; [reflexivity|].
  rewrite IH, (IH (if String.eqb (mf_name f) base then Some f else None)).
  destruct (fold_left _ files None); [reflexivity|].
  now destruct (String.eqb (mf_name f) base).
Qed.

Lemma mani_lookup_none (files : list ManifestFile) (base : string) :
  forallb (fun f => negb (String.eqb (mf_name f) base)) files = true ->
  mani_lookup files base = None.
Proof.
  induction files as [|f files IH]; [reflexivity|].
  cbn [forallb]. intros H. apply andb_prop in H as [Hf Hrest].
  apply negb_true_iff in Hf.
  unfold mani_lookup. cbn [fold_left]. rewrite Hf.
  exact (IH Hrest).
Qed.

Lemma mani_lookup_last (pre post : list ManifestFile) (f : ManifestFile)
  (base : string) :
  mf_name f = base ->
  forallb (fun f' => negb (String.eqb (mf_name f') base)) post = true ->
  mani_lookup (pre ++ f :: post)%list base = Some f.
Proof.
  intros Hf Hpost. unfold mani_lookup. rewrite fold_left_app. cbn [fold_left].
  rewrite Hf, String.eqb_refl, mani_lookup_fold.
  now rewrite (mani_lookup_none post base Hpost).
Qed.

(** X17.  How the manifest reaches a source.  The entry is found by the file
    name of the source's path, not by the source's name, and of several
    entries with that file name the last one counts.  A source with no
    entry keeps what the mapping says of it.  A source with an entry
    takes the entry's digest and row count in place of its own, also
    when the entry has none: the checksum of such a source is then not
    verified, whatever the mapping declared. *)
Theorem manifest_entry_replaces_declared
  (W : World) (args : Args) (files pre post : list ManifestFile)
  (f : ManifestFile) (s : SourceDecl) (url : string) :
  (src_name (annotate files s) = src_name s
   /\ src_path (annotate files s) = src_path s)
  /\ (forallb (fun f' => negb (String.eqb (mf_name f') (basename (src_path s))))
              files = true ->
      annotate files s = s)
  /\ (files = (pre ++ f :: post)%list ->
      mf_name f = basename (src_path s) ->
      forallb (fun f' => negb (String.eqb (mf_name f') (basename (src_path s))))
              post = true ->
      src_checksum (annotate files s) = mf_sha256 f
      /\ src_rows (annotate files s) = mf_rows f
      /\ (mf_sha256 f = None ->
          check_checksum W args (annotate files s) url = ret tt)).
Proof.
  unfold annotate. split; [split|split].
  - now destruct (mani_lookup files _).
  - now destruct (mani_lookup files _).
  - intros Hnone. now rewrite (mani_lookup_none _ _ Hnone).
  - intros -> Hf Hpost. rewrite (mani_lookup_last pre post f _ Hf Hpost).
    cbn [src_checksum src_rows]. split; [reflexivity|]. split; [reflexivity|].
    intros Hsha. unfold check_checksum. cbn [src_checksum]. rewrite Hsha.
    cbn [truthy]. now rewrite andb_false_r.
Qed.

Lemma manifest_entry_replaces_declared_witness :
  src_checksum
    (annotate
       [ {| mf_name := "synset.csv"; mf_sha256 := Some "abc123";
            mf_rows := Some 2%Z |};
         {| mf_name := "synset.csv"; mf_sha256 := None; mf_rows := None |} ]
       {| src_name := "synset"; src_path := "stage/src/synset.csv";
          src_checksum := Some "abc123"; src_rows := Some 2%Z |})
  = None.
Proof.
  exact (proj1 (proj2 (proj2 (manifest_entry_replaces_declared quiet_world
           plain_args
           [ {| mf_name := "synset.csv"; mf_sha256 := Some "abc123";
                mf_rows := Some 2%Z |};
             {| mf_name := "synset.csv"; mf_sha256 := None; mf_rows := None |} ]
           [ {| mf_name := "synset.csv"; mf_sha256 := Some "abc123";
                mf_rows := Some 2%Z |} ] []
           {| mf_name := "synset.csv"; mf_sha256 := None; mf_rows := None |}
           {| src_name := "synset"; src_path := "stage/src/synset.csv";
              src_checksum := Some "abc123"; src_rows := Some 2%Z |}
           "")) eq_refl eq_refl eq_refl)).
Defined.

(** ** What a step adds to the trace *)

Lemma emits_ret {A : Type} (P : event -> bool) (a : A) : emits_only P (ret a).
Proof. intros tr. exists []. now rewrite app_nil_r. Qed.

Lemma emits_throw {A : Type} (P : event -> bool) (e : exn) :
  emits_only P (@throw A e).
Proof. intros tr. exists []. now rewrite app_nil_r. Qed.

Lemma emits_exit {A : Type} (P : event -> bool) (code : Z) :
  emits_only P (@sys_exit A code).
Proof. intros tr. exists []. now rewrite app_nil_r. Qed.

Lemma emits_lift {A : Type} (P : event -> bool) (m : result A) :
  emits_only P (lift m).
Proof. destruct m; [apply emits_ret | apply emits_throw]. Qed.

Lemma emits_emit (P : event -> bool) (ev : event) :
  P ev = true -> emits_only P (emit ev).
Proof. intros H tr. exists [ev]. cbn. now rewrite H. Qed.

Lemma emits_seq {A B : Type} (P : event -> bool) (m : prog A) (k : A -> prog B) :
  emits_only P m -> (forall a, emits_only P (k a)) -> emits_only P (seq m k).
Proof.
  intros Hm Hk tr. unfold seq. destruct (Hm tr) as (new & Htr & Hnew).
  destruct (m tr) as [tr1 [a|h]]; cbn [fst] in *.
  - destruct (Hk a tr1) as (new' & Htr' & Hnew'). exists (new ++ new')%list.
    rewrite Htr', Htr, <- app_assoc, forallb_app, Hnew, Hnew'. now split.
  - now exists new.
Qed.

Lemma emits_for_each {A : Type} (P : event -> bool) (body : A -> prog unit)
  (xs : list A) :
  (forall x, emits_only P (body x)) -> emits_only P (for_each xs body).
Proof.
  intros Hbody. induction xs as [|x xs IH]; cbn [for_each].
  - apply emits_ret.
  - apply emits_seq; [apply Hbody | intros _; exact IH].
Qed.

Section Cleanup.

Variable W : World.

Lemma emits_neo_run (P : event -> bool) (cypher : string) (params : dict pyval) :
  P (DbRun cypher params) = true -> emits_only P (neo_run W cypher params).
Proof.
  intros H tr. exists [DbRun cypher params]. unfold neo_run.
  destruct (w_db W tr cypher params); cbn; now rewrite H.
Qed.

Lemma emits_neo_run_void (P : event -> bool) (cypher : string)
  (params : dict pyval) :
  P (DbRun cypher params) = true -> emits_only P (neo_run_void W cypher params).
Proof.
  intros H. unfold neo_run_void.
  apply emits_seq; [now apply emits_neo_run | intros; apply emits_ret].
Qed.

(** The rounds of the cleanup loop: one statement each, never more
    rounds than the loop has. *)
Lemma clean_loop_rounds (loops : nat) (chunk : Z) :
  forall total tr,
    exists k,
      k <= loops /\ (1 <= loops -> 1 <= k)
      /\ fst (clean_loop W loops chunk total tr)
         = (tr ++ repeat (delete_event chunk) k)%list.
Proof.
  induction loops as [|n IH]; intros total tr; cbn [clean_loop].
  - exists 0. cbn. rewrite app_nil_r. repeat split; lia.
  - unfold seq at 1. unfold neo_run. fold (delete_event chunk).
    destruct (w_db W tr delete_query [("chunk", PInt chunk)]) as [rows|].
    2:{ exists 1. cbn [fst repeat]. repeat split; lia. }
    unfold seq at 1.
    destruct (first_count "c" rows) as [c|e]; cbn [lift ret throw].
    2:{ exists 1. cbn [fst repeat]. repeat split; lia. }
    destruct (Z.eqb c 0).
    + exists 1. cbn [fst repeat ret]. repeat split; lia.
    + destruct (IH (total + c)%Z (tr ++ [delete_event chunk])%list)
        as (k & Hk & _ & Htr).
      exists (S k). rewrite Htr, <- app_assoc. cbn [repeat app].
      repeat split; lia.
Qed.

(** While the database reports [c] deleted relationships, with [c] not
    zero, the loop goes on to its last round and returns normally. *)
Lemma clean_loop_steady (loops : nat) (chunk c : Z) :
  c <> 0%Z ->
  (forall tr, w_db W tr delete_query [("chunk", PInt chunk)]
              = Some [[("c", PInt c)]]) ->
  forall total tr,
    clean_loop W loops chunk total tr
    = ((tr ++ repeat (delete_event chunk) loops)%list,
       inl (total + Z.of_nat loops * c)%Z).
Proof.
  intros Hc Hdb. induction loops as [|n IH]; intros total tr; cbn [clean_loop].
  - cbn [repeat Z.of_nat]. rewrite app_nil_r, Z.mul_0_l, Z.add_0_r. reflexivity.
  - unfold seq at 1. unfold neo_run. rewrite Hdb. fold (delete_event chunk).
    unfold seq at 1.
    change (first_count "c" [[("c", PInt c)]]) with (Ok c). cbn [lift ret].
    apply Z.eqb_neq in Hc. rewrite Hc. rewrite IH, <- app_assoc.
    cbn [repeat app]. do 2 f_equal. rewrite Nat2Z.inj_succ. ring.
Qed.

(** X18.  [clean_bad_synset_rels] is bounded.  Whatever the database
    answers, a call sends the [DELETE] statement once at least and a
    thousand times at most, and adds nothing else to the trace.  When
    every round reports relationships deleted, the call stops after the
    thousandth round and returns the sum as if it were done: what is
    left is not reported.  When the first round reports none, or
    returns no row, the call sends one statement and returns 0. *)
Theorem cleanup_is_bounded (chunk : Z) (tr : list event) :
  (exists k,
      1 <= k <= 1000
      /\ fst (clean_bad_synset_rels W chunk tr)
         = (tr ++ repeat (delete_event chunk) k)%list)
  /\ (forall c,
        c <> 0%Z ->
        (forall tr', w_db W tr' delete_query [("chunk", PInt chunk)]
                     = Some [[("c", PInt c)]]) ->
        clean_bad_synset_rels W chunk tr
        = ((tr ++ repeat (delete_event chunk) 1000)%list, inl (1000 * c)%Z))
  /\ (w_db W tr delete_query [("chunk", PInt chunk)] = Some []
      \/ w_db W tr delete_query [("chunk", PInt chunk)] = Some [[("c", PInt 0)]] ->
      clean_bad_synset_rels W chunk tr
      = ((tr ++ [delete_event chunk])%list, inl 0%Z)).
Proof.
  unfold clean_bad_synset_rels. split; [|split].
  - destruct (clean_loop_rounds 1000 chunk 0 tr) as (k & Hk & Hone & Htr).
    exists k. split; [lia | exact Htr].
  - intros c Hc Hdb. rewrite (clean_loop_steady 1000 chunk c Hc Hdb).
    reflexivity.
  - change 1000 with (S 999). cbn [clean_loop]. unfold seq at 1, neo_run.
    intros [-> | ->]; reflexivity.
Qed.

(** The preview with the question: no [DELETE] without a yes. *)
Lemma emits_preview_asked (limit : Z) :
  (forall tr, says_yes (w_input W tr) = false) ->
  emits_only (fun ev => negb (is_cleanup ev))
             (preview_and_maybe_clean W false limit).
Proof.
  intros Hno. unfold preview_and_maybe_clean, list_bad_synset_rels.
  apply emits_seq.
  - apply emits_seq; [now apply emits_neo_run | intros rows].
    apply emits_seq; [apply emits_lift | intros total].
    destruct (0 <? total)%Z; [|apply emits_ret].
    apply emits_seq; [now apply emits_neo_run | intros; apply emits_ret].
  - intros [total sample]. destruct (Z.eqb total 0); [now apply emits_emit|].
    apply emits_seq; [now apply emits_emit | intros _].
    apply emits_seq.
    + apply emits_for_each. intros s. unfold preview_row.
      apply emits_seq; [|intros _; now apply emits_emit].
      apply emits_for_each. intros f.
      apply emits_seq; [apply emits_lift | intros; apply emits_ret].
    + intros _. apply emits_seq; [now apply emits_emit | intros _].
      intros tr. rewrite Hno. revert tr. now apply emits_emit.
Qed.

(** X19.  Nothing is deleted without consent.  When the operator is asked
    and the answer, without the white space around it, is not [y] or
    [Y], the preview sends no [DELETE]: every statement it sends is a
    read.  And when the count of relationships without [linkid] is
    zero, the preview sends the count query, prints that there is
    nothing to clean, and neither asks nor deletes, also with
    [--auto-yes-clean-null-linkid]. *)
Theorem cleanup_needs_consent (auto_yes : bool) (limit : Z) (tr : list event) :
  ((forall tr', says_yes (w_input W tr') = false) ->
   exists new,
     fst (preview_and_maybe_clean W false limit tr) = (tr ++ new)%list
     /\ forallb (fun ev => negb (is_cleanup ev)) new = true)
  /\ (forall rows,
        w_db W tr count_query [] = Some rows ->
        first_count "n" rows = Ok 0%Z ->
        preview_and_maybe_clean W auto_yes limit tr
        = ((tr ++ [DbRun count_query []; Stdout MsgNoNullLinkid])%list, inl tt)).
Proof.
  split.
  - intros Hno. apply (emits_preview_asked limit Hno).
  - intros rows Hdb Hcount.
    unfold preview_and_maybe_clean, list_bad_synset_rels.
    unfold seq at 1. unfold seq at 1. unfold neo_run at 1. rewrite Hdb.
    unfold seq at 1. rewrite Hcount. cbn [lift ret Z.ltb Z.compare Z.eqb].
    unfold print, emit. now rewrite <- app_assoc.
Qed.

Lemma emits_load_item (P : event -> bool) (args : Args) (mapping : Mapping)
  (sources : list SourceDecl) (params_common : dict pyval) (item : string) :
  a_auto_yes_clean_null_linkid args = false ->
  a_preview_null_linkid args = false ->
  (forall m, P (Stdout m) = true) ->
  (forall cypher url,
      P (DbRun cypher (params_common ++ [("url", PStr url)])%list) = true) ->
  (forall cypher lid, P (DbRun cypher [("lid", PInt lid)]) = true) ->
  emits_only P (load_item W args mapping sources params_common item).
Proof.
  intros Hauto Hprev Hout Hload Hlid. unfold load_item. rewrite Hauto, Hprev.
  destruct (String.prefix "nodes." item).
  { repeat (apply emits_seq; [apply emits_lift | intro]).
    apply emits_seq; [apply emits_emit, Hout | intros _].
    apply emits_neo_run_void, Hload. }
  destruct (String.prefix "relationships." item).
  { repeat (apply emits_seq; [apply emits_lift | intro]).
    apply emits_seq; [apply emits_emit, Hout | intros _].
    apply emits_seq; [apply emits_neo_run_void, Hload | intros _].
    destruct (String.eqb _ "semantic_SYNSET"); apply emits_ret. }
  destruct (String.prefix "derived_relationships." item);
    [|apply emits_emit, Hout].
  apply emits_seq; [apply emits_emit, Hout | intros _].
  unfold promote_named_edges. destruct (m_promote mapping) as [|rules];
    [apply emits_ret|].
  apply emits_seq; [apply emits_lift | intros rs].
  apply emits_for_each. intros m. apply emits_neo_run_void, Hlid.
Qed.

Lemma emits_preflight (P : event -> bool) (args : Args)
  (sources : list SourceDecl) :
  (forall m, P (Stdout m) = true) ->
  (forall m, P (Stderr m) = true) ->
  emits_only P (preflight W args sources).
Proof.
  intros Hout Herr. unfold preflight. destruct (_ || _); [|apply emits_ret].
  apply emits_seq; [apply emits_emit, Hout | intros _].
  apply emits_for_each. intros src. unfold preflight_source.
  apply emits_seq; [apply emits_emit, Hout | intros _].
  apply emits_seq; [|intros _; apply emits_seq; [|intros _]].
  - unfold check_checksum, sha256_of_url.
    destruct (_ && _); [|apply emits_ret].
    apply emits_seq.
    + destruct (w_sha256 W _); [apply emits_ret | apply emits_throw].
    + intros h. destruct (negb _); [|apply emits_emit, Hout].
      apply emits_seq; [apply emits_emit, Herr | intros _; apply emits_exit].
  - unfold check_rowcount, count_rows_of_url.
    destruct (a_verify_rowcounts args), (src_rows src); try apply emits_ret.
    apply emits_seq.
    + destruct (w_iter_lines W _); [apply emits_ret | apply emits_throw].
    + intros n. destruct (negb _); [|apply emits_emit, Hout].
      apply emits_seq; [apply emits_emit, Herr | intros _; apply emits_exit].
  - unfold check_linkid.
    destruct (String.eqb (src_name src) "semlinkref"); [|apply emits_ret].
    destruct (count_missing_col_in_csv W _ _); [|apply emits_emit, Hout].
    destruct (0 <? z)%Z; [|apply emits_ret].
    destruct (a_strict_missing_linkid args); [|apply emits_emit, Hout].
    apply emits_seq; [apply emits_emit, Herr | intros _; apply emits_exit].
Qed.

(** X20.  A run without [--preview-null-linkid] and without
    [--auto-yes-clean-null-linkid] is unattended and deletes nothing by
    itself: whatever the mapping, the sources and the database do, the
    trace only grows, the operator is never asked, and the [DELETE] of
    the cleanup loop is never sent. *)
Theorem run_without_flags_is_unattended
  (args : Args) (mapping : Mapping) (manifest : list ManifestFile)
  (tr : list event) :
  a_auto_yes_clean_null_linkid args = false ->
  a_preview_null_linkid args = false ->
  exists new,
    fst (main W args mapping manifest tr) = (tr ++ new)%list
    /\ forallb (fun ev => negb (is_cleanup ev || is_prompt ev)) new = true.
Proof.
  intros Hauto Hprev. revert tr.
  change (emits_only (fun ev => negb (is_cleanup ev || is_prompt ev))
                     (main W args mapping manifest)).
  unfold main. apply emits_seq.
  { unfold startup. apply emits_seq.
    - destruct (truthy (a_password args)); [apply emits_ret|].
      apply emits_seq; [now apply emits_emit | intros _; apply emits_exit].
    - intros _. apply emits_seq; [now apply emits_emit | intros _].
      apply emits_for_each. intros s. now apply emits_emit. }
  intros _. apply emits_seq.
  { unfold create_constraints. apply emits_seq; [apply emits_lift | intros stmts].
    apply emits_for_each. intros stmt. now apply emits_neo_run_void. }
  intros _. apply emits_seq; [now apply emits_preflight | intros _].
  apply emits_seq.
  { unfold load_all. apply emits_for_each. intros item.
    now apply emits_load_item. }
  intros _. apply emits_seq; [|intros _; now apply emits_emit].
  unfold validations. apply emits_for_each. intros assertion. unfold validate.
  apply emits_seq; [apply emits_lift | intros cypher].
  apply emits_seq; [now apply emits_neo_run | intros rows].
  destruct rows as [|r0 rest]; [now apply emits_emit|].
  destruct (lookup "ok" r0) as [ok|]; [|now apply emits_emit].
  destruct (ok_passes ok); [now apply emits_emit|].
  apply emits_seq; [now apply emits_emit | intros _; apply emits_exit].
Qed.

End Cleanup.

(** A database that reports seven deleted relationships in every
    round, and a world with it. *)
Lemma cleanup_is_bounded_witness :
  clean_bad_synset_rels
    {| w_db := fun _ _ _ => Some [[("c", PInt 7)]];
       w_sha256 := w_sha256 quiet_world;
       w_iter_lines := w_iter_lines quiet_world;
       w_text := w_text quiet_world;
       w_csv := w_csv quiet_world;
       w_csv_raises := w_csv_raises quiet_world;
       w_urljoin := w_urljoin quiet_world;
       w_input := w_input quiet_world;
       w_time := 0 |} 20000 []
  = (repeat (delete_event 20000) 1000, inl 7000%Z).
Proof.
  apply (proj1 (proj2 (cleanup_is_bounded _ 20000 [])) 7%Z);
    [discriminate | reflexivity].
Defined.

Lemma cleanup_needs_consent_witness :
  preview_and_maybe_clean quiet_world true 50 []
  = ([DbRun count_query []; Stdout MsgNoNullLinkid], inl tt).
Proof.
  apply (proj2 (cleanup_needs_consent quiet_world true 50 []) []); reflexivity.
Defined.

Lemma run_without_flags_is_unattended_witness :
  exists new,
    fst (main quiet_world plain_args
           (mapping_with ["relationships.semantic_SYNSET"]) [] [])
    = new
    /\ forallb (fun ev => negb (is_cleanup ev || is_prompt ev)) new = true.
Proof.
  destruct (run_without_flags_is_unattended quiet_world plain_args
              (mapping_with ["relationships.semantic_SYNSET"]) [] []
              eq_refl eq_refl) as (new & Htr & Hnew).
  exists new. split; [exact Htr | exact Hnew].
Defined.

(** ** What stays of a load that fails *)

Section PartialCommit.

Variables (R G : Type).
Variable step : R -> G -> outcome G.

Lemma in_transactions_fail (k : nat) (r : R) (post : list R) (why : db_error)
  (pre : list R) :
  forall (committed current reached : G) (filled : nat),
    filled < k ->
    run_rows step pre current = Done reached ->
    step r reached = Failed why ->
    exists kept,
      in_transactions step k (pre ++ r :: post) committed current filled
      = (kept, Some why)
      /\ ((filled + length pre < k /\ kept = committed)
          \/ exists n j,
               n + filled = j * k /\ 1 <= j /\ n <= length pre
               /\ length pre < n + k
               /\ run_rows step (firstn n pre) current = Done kept).
Proof.
  induction pre as [|a pre IH]; intros committed current reached filled Hlt Hrun Hfail.
  - cbn [run_rows] in Hrun. inversion Hrun; subst reached.
    exists committed. cbn [app in_transactions]. rewrite Hfail.
    split; [reflexivity|]. left. cbn [length]. split; [lia | reflexivity].
  - cbn [run_rows] in Hrun. cbn [app in_transactions].
    destruct (step a current) as [g1|] eqn:Ha; [|discriminate].
    destruct (Nat.eqb (S filled) k) eqn:Hfull.
    + apply Nat.eqb_eq in Hfull.
      destruct (IH g1 g1 reached 0 ltac:(lia) Hrun Hfail)
        as (kept & Hres & [[Hshort ->] | (n & j & Hn & Hj & Hle & Hlen & Hkept)]).
      * exists g1. split; [exact Hres|]. right. exists 1, 1. cbn [length firstn].
        repeat split; try lia. cbn [run_rows]. now rewrite Ha.
      * exists kept. split; [exact Hres|]. right. exists (S n), (S j).
        cbn [length firstn run_rows]. rewrite Ha.
        repeat split; try lia. exact Hkept.
    + apply Nat.eqb_neq in Hfull.
      destruct (IH committed g1 reached (S filled) ltac:(lia) Hrun Hfail)
        as (kept & Hres & [[Hshort ->] | (n & j & Hn & Hj & Hle & Hlen & Hkept)]).
      * exists committed. split; [exact Hres|]. left. cbn [length].
        split; [lia | reflexivity].
      * exists kept. split; [exact Hres|]. right. exists (S n), j.
        cbn [length firstn run_rows]. rewrite Ha.
        repeat split; try lia. exact Hkept.
Qed.

End PartialCommit.

(** X21.  When a row of a batched load fails, what stays is what the whole
    chunks before it did.  For a chunk size [k] from one on, rows
    before the failing one that all succeed, and [j] the number of
    whole chunks of [k] rows among them: the load reports the error of
    the failing row and leaves the graph as the first [j * k] rows
    made it; the rows of the chunk that was open are rolled back with
    the failing one, and no row after it is run. *)
Theorem failed_load_keeps_whole_chunks
  (E : Engine) (b : load_body) (k : Z) (pre post : list env) (rho : env)
  (g reached : graph) (why : db_error) :
  (1 <= k)%Z ->
  run_rows (exec_body E b) pre g = Done reached ->
  exec_body E b rho reached = Failed why ->
  exists j kept,
    j * Z.to_nat k <= length pre < j * Z.to_nat k + Z.to_nat k
    /\ run_rows (exec_body E b) (firstn (j * Z.to_nat k) pre) g = Done kept
    /\ exec_load E b k (pre ++ rho :: post) g = (kept, Some why).
Proof.
  intros Hk Hrun Hfail. unfold exec_load, run_batched.
  destruct (k <=? 0)%Z eqn:Hle; [apply Z.leb_le in Hle; lia|].
  destruct (in_transactions_fail _ _ (exec_body E b) (Z.to_nat k) rho post why
              pre g g reached 0 ltac:(lia) Hrun Hfail)
    as (kept & Hres & [[Hshort ->] | (n & j & Hn & Hj & Hlen & Hlt & Hkept)]).
  - exists 0, g. cbn [Nat.mul firstn run_rows]. repeat split; try lia.
    exact Hres.
  - exists j, kept. rewrite Nat.add_0_r in Hn. subst n.
    repeat split; try lia; assumption.
Qed.

Lemma failed_load_keeps_whole_chunks_witness :
  exists st kept,
    node_load_of synset_spec = Some st
    /\ exec_load ref_engine (NodeBody st) 2
         [ env_of [("synsetid", utext "1"); ("pos", utext "n")];
           env_of [("synsetid", utext "2"); ("pos", utext "n")];
           env_of [("synsetid", utext "3"); ("pos", utext "n")];
           env_of [("synsetid", utext "abc"); ("pos", utext "n")];
           env_of [("synsetid", utext "5"); ("pos", utext "n")] ]
         empty_graph
       = (kept, Some MergeNullProperty)
    /\ length (g_nodes kept) = 2.
Proof.
  let v := eval vm_compute in (node_load_of synset_spec) in
  match v with Some ?s => pose (st := s) end.
  let v := eval vm_compute in
      (run_rows (exec_body ref_engine (NodeBody st))
         [ env_of [("synsetid", utext "1"); ("pos", utext "n")];
           env_of [("synsetid", utext "2"); ("pos", utext "n")];
           env_of [("synsetid", utext "3"); ("pos", utext "n")] ]
         empty_graph) in
  match v with Done ?g => pose (reached := g) end.
  destruct (failed_load_keeps_whole_chunks ref_engine (NodeBody st) 2
              [ env_of [("synsetid", utext "1"); ("pos", utext "n")];
                env_of [("synsetid", utext "2"); ("pos", utext "n")];
                env_of [("synsetid", utext "3"); ("pos", utext "n")] ]
              [ env_of [("synsetid", utext "5"); ("pos", utext "n")] ]
              (env_of [("synsetid", utext "abc"); ("pos", utext "n")])
              empty_graph reached MergeNullProperty)
    as (j & kept & Hj & Hkept & Hload); [lia | reflexivity | reflexivity |].
  exists st, kept. split; [reflexivity|]. split; [exact Hload|].
  change (Z.to_nat 2) with 2 in Hj, Hkept. cbn [length] in Hj.
  assert (j = 1) by lia. subst j.
  vm_compute in Hkept. inversion Hkept. reflexivity.
Defined.

(** ** The skip-guard and the key *)

Section GuardAndKey.

Variable E : Engine.
Hypothesis sound : engine_sound E.

Lemma forallb_rev {A : Type} (P : A -> bool) (l : list A) :
  forallb P l = true -> forallb P (rev l) = true.
Proof.
  rewrite !forallb_forall. intros H x Hx. apply H. now apply in_rev.
Qed.

Lemma forallb_filter {A : Type} (P Q : A -> bool) (l : list A) :
  forallb P l = true -> forallb P (filter Q l) = true.
Proof.
  rewrite !forallb_forall. intros H x Hx. apply H.
  now apply filter_In in Hx as [Hx _].
Qed.

(** A string is what [trim()] returns of it, between blanks. *)
Lemma trim_split (s : ustring) :
  exists pre post,
    s = (pre ++ trim E s ++ post)%list
    /\ forallb (is_space E) pre = true
    /\ forallb (is_space E) post = true.
Proof.
  destruct (ltrim_split E s) as (pre & Hs & Hpre).
  destruct (ltrim_split E (rev (ltrim E s))) as (p2 & Hr & Hp2).
  exists pre, (rev p2). unfold trim, rtrim. repeat split.
  - rewrite <- rev_app_distr, <- Hr, rev_involutive. exact Hs.
  - exact Hpre.
  - now apply forallb_rev.
Qed.

Lemma ltrim_blanks (a l : ustring) :
  forallb (is_space E) a = true -> ltrim E (a ++ l)%list = ltrim E l.
Proof.
  induction a as [|c a IH]; cbn [app forallb ltrim]; [reflexivity|].
  intros H. apply andb_prop in H as [-> Ha]. now apply IH.
Qed.

Lemma trim_sentinel_padded (a b : ustring) :
  forallb (is_space E) a = true ->
  forallb (is_space E) b = true ->
  trim E (a ++ SENTINEL ++ b)%list = SENTINEL.
Proof.
  intros Ha Hb. destruct sound as (_ & Hbs & Hn & _).
  unfold trim, rtrim. rewrite (ltrim_blanks a _ Ha).
  unfold SENTINEL. cbn [app ltrim]. rewrite Hbs.
  change (92%N :: 78%N :: b) with ([92%N; 78%N] ++ b)%list.
  rewrite rev_app_distr, (ltrim_blanks (rev b) _ (forallb_rev _ _ Hb)).
  cbn [rev app ltrim]. now rewrite Hn.
Qed.

(** X22.  The skip-guard drops no row that has a key.  When the guard finds
    the cell of a key column empty, the string [type_cast] makes of
    that cell is empty too; for a cell without byte-order mark the two
    agree: the guard finds the cell empty exactly when the key is the
    empty string.  The string is the value of the field when its type
    is neither [int] nor [float] and it is not case-folded. *)
Theorem guard_drops_only_empty_keys (cell : ustring) :
  (guard_blank E cell = true -> normal_form E cell = [])
  /\ (strip_bom cell = cell ->
      normal_form E cell = [] -> guard_blank E cell = true)
  /\ (forall (spec : FieldSpec) (col : string) (rho : env),
        numeric_type spec = false ->
        mem "lower" (get_or (fs_transform spec) []) = false ->
        row_get (env_row rho) col = Some cell ->
        eval_v E rho (type_cast_x (SRow false col) spec)
        = VStr (normal_form E cell)).
Proof.
  split; [|split].
  - unfold guard_blank, normal_form. cbn zeta. intros H.
    destruct (trim_split cell) as (pre & post & Hcell & Hpre & Hpost).
    assert (Hstrip : strip_bom cell
                     = (strip_bom pre ++ strip_bom (trim E cell)
                        ++ strip_bom post)%list).
    { rewrite Hcell at 1. unfold strip_bom. now rewrite !filter_app. }
    apply orb_prop in H as [H | H]; apply ustring_eqb_eq in H;
      rewrite Hstrip, H.
    + cbn [app]. rewrite (trim_spaces E); [reflexivity|].
      rewrite forallb_app. unfold strip_bom.
      now rewrite !forallb_filter.
    + rewrite trim_sentinel_padded; [reflexivity | |];
        unfold strip_bom; now apply forallb_filter.
  - intros Hfree. unfold guard_blank, normal_form. cbn zeta. rewrite Hfree.
    assert (Hsame : strip_bom (trim E cell) = trim E cell).
    { apply strip_bom_fixed. intros c Hc. apply (trim_incl E) in Hc.
      rewrite <- Hfree in Hc. now apply strip_bom_none in Hc. }
    rewrite Hsame.
    destruct (ustring_eqb (trim E cell) SENTINEL); [now rewrite orb_true_r|].
    intros ->. reflexivity.
  - intros spec col rho Hnum Hlow Hcell. unfold numeric_type in Hnum.
    apply orb_false_elim in Hnum as [Hint Hflt].
    unfold type_cast_x. cbn zeta. rewrite Hint, Hflt, Hlow.
    cbn [eval_v]. rewrite normal_form_eval. cbn [eval_s]. now rewrite Hcell.
Qed.

End GuardAndKey.

Lemma guard_drops_only_empty_keys_witness :
  normal_form ref_engine [32; 65279; 92; 78; 32]%N = []
  /\ guard_blank ref_engine (utext "  ") = true.
Proof.
  destruct (guard_drops_only_empty_keys ref_engine ref_engine_sound
              [32; 65279; 92; 78; 32]%N) as (Hdrop & _).
  destruct (guard_drops_only_empty_keys ref_engine ref_engine_sound
              (utext "  ")) as (_ & Hfree & _).
  split; [apply Hdrop | apply Hfree]; reflexivity.
Defined.

(** ** Entries of the load order and their sources *)

(** X23.  A spec names its source; the address is the one of the first
    declared source with that name.  When no source has the name, the
    entry of a node or a relationship ends the run with [RuntimeError]
    where it stands in the load order: nothing is printed or sent for
    it, and what the entries before it did stays done. *)
Theorem undeclared_source_stops_entry
  (W : World) (args : Args) (mapping : Mapping) (sources : list SourceDecl)
  (params_common : dict pyval) (key : string) (tr : list event) :
  (forall spec,
      lookup key (m_nodes mapping) = Some spec ->
      forallb (fun s => negb (String.eqb (src_name s) (ns_source spec))) sources
      = true ->
      load_item W args mapping sources params_common ("nodes." ++ key) tr
      = (tr, inr (Uncaught (RuntimeError (ns_source spec)))))
  /\ (forall spec,
        lookup key (m_relationships mapping) = Some spec ->
        forallb (fun s => negb (String.eqb (src_name s) (rs_source spec))) sources
        = true ->
        load_item W args mapping sources params_common
                  ("relationships." ++ key) tr
        = (tr, inr (Uncaught (RuntimeError (rs_source spec)))))
  /\ (forall name pre s post,
        sources = (pre ++ s :: post)%list ->
        src_name s = name ->
        forallb (fun s' => negb (String.eqb (src_name s') name)) pre = true ->
        url_for_source_name W args sources name
        = Ok (to_url W (a_base_url args) (src_path s))).
Proof.
  assert (Hnone : forall name,
             forallb (fun s => negb (String.eqb (src_name s) name)) sources = true ->
             find (fun s => String.eqb (src_name s) name) sources = None).
  { intros name. induction sources as [|s ss IH]; [reflexivity|].
    cbn [forallb find]. intros H. apply andb_prop in H as [Hs Hss].
    apply negb_true_iff in Hs. rewrite Hs. now apply IH. }
  split; [|split].
  - intros spec Hspec Hsrc. unfold load_item.
    rewrite prefix_append. change (after_dot ("nodes." ++ key)) with key.
    rewrite Hspec. cbn [require lift]. unfold seq at 1. cbn [ret].
    unfold url_for_source_name. now rewrite (Hnone _ Hsrc).
  - intros spec Hspec Hsrc. unfold load_item.
    change (String.prefix "nodes." ("relationships." ++ key)) with false.
    rewrite prefix_append. change (after_dot ("relationships." ++ key)) with key.
    rewrite Hspec. cbn [require lift]. unfold seq at 1. cbn [ret].
    unfold url_for_source_name. now rewrite (Hnone _ Hsrc).
  - intros name pre s post -> Hs Hpre. unfold url_for_source_name.
    clear Hnone. induction pre as [|p pre IH]; cbn [app find].
    + now rewrite Hs, String.eqb_refl.
    + cbn [forallb] in Hpre. apply andb_prop in Hpre as [Hp Hpre].
      apply negb_true_iff in Hp. rewrite Hp. now apply IH.
Qed.

Lemma undeclared_source_stops_entry_witness :
  load_item quiet_world plain_args (mapping_with []) [semlinkref_source] []
            "nodes.synset" []
  = ([], inr (Uncaught (RuntimeError "synset"))).
Proof.
  exact (proj1 (undeclared_source_stops_entry quiet_world plain_args
                  (mapping_with []) [semlinkref_source] [] "synset" [])
               synset_spec eq_refl eq_refl).
Defined.

(** ** The direction of a relationship *)

(** X24.  The direction of a relationship is read without regard to case,
    and anything but [OUT] reverses it.  For a spec with no direction
    or one that is [OUT] in upper case, every edge a row adds goes from
    a node the [from] pattern found to a node the [to] pattern found;
    for any other direction, [IN] or not, it goes from a node of the
    [to] pattern to a node of the [from] pattern. *)
Theorem direction_other_than_out_reverses
  (E : Engine) (spec : RelSpec) (st : rel_load) (rho : env) (g g' : graph) :
  rel_load_of spec = Some st ->
  exec_rel_load E st rho g = Done g' ->
  exists added,
    map edge_frame (g_edges g')
    = (map edge_frame (g_edges g) ++ map edge_frame added)%list
    /\ Forall (fun e =>
                 if String.eqb (upper (get_or (rs_direction spec) "OUT")) "OUT"
                 then In (e_src e) (match_nodes E (rl_from st) rho g)
                      /\ In (e_dst e) (match_nodes E (rl_to st) rho g)
                 else In (e_src e) (match_nodes E (rl_to st) rho g)
                      /\ In (e_dst e) (match_nodes E (rl_from st) rho g))
              added.
Proof.
  intros Hst Hrun.
  assert (Hout : rl_out st
                 = String.eqb (upper (get_or (rs_direction spec) "OUT")) "OUT").
  { unfold rel_load_of in Hst.
    destruct (map required_col _); [discriminate|].
    destruct (node_pat_of (rs_from spec)); [|discriminate].
    destruct (node_pat_of (rs_to spec)); [|discriminate].
    now inversion Hst. }
  destruct (rel_load_adds E st rho g g' Hrun) as (_ & added & Hframes & Hall).
  exists added. split; [exact Hframes|].
  eapply Forall_impl; [|exact Hall]. intros e [_ Hin].
  unfold endpoint_pairs in Hin. rewrite <- Hout.
  destruct (rl_out st).
  - now apply in_prod_iff in Hin.
  - apply in_map_iff in Hin as ([a b] & Heq & Hin). cbn [fst snd] in Heq.
    inversion Heq; subst. apply in_prod_iff in Hin. tauto.
Qed.

Lemma direction_other_than_out_reverses_witness :
  exists st g',
    rel_load_of
      {| rs_source := "semlinkref"; rs_type := "SYNSET";
         rs_direction := Some "both";
         rs_from := rs_from semantic_SYNSET; rs_to := rs_to semantic_SYNSET;
         rs_properties := rs_properties semantic_SYNSET |}
    = Some st
    /\ exec_rel_load ref_engine st (env_of (link_row "1" "2" "7")) two_synsets
       = Done g'
    /\ map edge_frame (g_edges g') = [(2, "SYNSET", 1, 0)].
Proof.
  pose (spec := {| rs_source := "semlinkref"; rs_type := "SYNSET";
                   rs_direction := Some "both";
                   rs_from := rs_from semantic_SYNSET;
                   rs_to := rs_to semantic_SYNSET;
                   rs_properties := rs_properties semantic_SYNSET |}).
  let v := eval vm_compute in (rel_load_of spec) in
  match v with Some ?s => pose (st := s) end.
  let v := eval vm_compute in
      (exec_rel_load ref_engine st (env_of (link_row "1" "2" "7")) two_synsets) in
  match v with Done ?g => pose (g1 := g) end.
  destruct (direction_other_than_out_reverses ref_engine spec st
              (env_of (link_row "1" "2" "7")) two_synsets g1 eq_refl eq_refl)
    as (added & Hframes & _).
  exists st, g1. split; [reflexivity|]. split; reflexivity.
Defined.

(** ** The run as a whole *)

Lemma seq_assoc {A B C : Type} (m : prog A) (k : A -> prog B) (l : B -> prog C)
  (tr : list event) :
  seq (seq m k) l tr = seq m (fun a => seq (k a) l) tr.
Proof.
  unfold seq. destruct (m tr) as [tr1 [a|h]]; [|reflexivity].
  now destruct (k a tr1) as [tr2 [b|h]].
Qed.

Lemma seq_ext {A B : Type} (m : prog A) (k k' : A -> prog B) (tr : list event) :
  (forall a tr', k a tr' = k' a tr') -> seq m k tr = seq m k' tr.
Proof.
  intros H. unfold seq. destruct (m tr) as [tr1 [a|h]]; [apply H | reflexivity].
Qed.

(** [main] is what it does before the graph assertions, then the
    assertions and its last line. *)
Lemma main_phases (W : World) (args : Args) (mapping : Mapping)
  (manifest : list ManifestFile) (tr : list event) :
  main W args mapping manifest tr
  = (before_validations W args mapping manifest ;;;
     validations W mapping ;;;
     print (MsgComplete (batch_id_of W args mapping))) tr.
Proof.
  unfold main, before_validations. cbn zeta. symmetry.
  rewrite seq_assoc. apply seq_ext. intros _ tr1.
  rewrite seq_assoc. apply seq_ext. intros _ tr2.
  now rewrite seq_assoc.
Qed.

(** A loop that ends the run does so in the body of one of its items,
    after the items before it have passed. *)
Lemma for_each_halts {A : Type} (body : A -> prog unit) (xs : list A) :
  forall tr0 tr h,
    for_each xs body tr0 = (tr, inr h) ->
    exists pre x post tr1,
      xs = (pre ++ x :: post)%list
      /\ for_each pre body tr0 = (tr1, inl tt)
      /\ body x tr1 = (tr, inr h).
Proof.
  induction xs as [|x xs IH]; intros tr0 tr h; cbn [for_each].
  - discriminate.
  - unfold seq. destruct (body x tr0) as [tr1 [[]|h1]] eqn:Hx.
    + intros Hrest. destruct (IH tr1 tr h Hrest) as (pre & y & post & tr2 & -> & Hpre & Hy).
      exists (x :: pre), y, post, tr2. split; [reflexivity|]. split; [|exact Hy].
      cbn [for_each]. unfold seq. now rewrite Hx.
    + intros H. inversion H; subst. exists [], x, xs, tr0.
      split; [reflexivity|]. split; [reflexivity | exact Hx].
Qed.

(** A loop whose bodies all pass passes. *)
Lemma for_each_passes {A : Type} (body : A -> prog unit) (xs : list A) :
  (forall x tr, In x xs -> snd (body x tr) = inl tt) ->
  forall tr, snd (for_each xs body tr) = inl tt.
Proof.
  induction xs as [|x xs IH]; intros Hbody tr; cbn [for_each]; [reflexivity|].
  unfold seq. specialize (Hbody x tr (or_introl eq_refl)) as Hx.
  destruct (body x tr) as [tr1 [[]|h]]; [|discriminate].
  apply IH. intros y tr' Hy. apply Hbody. now right.
Qed.

Lemma exits_for_each_in {A : Type} (ok : Z -> bool) (body : A -> prog unit)
  (xs : list A) :
  (forall x, In x xs -> exits_by ok (body x)) -> exits_by ok (for_each xs body).
Proof.
  induction xs as [|x xs IH]; intros Hbody; cbn [for_each].
  - apply exits_ret.
  - apply exits_seq; [apply Hbody; now left | intros _].
    apply IH. intros y Hy. apply Hbody. now right.
Qed.

Section WholeRun.

Variable W : World.

Lemma exits_create_constraints (ok : Z -> bool) (mapping : Mapping) :
  exits_by ok (create_constraints W mapping).
Proof.
  unfold create_constraints. apply exits_seq; [apply exits_lift | intros stmts].
  apply exits_for_each. intros stmt. apply exits_neo_run_void.
Qed.

Lemma exits_load_all (ok : Z -> bool) (args : Args) (mapping : Mapping)
  (sources : list SourceDecl) :
  exits_by ok (load_all W args mapping sources).
Proof.
  unfold load_all. apply exits_for_each. intros item. apply exits_load_item.
Qed.

(** The exit codes of the three checks of the preflight. *)
Lemma exits_check_checksum (ok : Z -> bool) (args : Args) (src : SourceDecl) :
  (digest_differs W args src = true -> ok 3%Z = true) ->
  exits_by ok (check_checksum W args src
                 (to_url W (a_base_url args) (src_path src))).
Proof.
  intros Hok. unfold check_checksum, sha256_of_url.
  unfold digest_differs in Hok.
  destruct (a_verify_checksums args && truthy (src_checksum src));
    [|apply exits_ret].
  destruct (w_sha256 W _) as [got|].
  - intros tr code. unfold seq, ret. cbn [andb] in Hok.
    destruct (negb (String.eqb got (get_or (src_checksum src) EmptyString))).
    + unfold eprint, emit, sys_exit. cbn [snd]. intros H. inversion H; subst.
      now apply Hok.
    + unfold print, emit. discriminate.
  - intros tr code. unfold seq, throw. discriminate.
Qed.

Lemma exits_check_rowcount (ok : Z -> bool) (args : Args) (src : SourceDecl)
  (url : string) :
  ok 4%Z = true -> exits_by ok (check_rowcount W args src url).
Proof.
  intros Hok. unfold check_rowcount, count_rows_of_url.
  destruct (a_verify_rowcounts args); [|apply exits_ret].
  destruct (src_rows src); [|apply exits_ret].
  apply exits_seq.
  - destruct (w_iter_lines W _); [apply exits_ret | apply exits_throw].
  - intros n. destruct (negb _); [|apply exits_emit].
    apply exits_seq; [apply exits_emit | intros _]. now apply exits_exit.
Qed.

Lemma exits_check_linkid (ok : Z -> bool) (args : Args) (name url : string) :
  ok 6%Z = true -> exits_by ok (check_linkid W args name url).
Proof.
  intros Hok. unfold check_linkid.
  destruct (String.eqb name "semlinkref"); [|apply exits_ret].
  destruct (count_missing_col_in_csv W _ _); [|apply exits_emit].
  destruct (0 <? z)%Z; [|apply exits_ret].
  destruct (a_strict_missing_linkid args); [|apply exits_emit].
  apply exits_seq; [apply exits_emit | intros _]. now apply exits_exit.
Qed.

Lemma exits_preflight_codes (ok : Z -> bool) (args : Args)
  (sources : list SourceDecl) :
  (existsb (digest_differs W args) sources = true -> ok 3%Z = true) ->
  ok 4%Z = true -> ok 6%Z = true ->
  exits_by ok (preflight W args sources).
Proof.
  intros H3 H4 H6. unfold preflight. destruct (_ || _); [|apply exits_ret].
  apply exits_seq; [apply exits_emit | intros _].
  apply exits_for_each_in. intros src Hin. unfold preflight_source.
  apply exits_seq; [apply exits_emit | intros _].
  apply exits_seq; [|intros _; apply exits_seq; [|intros _]].
  - apply exits_check_checksum. intros Hd. apply H3.
    apply existsb_exists. now exists src.
  - now apply exits_check_rowcount.
  - now apply exits_check_linkid.
Qed.

(** Before the graph assertions a run can leave with the codes 2, 3, 4
    and 6, and with 3 only when a digest differs. *)
Lemma exits_before_validations (ok : Z -> bool) (args : Args)
  (mapping : Mapping) (manifest : list ManifestFile) :
  ok 2%Z = true ->
  (existsb (digest_differs W args)
           (map (annotate manifest) (m_sources mapping)) = true ->
   ok 3%Z = true) ->
  ok 4%Z = true -> ok 6%Z = true ->
  exits_by ok (before_validations W args mapping manifest).
Proof.
  intros H2 H3 H4 H6. unfold before_validations. apply exits_seq.
  - eapply exits_by_weaken; [|apply exits_startup].
    intros code H. cbv beta in H. apply andb_prop in H as [Hc _].
    apply Z.eqb_eq in Hc. now subst code.
  - intros _. cbn zeta.
    apply exits_seq; [apply exits_create_constraints | intros _].
    apply exits_seq; [now apply exits_preflight_codes | intros _].
    apply exits_load_all.
Qed.

(** ** A checksum that differs *)

(** C7.  With a password, checksum verification on, a database that
    accepts the constraint statements, and a source whose declared
    digest differs from the computed one while the sources before it
    pass their checks: the run ends with exit code 3, and the
    statements sent to the database by then are exactly the constraint
    and index statements of the mapping.  Each of them is a schema
    statement, which writes no node and no edge: no load, no
    promotion and no cleanup has run.  And 3 is the exit code of
    nothing else: a run that ends with it has found a digest that
    differs. *)
Theorem checksum_mismatch_aborts_after_constraints
  (args : Args) (mapping : Mapping) (manifest : list ManifestFile)
  (stmts : list string) (pre post : list SourceDecl) (src : SourceDecl)
  (expected got : string) :
  truthy (a_password args) = true ->
  a_verify_checksums args = true ->
  build_constraint_cypher (m_indexes mapping) = Ok stmts ->
  (forall tr stmt, w_db W tr stmt [] <> None) ->
  map (annotate manifest) (m_sources mapping) = (pre ++ src :: post)%list ->
  (forall s tr, In s pre -> snd (preflight_source W args s tr) = inl tt) ->
  src_checksum src = Some expected ->
  truthy (Some expected) = true ->
  w_sha256 W (to_url W (a_base_url args) (src_path src)) = Some got ->
  got <> expected ->
  (exists tr,
      main W args mapping manifest [] = (tr, inr (Exit 3))
      /\ db_calls tr = stmts)
  /\ (exists schema,
         schema_of_all (m_indexes mapping) = Ok schema
         /\ stmts = map render_schema schema
         /\ forall s g g',
              In s schema ->
              exec_schema s g = Done g' ->
              g_nodes g' = g_nodes g /\ g_edges g' = g_edges g)
  /\ (forall args' mapping' manifest' tr',
         snd (main W args' mapping' manifest' tr') = inr (Exit 3) ->
         existsb (digest_differs W args')
                 (map (annotate manifest') (m_sources mapping')) = true).
Proof.
  intros Hpw Hflag Hbuild Hdb Hsrc Hpre Hsum Htruthy Hsha Hneq.
  split; [|split].
  - unfold main. rewrite Hsrc.
    destruct (startup_done args mapping [] Hpw) as [Hres0 Hcalls0].
    destruct (startup args mapping []) as [tr0 r0] eqn:Hstart.
    cbn [fst snd] in *. subst r0.
    rewrite (seq_inl _ _ _ _ _ Hstart).
    rewrite (seq_inl _ _ _ _ _
               (create_constraints_done W mapping stmts tr0 Hbuild Hdb)).
    destruct (preflight_mismatch W args pre post src expected got
                (tr0 ++ map (fun stmt => DbRun stmt []) stmts)%list
                Hflag Hpre Hsum Htruthy Hsha Hneq) as [Hres1 Hcalls1].
    destruct (preflight W args (pre ++ src :: post) _) as [tr1 r1] eqn:Hpf.
    cbn [fst snd] in *. subst r1.
    rewrite (seq_inr _ _ _ _ _ Hpf).
    exists tr1. split; [reflexivity|].
    rewrite Hcalls1, db_calls_app, Hcalls0, db_calls_runs. reflexivity.
  - rewrite build_constraint_cypher_render in Hbuild.
    destruct (schema_of_all (m_indexes mapping)) as [schema|e];
      [|discriminate].
    cbn [bind] in Hbuild. inversion Hbuild; subst.
    exists schema. split; [reflexivity|]. split; [reflexivity|].
    intros s g g' _. apply exec_schema_frame.
  - intros args' mapping' manifest' tr' Hexit.
    assert (Hex : exits_by
                    (fun code =>
                       negb (Z.eqb code 3)
                       || existsb (digest_differs W args')
                                  (map (annotate manifest') (m_sources mapping')))
                    (main W args' mapping' manifest')).
    { intros tr code. rewrite main_phases. revert tr code.
      apply exits_seq.
      - apply exits_before_validations; try reflexivity.
        intros ->. reflexivity.
      - intros _. apply exits_seq; [|intros _; apply exits_emit].
        unfold validations. apply exits_for_each. intros a.
        eapply exits_by_weaken; [|apply exits_validate].
        intros code Hc. apply Z.eqb_eq in Hc. now subst code. }
    exact (Hex tr' 3%Z Hexit).
Qed.

(** ** Graph assertions *)

(** [ok is True or ok == 1] is false. *)
Lemma ok_passes_false (ok : pyval) :
  ok_passes ok = false
  <-> match ok with
      | PBool b => b = false
      | PInt z => z <> 1%Z
      | PFloat f => float_eq_int f 1 = false
      | _ => True
      end.
Proof.
  destruct ok; cbn [ok_passes]; try tauto.
  apply Z.eqb_neq.
Qed.

(** The body of the loop on an assertion that the database answers. *)
Lemma validate_answered (cypher : string) (tr : list event)
  (rows : list (dict pyval)) :
  w_db W tr cypher [] = Some rows ->
  validate W (Some cypher) tr
  = match rows with
    | r0 :: _ =>
        match lookup "ok" r0 with
        | Some ok =>
            if ok_passes ok
            then ((tr ++ [DbRun cypher []; Stdout (MsgValidationOK cypher)])%list,
                  inl tt)
            else ((tr ++ [DbRun cypher [];
                          Stderr (MsgValidationFailed cypher rows)])%list,
                  inr (Exit 5))
        | None =>
            ((tr ++ [DbRun cypher []; Stdout (MsgValidationResult rows)])%list,
             inl tt)
        end
    | [] => ((tr ++ [DbRun cypher []; Stdout (MsgValidationResult rows)])%list,
             inl tt)
    end.
Proof.
  intros Hdb. unfold validate. cbn [require lift]. unfold seq at 1. cbn [ret].
  unfold seq at 1. unfold neo_run. rewrite Hdb.
  destruct rows as [|r0 rest]; [unfold print, emit; now rewrite <- app_assoc|].
  destruct (lookup "ok" r0) as [ok|];
    [|unfold print, emit; now rewrite <- app_assoc].
  destruct (ok_passes ok); unfold seq, print, eprint, emit, sys_exit;
    now rewrite <- app_assoc.
Qed.

(** An assertion that ends the run with an exit code was answered, with
    an [ok] that does not pass. *)
Lemma validate_exits (assertion : option string) (tr1 tr : list event)
  (code : Z) :
  validate W assertion tr1 = (tr, inr (Exit code)) ->
  exists cypher rows r0 rest ok,
    assertion = Some cypher
    /\ w_db W tr1 cypher [] = Some rows
    /\ rows = r0 :: rest
    /\ lookup "ok" r0 = Some ok
    /\ ok_passes ok = false
    /\ code = 5%Z
    /\ tr = (tr1 ++ [DbRun cypher [];
                     Stderr (MsgValidationFailed cypher rows)])%list.
Proof.
  destruct assertion as [cypher|].
  2:{ unfold validate. cbn [require lift]. unfold seq, throw. discriminate. }
  destruct (w_db W tr1 cypher []) as [rows|] eqn:Hdb.
  2:{ unfold validate. cbn [require lift]. unfold seq at 1. cbn [ret].
      unfold seq at 1. unfold neo_run. rewrite Hdb. discriminate. }
  rewrite (validate_answered cypher tr1 rows Hdb).
  destruct rows as [|r0 rest]; [discriminate|].
  destruct (lookup "ok" r0) as [ok|] eqn:Hok; [|discriminate].
  destruct (ok_passes ok) eqn:Hp; [discriminate|].
  intros H. inversion H; subst.
  exists cypher, (r0 :: rest), r0, rest, ok. repeat split; assumption.
Qed.

(** C5.  A run of [main] ends with exit code 5 exactly when it reaches a
    graph assertion whose query the database answers with a first row
    that has a field [ok] whose value is neither [True] nor equal to
    1, for instance [False], 0, [None] or a string; the failure is
    then printed on the standard error and no later assertion is run.
    No other exit of [main] has the code 5, and an assertion ends a
    run with no other code.  For an assertion that is answered with
    no row, or with a first row without [ok], the result is printed
    and the loop goes on; with an [ok] that is [True] or equal to 1,
    the success is printed and the loop goes on.  So a run whose
    assertions are all answered in one of these ways ends normally,
    with its last line. *)
Theorem validation_fails_on_false_ok
  (args : Args) (mapping : Mapping) (manifest : list ManifestFile) :
  (forall tr,
      main W args mapping manifest [] = (tr, inr (Exit 5))
      <-> exists tr0 pre cypher post tr1 rows r0 rest ok,
            before_validations W args mapping manifest [] = (tr0, inl tt)
            /\ m_assertions mapping = (pre ++ Some cypher :: post)%list
            /\ for_each pre (validate W) tr0 = (tr1, inl tt)
            /\ w_db W tr1 cypher [] = Some rows
            /\ rows = r0 :: rest
            /\ lookup "ok" r0 = Some ok
            /\ match ok with
               | PBool b => b = false
               | PInt z => z <> 1%Z
               | PFloat f => float_eq_int f 1 = false
               | _ => True
               end
            /\ tr = (tr1 ++ [DbRun cypher [];
                             Stderr (MsgValidationFailed cypher rows)])%list)
  /\ (forall assertion tr1 tr code,
         validate W assertion tr1 = (tr, inr (Exit code)) -> code = 5%Z)
  /\ (forall cypher tr rows,
         w_db W tr cypher [] = Some rows ->
         rows = [] \/ (exists r0 rest, rows = r0 :: rest /\ lookup "ok" r0 = None) ->
         validate W (Some cypher) tr
         = ((tr ++ [DbRun cypher []; Stdout (MsgValidationResult rows)])%list,
            inl tt))
  /\ (forall cypher tr rows r0 rest ok,
         w_db W tr cypher [] = Some rows ->
         rows = r0 :: rest ->
         lookup "ok" r0 = Some ok ->
         ok = PBool true \/ ok = PInt 1
         \/ (exists f, ok = PFloat f /\ float_eq_int f 1 = true) ->
         validate W (Some cypher) tr
         = ((tr ++ [DbRun cypher []; Stdout (MsgValidationOK cypher)])%list,
            inl tt))
  /\ (forall tr0,
         before_validations W args mapping manifest [] = (tr0, inl tt) ->
         (forall assertion tr,
             In assertion (m_assertions mapping) ->
             exists cypher rows,
               assertion = Some cypher
               /\ w_db W tr cypher [] = Some rows
               /\ (rows = []
                   \/ exists r0 rest,
                        rows = r0 :: rest
                        /\ (lookup "ok" r0 = None
                            \/ lookup "ok" r0 = Some (PBool true)
                            \/ lookup "ok" r0 = Some (PInt 1)))) ->
         exists tr,
           main W args mapping manifest []
           = ((tr ++ [Stdout (MsgComplete (batch_id_of W args mapping))])%list,
              inl tt)).
Proof.
  split; [|split; [|split; [|split]]].
  - intros tr. rewrite main_phases. split.
    + unfold seq at 1.
      destruct (before_validations W args mapping manifest []) as [tr0 [[]|h]]
        eqn:Hbefore.
      2:{ intros H. inversion H; subst. exfalso.
          assert (Hex : exits_by (fun code => negb (Z.eqb code 5))
                          (before_validations W args mapping manifest))
            by (apply exits_before_validations; try reflexivity;
                intros _; reflexivity).
          specialize (Hex [] 5%Z). rewrite Hbefore in Hex.
          specialize (Hex eq_refl). discriminate Hex. }
      unfold seq at 1. unfold validations.
      destruct (for_each (m_assertions mapping) (validate W) tr0)
        as [tr2 [[]|h]] eqn:Hloop; [discriminate|].
      intros H. inversion H; subst.
      destruct (for_each_halts _ _ _ _ _ Hloop)
        as (pre & a & post & tr1 & Hsplit & Hpre & Ha).
      destruct (validate_exits a tr1 tr 5%Z Ha)
        as (cypher & rows & r0 & rest & ok & -> & Hdb & Hrows & Hok & Hp & _ & Htr).
      exists tr0, pre, cypher, post, tr1, rows, r0, rest, ok.
      repeat split; try assumption. now apply ok_passes_false.
    + intros (tr0 & pre & cypher & post & tr1 & rows & r0 & rest & ok
              & Hbefore & Hsplit & Hpre & Hdb & Hrows & Hok & Hfail & ->).
      rewrite (seq_inl _ _ _ _ _ Hbefore).
      unfold seq at 1. unfold validations. rewrite Hsplit, for_each_app, Hpre.
      cbn [fst snd for_each]. unfold seq at 1.
      rewrite (validate_answered cypher tr1 rows Hdb). subst rows.
      rewrite Hok. apply ok_passes_false in Hfail. now rewrite Hfail.
  - intros assertion tr1 tr code H.
    now destruct (validate_exits assertion tr1 tr code H)
      as (? & ? & ? & ? & ? & _ & _ & _ & _ & _ & Hc & _).
  - intros cypher tr rows Hdb Hrows.
    rewrite (validate_answered cypher tr rows Hdb).
    destruct Hrows as [-> | (r0 & rest & -> & Hok)]; [reflexivity|].
    now rewrite Hok.
  - intros cypher tr rows r0 rest ok Hdb -> Hok Hpass.
    rewrite (validate_answered cypher tr _ Hdb), Hok.
    destruct Hpass as [-> | [-> | (f & -> & Hf)]]; cbn [ok_passes];
      [reflexivity | reflexivity | now rewrite Hf].
  - intros tr0 Hbefore Hall. rewrite main_phases.
    rewrite (seq_inl _ _ _ _ _ Hbefore). unfold seq at 1. unfold validations.
    assert (Hloop : snd (for_each (m_assertions mapping) (validate W) tr0)
                    = inl tt).
    { apply for_each_passes. intros a tr Hin.
      destruct (Hall a tr Hin) as (cypher & rows & -> & Hdb & Hrows).
      rewrite (validate_answered cypher tr rows Hdb).
      destruct Hrows as [-> | (r0 & rest & -> & [-> | [-> | ->]])];
        reflexivity. }
    destruct (for_each (m_assertions mapping) (validate W) tr0) as [tr2 r].
    cbn [snd] in Hloop. subst r. now exists tr2.
Qed.

End WholeRun.

(** The scenario of the specification: the declared digest is
    [abc123], the computed one is [def456]. *)
Lemma checksum_mismatch_aborts_witness :
  (exists tr,
      main quiet_world checking_args (mapping_with ["nodes.synset"])
           manifest_abc []
      = (tr, inr (Exit 3))
      /\ db_calls tr
         = ["CREATE CONSTRAINT IF NOT EXISTS FOR (n:`synset`) REQUIRE n.`synsetid` IS UNIQUE;"])
  /\ exists schema,
       schema_of_all (m_indexes (mapping_with ["nodes.synset"])) = Ok schema
       /\ schema = [UniqueNode "synset" "synsetid"].
Proof.
  destruct (checksum_mismatch_aborts_after_constraints quiet_world checking_args
              (mapping_with ["nodes.synset"]) manifest_abc
              ["CREATE CONSTRAINT IF NOT EXISTS FOR (n:`synset`) REQUIRE n.`synsetid` IS UNIQUE;"]
              [] [] (annotate manifest_abc synset_source) "abc123" "def456"
              eq_refl eq_refl eq_refl)
    as (Hrun & _ & _); try reflexivity; try discriminate.
  - intros s tr [].
  - split; [exact Hrun|]. now exists [UniqueNode "synset" "synsetid"].
Defined.

(** An assertion that the database answers with [ok] false ends the
    run with exit code 5, after the load. *)
Lemma validation_fails_on_false_ok_witness :
  exists tr1,
    main failing_world plain_args asserting_mapping [] []
    = ((tr1 ++ [DbRun synsets_exist [];
                Stderr (MsgValidationFailed synsets_exist
                          [[("ok", PBool false)]])])%list,
       inr (Exit 5)).
Proof.
  destruct (before_validations failing_world plain_args asserting_mapping [] [])
    as [tr0 r] eqn:Hbefore.
  assert (Hr : r = inl tt)
    by (change r with (snd (tr0, r)); rewrite <- Hbefore; reflexivity).
  subst r. exists tr0.
  apply (proj2 (proj1 (validation_fails_on_false_ok failing_world plain_args
                         asserting_mapping []) _)).
  exists tr0, [], synsets_exist, [], tr0, [[("ok", PBool false)]],
    [("ok", PBool false)], [], (PBool false).
  repeat split; try reflexivity. exact Hbefore.
Defined.

(** ** A source without the scanned column *)

(** C10.  When the header of the source does not have the column, the
    scan counts every data row, and that number is what
    [count_missing_col_in_csv] returns for a source that is fetched and
    read without an exception.  So in strict mode, for the source
    [semlinkref] with at least one data row and the column [linkid]
    absent, the preflight of that source ends with exit code 6 unless
    its checksum or row-count check has ended it before; and the run
    of [main] ends with exit code 6 when the sources before it pass
    their checks, after the constraint and index statements and
    before any load. *)
Theorem absent_column_counts_every_row
  (W : World) (args : Args) (src : SourceDecl) (data col : ustring) :
  forallb (fun name => negb (ustring_eqb name col)) (header_of (w_csv W) data)
  = true ->
  w_text W (to_url W (a_base_url args) (src_path src)) = Some data ->
  scan_raises (w_csv_raises W) data = false ->
  count_missing_in (w_csv W) data col
  = Z.of_nat (length (data_rows (w_csv W) data))
  /\ count_missing_col_in_csv W (to_url W (a_base_url args) (src_path src)) col
     = Some (Z.of_nat (length (data_rows (w_csv W) data)))
  /\ (col = utext "linkid" ->
      src_name src = "semlinkref" ->
      a_strict_missing_linkid args = true ->
      data_rows (w_csv W) data <> [] ->
      (forall tr,
          snd (check_checksum W args src
                 (to_url W (a_base_url args) (src_path src)) tr) = inl tt) ->
      (forall tr,
          snd (check_rowcount W args src
                 (to_url W (a_base_url args) (src_path src)) tr) = inl tt) ->
      (forall tr, snd (preflight_source W args src tr) = inr (Exit 6))
      /\ forall mapping manifest stmts pre post,
           truthy (a_password args) = true ->
           build_constraint_cypher (m_indexes mapping) = Ok stmts ->
           (forall tr stmt, w_db W tr stmt [] <> None) ->
           map (annotate manifest) (m_sources mapping)
           = (pre ++ src :: post)%list ->
           (forall s tr, In s pre ->
                         snd (preflight_source W args s tr) = inl tt) ->
           exists tr,
             main W args mapping manifest [] = (tr, inr (Exit 6))
             /\ db_calls tr = stmts).
Proof.
  intros Habsent Htext Hread.
  assert (Hcount : count_missing_col_in_csv W
                     (to_url W (a_base_url args) (src_path src)) col
                   = Some (Z.of_nat (length (data_rows (w_csv W) data)))).
  { unfold count_missing_col_in_csv. rewrite Htext, Hread.
    now rewrite (count_missing_absent _ _ _ Habsent). }
  split; [now apply count_missing_absent|]. split; [exact Hcount|].
  intros -> Hname Hstrict Hrows Hsum Hrc.
  assert (Hstop : forall tr, snd (preflight_source W args src tr) = inr (Exit 6)).
  { intros tr. unfold preflight_source.
    rewrite (seq_inl _ _ tr _ tt) by reflexivity.
    set (url := to_url W (a_base_url args) (src_path src)) in *.
    set (tr1 := (tr ++ [Stdout (MsgSource (src_name src) url)])%list).
    specialize (Hsum tr1).
    destruct (check_checksum W args src url tr1) as [tr2 r2] eqn:H2.
    cbn [snd] in Hsum. subst r2. rewrite (seq_inl _ _ _ _ _ H2).
    specialize (Hrc tr2).
    destruct (check_rowcount W args src url tr2) as [tr3 r3] eqn:H3.
    cbn [snd] in Hrc. subst r3. rewrite (seq_inl _ _ _ _ _ H3).
    unfold check_linkid. rewrite Hname, Hcount.
    cbn [String.eqb]. rewrite ?String.eqb_refl.
    destruct (data_rows (w_csv W) data) as [|r rs]; [contradiction|].
    cbn [length]. replace (0 <? Z.of_nat (S (length rs)))%Z with true
      by (symmetry; apply Z.ltb_lt; lia).
    rewrite Hstrict. reflexivity. }
  split; [exact Hstop|].
  intros mapping manifest stmts pre post Hpw Hbuild Hdb Hsrc Hpre.
  apply (preflight_stops W args mapping manifest stmts pre post src);
    try assumption.
  rewrite Hstrict. now rewrite orb_true_r.
Qed.

(** The file of links names its discriminator [link]: its two rows
    count as rows without [linkid], and in strict mode the run ends
    with exit code 6 after the constraint statement. *)
Lemma absent_column_counts_every_row_witness :
  count_missing_in plain_csv links_csv (utext "linkid") = 2%Z
  /\ count_missing_col_in_csv links_world "https://host/wn/semlinkref.csv"
       (utext "linkid") = Some 2%Z
  /\ exists tr,
       main links_world strict_args links_mapping [] [] = (tr, inr (Exit 6))
       /\ db_calls tr
          = ["CREATE CONSTRAINT IF NOT EXISTS FOR (n:`synset`) REQUIRE n.`synsetid` IS UNIQUE;"].
Proof.
  destruct (absent_column_counts_every_row links_world strict_args
              semlinkref_source links_csv (utext "linkid")
              eq_refl eq_refl eq_refl)
    as (Hcount & Hret & Hexit).
  split; [exact Hcount|]. split; [exact Hret|].
  destruct Hexit as [_ Hrun]; try reflexivity; [discriminate|].
  apply (Hrun links_mapping [] _ [] []); try reflexivity; try discriminate.
  intros s tr [].
Defined.

